(** * Sea Battle: game state, ships and targeting AI

    A shallow embedding of the refactored Sea Battle engine (the classes
    [GameConfig], [Ship], [GameState] and [GameAI] of seabattle-refactored)
    and the properties of its specification.

    - JavaScript compares objects by identity when they are stored in a
      [Set], so every coordinate object carries the reference it was
      created with next to its two fields.
    - Ships and arrays are mutable and shared through references: they
      live in a store, and the fields of the game hold references.
    - An exception leaves the world as the code had changed it so far:
      computations are in a state and exception monad.
    - [Math.random] is an oracle: the k-th call is resolved by [rand k].
    - Numbers are integers.  A NaN is modelled where a caller can pass
      one, in a guess ([AnyNumber]); infinities and fractions are not
      modelled.
    - The view and the controller are embedded for what they compute:
      strings are ASCII strings, and the player is the list of the lines
      they type. *)

From Stdlib Require Import ZArith Lia Ascii.
From stdpp Require Import base tactics option list relations strings pretty.

Local Open Scope Z_scope.

(** ** GameConfig *)

Module GameConfig.
Definition BOARD_SIZE : Z := 10.

Record ShipEntry := { entry_size : Z; entry_count : nat }.

(** [static SHIPS = [{ type: 'battleship', size: 3, count: 3 }]] *)
Definition SHIPS : list ShipEntry := [ {| entry_size := 3; entry_count := 3 |} ].

Definition MAX_PLACEMENT_ATTEMPTS : nat := 100.
End GameConfig.

(** ** Errors and outcomes

    Every [throw new Error(msg)] of the sources is one constructor, named
    after the message it carries.  [TypeError] is the engine's own error on
    a property access on [undefined]. *)

Inductive Error :=
  | InvalidSize            (* 'Недопустимый размер корабля' *)
  | InvalidCoordinates     (* ERROR_MESSAGES.INVALID_COORDINATES *)
  | NotPartOfShip          (* 'Попадание не по кораблю' *)
  | AlreadySunk            (* 'Корабль уже потоплен' *)
  | InvalidShipPlacement   (* ERROR_MESSAGES.INVALID_SHIP_PLACEMENT *)
  | NotInitialized         (* ERROR_MESSAGES.GAME_NOT_INITIALIZED *)
  | AlreadyInitialized     (* 'Игра уже инициализирована' *)
  | GameOver               (* ERROR_MESSAGES.GAME_OVER *)
  | AlreadyGuessed         (* 'Эта клетка уже проверена' *)
  | PlacementExhausted     (* 'Не удалось разместить корабли' *)
  | PlacementExhaustedCPU  (* 'Не удалось разместить корабли CPU' *)
  | TypeError.

Inductive Outcome (A : Type) :=
  | Ok (a : A)
  | Throw (e : Error).
Arguments Ok {A} a.
Arguments Throw {A} e.

(** ** Coordinates and JavaScript sets *)

(** A coordinate object [{row, col}] with the identity [ref] it was created
    with.  The engine never writes to a coordinate after creating it. *)
Record Coord := mkCoord { ref : nat; row : Z; col : Z }.

(** Structural equality of two coordinates, whatever their identity. *)
Definition sameCell (a b : Coord) : Prop := row a = row b ∧ col a = col b.

(** [Set<object>]: insertion-ordered, membership by identity. *)
Definition ObjSet := list Coord.

Definition ObjSet_has (s : ObjSet) (x : Coord) : bool :=
  bool_decide (ref x ∈ ref <$> s).

Definition ObjSet_add (s : ObjSet) (x : Coord) : ObjSet :=
  if ObjSet_has s x then s else s ++ [x].

(** [Set<string>]: membership by string equality. *)
Definition StrSet := list string.

Definition StrSet_has (s : StrSet) (k : string) : bool := bool_decide (k ∈ s).

Definition StrSet_add (s : StrSet) (k : string) : StrSet :=
  if StrSet_has s k then s else s ++ [k].

Definition inBounds (row col : Z) : bool :=
  (0 <=? row) && (row <? GameConfig.BOARD_SIZE) &&
  (0 <=? col) && (col <? GameConfig.BOARD_SIZE).

(** ** Ship (models/Ship.js)

    A method that mutates [this] returns the ship after the call; a method
    that throws leaves it as it was. *)

Module Ship.
Record t := mk { size : Z; locations : ObjSet; hits : ObjSet }.

(** [constructor(size)], for a size that is an integer. *)
Definition new (size : Z) : Outcome t :=
  if (size <? 1) || (size >? 4) then Throw InvalidSize
  else Ok {| size := size; locations := []; hits := [] |}.

(** [#isValidLocation]: a [Coord] is an object with two numeric fields,
    so of the source's conjuncts only the four bounds remain. *)
Definition isValidLocation (location : Coord) : bool :=
  (0 <=? row location) && (row location <? GameConfig.BOARD_SIZE) &&
  (0 <=? col location) && (col location <? GameConfig.BOARD_SIZE).

Definition addLocation (this : t) (location : Coord) : Outcome t :=
  if negb (isValidLocation location) then Throw InvalidCoordinates
  else Ok {| size := size this;
             locations := ObjSet_add (locations this) location;
             hits := hits this |}.

Definition isAtLocation (this : t) (location : Coord) : bool :=
  ObjSet_has (locations this) location.

Definition isHit (this : t) (location : Coord) : bool :=
  ObjSet_has (hits this) location.

Definition isSunk (this : t) : bool :=
  Z.of_nat (length (hits this)) =? size this.

Definition hit (this : t) (location : Coord) : Outcome t :=
  if negb (isValidLocation location) then Throw InvalidCoordinates
  else if negb (isAtLocation this location) then Throw NotPartOfShip
  else if isSunk this then Throw AlreadySunk
  else Ok {| size := size this;
             locations := locations this;
             hits := ObjSet_add (hits this) location |}.

(** [locs.forEach(loc => ship.addLocation(loc))] and the same for [hit];
    the first throw ends the iteration. *)
Fixpoint addLocations (this : t) (locs : list Coord) : Outcome t :=
  match locs with
  | [] => Ok this
  | l :: locs' =>
      match addLocation this l with
      | Ok this' => addLocations this' locs'
      | Throw e => Throw e
      end
  end.

Fixpoint hitAll (this : t) (locs : list Coord) : Outcome t :=
  match locs with
  | [] => Ok this
  | l :: locs' =>
      match hit this l with
      | Ok this' => hitAll this' locs'
      | Throw e => Throw e
      end
  end.
End Ship.

(** ** The world: private fields, stores, allocation and randomness *)

Inductive Direction := up | right | down | left.

Global Instance Direction_eq_dec : EqDecision Direction.
Proof. solve_decision. Defined.

(** Private fields of a [GameAI] object. *)
Record AIFields := mkAI {
  lastHit : option Coord;
  possibleDirections : list Direction;
  currentDirection : option Direction;
  possibleShipSizes : list Z }.

(** Private fields of the [GameState] object.  The two fleets are arrays of
    [Ship] references; the fields hold the references of the arrays. *)
Record GameFields := mkGame {
  initialized : bool;
  playerShips : nat;
  cpuShips : nat;
  playerGuesses : StrSet;
  cpuGuesses : StrSet;
  gameAI : option AIFields;
  maxPlacementAttempts : nat }.

(** [ships] and [arrays] are the stores of the [Ship] objects and of the
    arrays of ship references, addressed by position; [nextRef] is the
    identity of the next coordinate object; [draws] counts the calls of
    [Math.random] made so far. *)
Record World := mkWorld {
  ships : list Ship.t;
  arrays : list (list nat);
  nextRef : nat;
  draws : nat;
  game : GameFields }.

Definition with_ships (f : list Ship.t → list Ship.t) (w : World) : World :=
  mkWorld (f (ships w)) (arrays w) (nextRef w) (draws w) (game w).
Definition with_arrays (f : list (list nat) → list (list nat)) (w : World) : World :=
  mkWorld (ships w) (f (arrays w)) (nextRef w) (draws w) (game w).
Definition with_game (f : GameFields → GameFields) (w : World) : World :=
  mkWorld (ships w) (arrays w) (nextRef w) (draws w) (f (game w)).

Definition set_initialized (b : bool) (g : GameFields) : GameFields :=
  mkGame b (playerShips g) (cpuShips g) (playerGuesses g) (cpuGuesses g)
         (gameAI g) (maxPlacementAttempts g).
Definition set_playerGuesses (s : StrSet) (g : GameFields) : GameFields :=
  mkGame (initialized g) (playerShips g) (cpuShips g) s (cpuGuesses g)
         (gameAI g) (maxPlacementAttempts g).
Definition set_cpuGuesses (s : StrSet) (g : GameFields) : GameFields :=
  mkGame (initialized g) (playerShips g) (cpuShips g) (playerGuesses g) s
         (gameAI g) (maxPlacementAttempts g).
Definition set_gameAI (a : option AIFields) (g : GameFields) : GameFields :=
  mkGame (initialized g) (playerShips g) (cpuShips g) (playerGuesses g)
         (cpuGuesses g) a (maxPlacementAttempts g).

Definition set_lastHit (l : option Coord) (a : AIFields) : AIFields :=
  mkAI l (possibleDirections a) (currentDirection a) (possibleShipSizes a).
Definition set_possibleDirections (d : list Direction) (a : AIFields) : AIFields :=
  mkAI (lastHit a) d (currentDirection a) (possibleShipSizes a).
Definition set_currentDirection (d : option Direction) (a : AIFields) : AIFields :=
  mkAI (lastHit a) (possibleDirections a) d (possibleShipSizes a).
Definition set_possibleShipSizes (s : list Z) (a : AIFields) : AIFields :=
  mkAI (lastHit a) (possibleDirections a) (currentDirection a) s.

(** Reading the stores.  A fleet is the content of the array a field
    refers to. *)
Definition arrayAt (w : World) (a : nat) : list nat := default [] (arrays w !! a).
Definition shipAt (w : World) (s : nat) : option Ship.t := ships w !! s.

(** *** A state and exception monad over the world *)

Definition M (A : Type) : Type := World → Outcome A * World.

Definition ret {A} (a : A) : M A := λ w, (Ok a, w).
Definition throw {A} (e : Error) : M A := λ w, (Throw e, w).
Definition bind {A B} (m : M A) (k : A → M B) : M B :=
  λ w, match m w with
       | (Ok a, w') => k a w'
       | (Throw e, w') => (Throw e, w')
       end.
Definition get : M World := λ w, (Ok w, w).
Definition modify (f : World → World) : M unit := λ w, (Ok tt, f w).

Declare Scope M_scope.
Delimit Scope M_scope with M.
Bind Scope M_scope with M.
Notation "x ← y ; z" := (bind y (λ x, z))
  (at level 20, y at level 100, z at level 200, only parsing) : M_scope.
Notation "' x ← y ; z" := (bind y (λ x, z))
  (at level 20, x pattern, y at level 100, z at level 200, only parsing) : M_scope.
Notation "x ;; z" := (bind x (λ _, z))
  (at level 100, z at level 200, only parsing, right associativity) : M_scope.
Local Open Scope M_scope.

(** [{ row, col }]: a new object, distinct from every object so far. *)
Definition newCoord (row col : Z) : M Coord :=
  λ w, (Ok (mkCoord (nextRef w) row col),
        mkWorld (ships w) (arrays w) (S (nextRef w)) (draws w) (game w)).

(** [new Ship(size)]: the object is stored once the constructor returns. *)
Definition newShip (size : Z) : M nat :=
  match Ship.new size with
  | Ok sh => λ w, (Ok (length (ships w)), with_ships (λ l, l ++ [sh]) w)
  | Throw e => throw e
  end.

(** A call [ship.method(...)] through a reference: the ship in the store is
    replaced by the ship after the call. *)
Definition callShip (s : nat) (method : Ship.t → Outcome Ship.t) : M unit :=
  λ w, match shipAt w s with
       | None => (Throw TypeError, w)
       | Some sh =>
           match method sh with
           | Ok sh' => (Ok tt, with_ships (λ l, <[s := sh']> l) w)
           | Throw e => (Throw e, w)
           end
       end.

(** [[...array]]: a new array with the same elements. *)
Definition copyArray (a : nat) : M nat :=
  λ w, (Ok (length (arrays w)), with_arrays (λ l, l ++ [arrayAt w a]) w).

(** [array.push(x)]. *)
Definition pushArray (a : nat) (x : nat) : M unit :=
  modify (λ w, with_arrays (λ l, <[a := arrayAt w a ++ [x]]> l) w).

Section Random.
(** [rand k] resolves the k-th call of [Math.random]. *)
Context (rand : nat → nat).

(** [Math.floor(Math.random() * n)]: some index below [n], and 0 when
    [n] is 0. *)
Definition randomBelow (n : nat) : M nat :=
  λ w, (Ok (match n with O => O | S _ => (rand (draws w) mod n)%nat end),
        mkWorld (ships w) (arrays w) (nextRef w) (S (draws w)) (game w)).
End Random.

(** Loops with a body in the monad: [for (const x of l) { acc = f acc x }]. *)
Fixpoint foldM {A B} (f : B → A → M B) (l : list A) (b : B) : M B :=
  match l with
  | [] => ret b
  | x :: l' => b' ← f b x; foldM f l' b'
  end.

(** ** GameState: the queries the AI uses (models/GameState.js) *)

(** The template string [`${guess.row},${guess.col}`]. *)
Definition getGuessKey (guess : Coord) : string :=
  pretty (row guess) +:+ "," +:+ pretty (col guess).

(** Consults the player's guess set, whoever asks. *)
Definition isCellGuessed (g : GameFields) (guess : Coord) : bool :=
  StrSet_has (playerGuesses g) (getGuessKey guess).

Definition getPlayerShips : M nat :=
  w ← get; copyArray (playerShips (game w)).

Definition getCPUShips : M nat :=
  w ← get; copyArray (cpuShips (game w)).

(** ** GameAI (models/GameAI.js)

    A method takes the fields of [this] and returns them after the call,
    next to its result.  The game the AI was built for is the one of the
    world. *)

Module GameAI.
Definition new : AIFields :=
  {| lastHit := None;
     possibleDirections := [up; right; down; left];
     currentDirection := None;
     possibleShipSizes := [4; 3; 2; 1] |}.

(** [#switchDirection]: the field is cleared first, and the filter then
    compares every direction with the cleared field. *)
Definition switchDirection (this : AIFields) : AIFields :=
  let this := set_currentDirection None this in
  set_possibleDirections
    (filter (λ dir, Some dir ≠ currentDirection this) (possibleDirections this))
    this.

Definition resetDirections (this : AIFields) : AIFields :=
  set_currentDirection None
    (set_possibleDirections [up; right; down; left] this).

Definition resetHunt (this : AIFields) : AIFields :=
  resetDirections (set_lastHit None this).

(** [#updatePossibleShipSizes]: the sizes of the sunk ships of
    [getCPUShips()] are deleted from the set. *)
Definition updatePossibleShipSizes (this : AIFields) : M AIFields :=
  arr ← getCPUShips;
  w ← get;
  let sunkShips :=
    omap (λ s, match shipAt w s with
               | Some sh => if Ship.isSunk sh then Some sh else None
               | None => None
               end)
         (arrayAt w arr) in
  ret (set_possibleShipSizes
          (foldl (λ sizes sh, filter (λ n, n ≠ Ship.size sh) sizes)
                 (possibleShipSizes this) sunkShips)
          this).

Definition updateState (this : AIFields) (guess : Coord) (result : string)
  : M AIFields :=
  if decide (result = "hit") then
    let this := set_lastHit (Some guess) this in
    this ← updatePossibleShipSizes this;
    ret (match currentDirection this with
          | None => resetDirections this
          | Some _ => this
          end)
  else
    ret (match currentDirection this with
          | Some _ => switchDirection this
          | None => this
          end).

(** [#getGuessInDirection]; the direction is [None] for [null], where the
    switch takes its default branch. *)
Definition getGuessInDirection (this : AIFields) (direction : option Direction)
  : M (option Coord) :=
  match lastHit this with
  | None => throw TypeError
  | Some h =>
      match direction with
      | Some up => g ← newCoord (row h - 1) (col h); ret (Some g)
      | Some right => g ← newCoord (row h) (col h + 1); ret (Some g)
      | Some down => g ← newCoord (row h + 1) (col h); ret (Some g)
      | Some left => g ← newCoord (row h) (col h - 1); ret (Some g)
      | None => ret None
      end
  end.

Definition getNextGuessInDirection (this : AIFields) : M (option Coord) :=
  getGuessInDirection this (currentDirection this).

Definition isValidGuess (guess : option Coord) : M bool :=
  match guess with
  | None => ret false
  | Some g =>
      w ← get;
      ret ((0 <=? row g) && (row g <? GameConfig.BOARD_SIZE) &&
            (0 <=? col g) && (col g <? GameConfig.BOARD_SIZE) &&
            negb (isCellGuessed (game w) g))
  end.

(** [#getAvailableCells]: both loops run over 0 .. BOARD_SIZE - 1, and
    every iteration creates its object. *)
Definition getAvailableCells : M (list Coord) :=
  foldM (λ cells row,
    foldM (λ cells col,
      guess ← newCoord row col;
      w ← get;
      ret (if isCellGuessed (game w) guess then cells else cells ++ [guess]))
      (seqZ 0 GameConfig.BOARD_SIZE) cells)
    (seqZ 0 GameConfig.BOARD_SIZE) [].

Section Random.
Context (rand : nat → nat).

(** [availableCells[randomIndex]] is [undefined] when there is no cell. *)
Definition getRandomGuess : M (option Coord) :=
  availableCells ← getAvailableCells;
  randomIndex ← randomBelow rand (length availableCells);
  ret (availableCells !! randomIndex).

(** The [for ... of] loop of [#getHuntGuess]: the first direction whose
    neighbour is a valid guess. *)
Fixpoint tryDirections (this : AIFields) (dirs : list Direction)
  : M (option (Direction * option Coord)) :=
  match dirs with
  | [] => ret None
  | direction :: dirs' =>
      guess ← getGuessInDirection this (Some direction);
      valid ← isValidGuess guess;
      if valid then ret (Some (direction, guess))
      else tryDirections this dirs'
  end.

Definition searchDirections (this : AIFields) : M (AIFields * option Coord) :=
  found ← tryDirections this (possibleDirections this);
  match found with
  | Some (direction, guess) =>
      ret (set_currentDirection (Some direction) this, guess)
  | None =>
      let this := resetHunt this in
      guess ← getRandomGuess;
      ret (this, guess)
  end.

Definition getHuntGuess (this : AIFields) : M (AIFields * option Coord) :=
  match lastHit this with
  | None => guess ← getRandomGuess; ret (this, guess)
  | Some _ =>
      match currentDirection this with
      | Some _ =>
          nextGuess ← getNextGuessInDirection this;
          valid ← isValidGuess nextGuess;
          if valid then ret (this, nextGuess)
          else searchDirections (switchDirection this)
      | None => searchDirections this
      end
  end.

Definition makeGuess (this : AIFields) : M (AIFields * option Coord) :=
  match lastHit this with
  | Some _ => getHuntGuess this
  | None => guess ← getRandomGuess; ret (this, guess)
  end.
End Random.
End GameAI.

(** ** GameState (models/GameState.js) *)

(** What a caller can pass as a guess: [null] or [undefined], or an object
    whose [row] and [col] are numbers or not.  A value that is no object
    has no numeric [row], like [JObject _ JOther JOther].  Numbers are the
    integers; an object with a NaN in a field is an [AnyNumber.Object],
    below. *)
Inductive JsField := JNum (z : Z) | JOther.
Inductive JsValue := JNullish | JObject (r : nat) (row col : JsField).

Definition objectOf (c : Coord) : JsValue :=
  JObject (ref c) (JNum (row c)) (JNum (col c)).

Record GuessResult := mkResult { type : string; coordinates : Coord }.

(** The world after [new GameState()]: two empty arrays, no ship. *)
Definition newGameState : World :=
  {| ships := [];
     arrays := [[]; []];
     nextRef := 0;
     draws := 0;
     game := {| initialized := false;
                playerShips := 0;
                cpuShips := 1;
                playerGuesses := [];
                cpuGuesses := [];
                gameAI := None;
                maxPlacementAttempts := GameConfig.MAX_PLACEMENT_ATTEMPTS |} |}.

Definition isInitialized (w : World) : bool := initialized (game w).

Definition areAllShipsSunk (w : World) (fleet : nat) : bool :=
  forallb (λ s, match shipAt w s with
                | Some sh => Ship.isSunk sh
                | None => false
                end)
          (arrayAt w fleet).

Definition isGameOver (w : World) : bool :=
  if negb (initialized (game w)) then false
  else areAllShipsSunk w (playerShips (game w))
       || areAllShipsSunk w (cpuShips (game w)).

Definition findShipAtLocation (w : World) (fleet : nat) (location : Coord)
  : option nat :=
  List.find (λ s, match shipAt w s with
                  | Some sh => Ship.isAtLocation sh location
                  | None => false
                  end)
            (arrayAt w fleet).

Definition validateGameState : M unit :=
  w ← get;
  if negb (initialized (game w)) then throw NotInitialized
  else if isGameOver w then throw GameOver
  else ret tt.

(** [#validateGuess]; a guess that passes is a coordinate object. *)
Definition validateGuess (guess : JsValue) : M Coord :=
  match guess with
  | JObject r (JNum row) (JNum col) =>
      if (row <? 0) || (row >=? GameConfig.BOARD_SIZE) ||
         (col <? 0) || (col >=? GameConfig.BOARD_SIZE)
      then throw InvalidCoordinates
      else ret (mkCoord r row col)
  | _ => throw InvalidCoordinates
  end.

Definition processPlayerGuess (guess : JsValue) : M GuessResult :=
  validateGameState;;
  guess ← validateGuess guess;
  let guessKey := getGuessKey guess in
  w ← get;
  if StrSet_has (playerGuesses (game w)) guessKey then throw AlreadyGuessed
  else
    modify (with_game (λ g, set_playerGuesses (StrSet_add (playerGuesses g) guessKey) g));;
    w ← get;
    match findShipAtLocation w (cpuShips (game w)) guess with
    | Some hitShip =>
        callShip hitShip (λ sh, Ship.hit sh guess);;
        ret {| type := "hit"; coordinates := guess |}
    | None => ret {| type := "miss"; coordinates := guess |}
    end.

(** [this.#gameAI.updateState(guess, result)] *)
Definition aiUpdateState (guess : Coord) (result : string) : M unit :=
  w ← get;
  match gameAI (game w) with
  | None => throw TypeError
  | Some ai =>
      ai ← GameAI.updateState ai guess result;
      modify (with_game (set_gameAI (Some ai)))
  end.

Section Random.
Context (rand : nat → nat).

(** One activation of [processCPUGuess]: [None] stands for the tail call
    [return this.processCPUGuess()]. *)
Definition cpuTurn : M (option GuessResult) :=
  validateGameState;;
  w ← get;
  match gameAI (game w) with
  | None => throw TypeError
  | Some ai =>
      '(ai, guess) ← GameAI.makeGuess rand ai;
      modify (with_game (set_gameAI (Some ai)));;
      match guess with
      | None => throw TypeError
      | Some guess =>
          let guessKey := getGuessKey guess in
          w ← get;
          if StrSet_has (cpuGuesses (game w)) guessKey then ret None
          else
            modify (with_game (λ g, set_cpuGuesses (StrSet_add (cpuGuesses g) guessKey) g));;
            w ← get;
            match findShipAtLocation w (playerShips (game w)) guess with
            | Some hitShip =>
                callShip hitShip (λ sh, Ship.hit sh guess);;
                aiUpdateState guess "hit";;
                ret (Some {| type := "hit"; coordinates := guess |})
            | None =>
                aiUpdateState guess "miss";;
                ret (Some {| type := "miss"; coordinates := guess |})
            end
      end
  end.

(** [processCPUGuess] calls itself with no bound; [fuel] bounds the number
    of activations and [None] says that it was not enough.  (An engine
    gives up a recursion that deep with a stack overflow error.) *)
Fixpoint processCPUGuess (fuel : nat) (w : World)
  : option (Outcome GuessResult * World) :=
  match fuel with
  | O => None
  | S fuel' =>
      match cpuTurn w with
      | (Ok (Some result), w') => Some (Ok result, w')
      | (Ok None, w') => processCPUGuess fuel' w'
      | (Throw e, w') => Some (Throw e, w')
      end
  end.

(** *** Placement *)

Definition getRandomLocation : M Coord :=
  row ← randomBelow rand (Z.to_nat GameConfig.BOARD_SIZE);
  col ← randomBelow rand (Z.to_nat GameConfig.BOARD_SIZE);
  newCoord (Z.of_nat row) (Z.of_nat col).

(** [directions[i]], [undefined] out of the array. *)
Definition getRandomDirection : M (option Direction) :=
  let directions := [up; right; down; left] in
  i ← randomBelow rand (length directions);
  ret (directions !! i).

(** The loop of [#getShipLocations] with [n] iterations to go; a
    direction that is none of the four moves nothing. *)
Fixpoint shipLocationsFrom (row col : Z) (direction : option Direction) (n : nat)
  : M (list Coord) :=
  match n with
  | O => ret []
  | S n' =>
      loc ← newCoord row col;
      rest ← (match direction with
              | Some up => shipLocationsFrom (row - 1) col direction n'
              | Some right => shipLocationsFrom row (col + 1) direction n'
              | Some down => shipLocationsFrom (row + 1) col direction n'
              | Some left => shipLocationsFrom row (col - 1) direction n'
              | None => shipLocationsFrom row col direction n'
              end);
      ret (loc :: rest)
  end.

Definition getShipLocations (location : Coord) (direction : option Direction)
  (size : Z) : M (list Coord) :=
  shipLocationsFrom (row location) (col location) direction (Z.to_nat size).

Definition areLocationsValid (locations : list Coord) : bool :=
  forallb (λ loc, (0 <=? row loc) && (row loc <? GameConfig.BOARD_SIZE) &&
                  (0 <=? col loc) && (col loc <? GameConfig.BOARD_SIZE))
          locations.

Definition doLocationsOverlap (w : World) (locations : list Coord) (fleet : nat)
  : bool :=
  existsb (λ s, match shipAt w s with
                | Some sh => existsb (λ loc, Ship.isAtLocation sh loc) locations
                | None => false
                end)
          (arrayAt w fleet).

Definition placeShip (ship : nat) (location : Coord)
  (direction : option Direction) (fleet : nat) : M unit :=
  w ← get;
  match shipAt w ship with
  | None => throw TypeError
  | Some sh =>
      locations ← getShipLocations location direction (Ship.size sh);
      if negb (areLocationsValid locations) then throw InvalidShipPlacement
      else
        w ← get;
        if doLocationsOverlap w locations fleet then throw InvalidShipPlacement
        else foldM (λ _ loc, callShip ship (λ sh, Ship.addLocation sh loc))
                   locations tt
  end.

(** The body of the [try] block. *)
Definition tryPlaceShip (size : Z) (fleet : nat) : M unit :=
  ship ← newShip size;
  location ← getRandomLocation;
  direction ← getRandomDirection;
  placeShip ship location direction fleet;;
  pushArray fleet ship.

(** The [while (!placed && attempts < max)] loop with [attemptsLeft]
    attempts to go; whatever the body throws is caught and counted. *)
Fixpoint placeAttempts (size : Z) (fleet : nat) (attemptsLeft : nat) : M bool :=
  λ w, match attemptsLeft with
       | O => (Ok false, w)
       | S n =>
           match tryPlaceShip size fleet w with
           | (Ok _, w') => (Ok true, w')
           | (Throw _, w') => placeAttempts size fleet n w'
           end
       end.

(** [#placeShipsForPlayer] and [#placeShipsForCPU] are the same two loops
    over the manifest, on their own fleet and with their own message. *)
Definition placeFleet (fleet : nat) (failure : Error) : M unit :=
  foldM (λ _ entry,
    foldM (λ _ _,
      w ← get;
      placed ← placeAttempts (GameConfig.entry_size entry) fleet
                             (maxPlacementAttempts (game w));
      if placed then ret tt else throw failure)
      (seq 0 (GameConfig.entry_count entry)) tt)
    GameConfig.SHIPS tt.

Definition placeShipsForPlayer : M unit :=
  w ← get; placeFleet (playerShips (game w)) PlacementExhausted.

Definition placeShipsForCPU : M unit :=
  w ← get; placeFleet (cpuShips (game w)) PlacementExhaustedCPU.

Definition placeShips : M unit :=
  placeShipsForPlayer;; placeShipsForCPU.

Definition initialize : M unit :=
  w ← get;
  if initialized (game w) then throw AlreadyInitialized
  else
    placeShips;;
    modify (with_game (set_gameAI (Some GameAI.new)));;
    modify (with_game (set_initialized true)).
End Random.

(** ** A guess with a NaN (models/GameState.js, models/Ship.js)

    A field of an object of the caller that holds a number holds an
    integer, as in the definitions above, or NaN, and every comparison
    with NaN is false.  [#validateGuess] throws when a field is below 0 or
    not below the size of the board; [Ship.#isValidLocation] accepts when
    every field is at least 0 and below the size of the board.  The
    definitions of this module are the methods a guess goes through in
    [processPlayerGuess], for an object with two such fields; on integer
    fields they are the definitions above. *)

Module AnyNumber.
Inductive Number := Int (z : Z) | NaN.

(** [a < b], [a >= b] and [`${a}`], for an integer [b]. *)
Definition lt (a : Number) (b : Z) : bool :=
  match a with Int z => z <? b | NaN => false end.
Definition ge (a : Number) (b : Z) : bool :=
  match a with Int z => z >=? b | NaN => false end.
Definition toString (a : Number) : string :=
  match a with Int z => pretty z | NaN => "NaN" end.

(** An object [{row, col}] with its identity. *)
Record Object := mkObject { objRef : nat; objRow : Number; objCol : Number }.

(** A coordinate object is an object with integer fields. *)
Definition ofCoord (c : Coord) : Object :=
  mkObject (ref c) (Int (row c)) (Int (col c)).

Definition coordOf (o : Object) : option Coord :=
  match objRow o, objCol o with
  | Int a, Int b => Some (mkCoord (objRef o) a b)
  | _, _ => None
  end.

(** [Ship.#isValidLocation]; the location is an object and its fields are
    numbers, so the four comparisons remain. *)
Definition isValidLocation (location : Object) : bool :=
  ge (objRow location) 0 && lt (objRow location) GameConfig.BOARD_SIZE &&
  ge (objCol location) 0 && lt (objCol location) GameConfig.BOARD_SIZE.

(** [Ship.isAtLocation]: [Set.has], by identity. *)
Definition isAtLocation (this : Ship.t) (location : Object) : bool :=
  bool_decide (objRef location ∈ ref <$> Ship.locations this).

(** [Ship.hit].  A location that [#isValidLocation] accepts has integer
    fields and is added to the hits as the coordinate object it is. *)
Definition hit (this : Ship.t) (location : Object) : Outcome Ship.t :=
  if negb (isValidLocation location) then Throw InvalidCoordinates
  else if negb (isAtLocation this location) then Throw NotPartOfShip
  else if Ship.isSunk this then Throw AlreadySunk
  else match coordOf location with
       | Some c => Ok {| Ship.size := Ship.size this;
                         Ship.locations := Ship.locations this;
                         Ship.hits := ObjSet_add (Ship.hits this) c |}
       | None => Throw InvalidCoordinates
       end.

(** [#getGuessKey] *)
Definition getGuessKey (guess : Object) : string :=
  toString (objRow guess) +:+ "," +:+ toString (objCol guess).

(** [#findShipAtLocation] *)
Definition findShipAtLocation (w : World) (fleet : nat) (location : Object)
  : option nat :=
  List.find (λ s, match shipAt w s with
                  | Some sh => isAtLocation sh location
                  | None => false
                  end)
            (arrayAt w fleet).

(** [#validateGuess]; the guess is an object and its fields are numbers,
    so the first test does not throw. *)
Definition validateGuess (guess : Object) : M unit :=
  if lt (objRow guess) 0 || ge (objRow guess) GameConfig.BOARD_SIZE ||
     lt (objCol guess) 0 || ge (objCol guess) GameConfig.BOARD_SIZE
  then throw InvalidCoordinates
  else ret tt.

(** The result [{ type, coordinates }]. *)
Record Result := mkResult { type : string; coordinates : Object }.

(** [processPlayerGuess] *)
Definition processPlayerGuess (guess : Object) : M Result :=
  validateGameState;;
  validateGuess guess;;
  let guessKey := getGuessKey guess in
  w ← get;
  if StrSet_has (playerGuesses (game w)) guessKey then throw AlreadyGuessed
  else
    modify (with_game (λ g, set_playerGuesses (StrSet_add (playerGuesses g) guessKey) g));;
    w ← get;
    match findShipAtLocation w (cpuShips (game w)) guess with
    | Some hitShip =>
        callShip hitShip (λ sh, hit sh guess);;
        ret {| type := "hit"; coordinates := guess |}
    | None => ret {| type := "miss"; coordinates := guess |}
    end.
End AnyNumber.

(** A result whose coordinates are a coordinate object. *)
Definition resultOfNumbers (result : GuessResult) : AnyNumber.Result :=
  AnyNumber.mkResult (type result) (AnyNumber.ofCoord (coordinates result)).

(** ** GameView (views/GameView.js): reading and printing a guess

    Strings are ASCII strings, as the game prompts for them and prints
    them.  Of the characters that [trim] removes, the ASCII ones are the
    tab, the line feed, the vertical tab, the form feed, the carriage
    return and the space; on ASCII strings [toUpperCase] maps a-z to
    A-Z and leaves the rest. *)

Module GameView.
Definition isWhiteSpace (c : ascii) : bool :=
  let n := nat_of_ascii c in
  ((9 <=? n) && (n <=? 13) || (n =? 32))%nat.

Fixpoint trimStart (s : string) : string :=
  match s with
  | String c s' => if isWhiteSpace c then trimStart s' else s
  | EmptyString => EmptyString
  end.

Fixpoint trimEnd (s : string) : string :=
  match s with
  | String c s' =>
      match trimEnd s' with
      | EmptyString => if isWhiteSpace c then EmptyString else String c EmptyString
      | t => String c t
      end
  | EmptyString => EmptyString
  end.

Definition trim (s : string) : string := trimEnd (trimStart s).

Definition upperCase (c : ascii) : ascii :=
  let n := nat_of_ascii c in
  if ((97 <=? n) && (n <=? 122))%nat then ascii_of_nat (n - 32) else c.

Fixpoint toUpperCase (s : string) : string :=
  match s with
  | String c s' => String (upperCase c) (toUpperCase s')
  | EmptyString => EmptyString
  end.

(** [#parseGuess]: the whole of the trimmed, upper-cased input has to match
    [/^([A-J])([0-9])$/]; the guess is a new object. *)
Definition parseGuess (input : string) : M (option Coord) :=
  match toUpperCase (trim input) with
  | String col (String row EmptyString) =>
      if ((65 <=? nat_of_ascii col) && (nat_of_ascii col <=? 74) &&
          (48 <=? nat_of_ascii row) && (nat_of_ascii row <=? 57))%nat
      then
        guess ← newCoord (Z.of_nat (nat_of_ascii row) - 48)
                         (Z.of_nat (nat_of_ascii col) - 65);
        ret (Some guess)
      else ret None
  | _ => ret None
  end.

(** [#formatCoordinates]; [String.fromCharCode] for the codes of ASCII. *)
Definition formatCoordinates (coordinates : Coord) : string :=
  String (ascii_of_nat (Z.to_nat (65 + col coordinates)))
         (pretty (row coordinates)).
End GameView.

(** ** GameController (controllers/GameController.js)

    The player is the list of the lines they will type; a line is read by
    [getPlayerGuess] and by [waitForEnter].  What the view prints is left
    out, but for the winner that [#showGameResult] announces. *)

Module GameController.
(** [#showGameResult]: the argument of [showGameOver], when it is called. *)
Definition showGameResult : M (option string) :=
  playerShips ← getPlayerShips;
  cpuShips ← getCPUShips;
  w ← get;
  let playerSunk := areAllShipsSunk w playerShips in
  let cpuSunk := areAllShipsSunk w cpuShips in
  if playerSunk then ret (Some "cpu")
  else if cpuSunk then ret (Some "player")
  else ret None.

(** [#processPlayerTurn]: [getPlayerGuess] asks again until a line parses,
    and the turn starts again when [processPlayerGuess] throws.  It returns
    the result and the lines that are left, and [None] once the lines have
    run out. *)
Fixpoint processPlayerTurn (answers : list string)
  : M (option (GuessResult * list string)) :=
  match answers with
  | [] => ret None
  | answer :: answers' =>
      guess ← GameView.parseGuess answer;
      match guess with
      | None => processPlayerTurn answers'
      | Some guess =>
          λ w, match processPlayerGuess (objectOf guess) w with
               | (Ok result, w') => (Ok (Some (result, answers')), w')
               | (Throw _, w') => processPlayerTurn answers' w'
               end
      end
  end.

(** How a run of the game ends: with the call of [#showGameResult], waiting
    for a line that does not come, with an error thrown out of the loop, or
    not within the fuel. *)
Inductive Run :=
  | Announced (winner : option string)
  | AwaitsInput
  | Failed (e : Error)
  | OutOfFuel.

Section Random.
Context (rand : nat → nat).

(** [#processCPUTurn]: what [processCPUGuess] throws is thrown on; then
    [waitForEnter] reads a line. *)
Definition processCPUTurn (fuel : nat) (answers : list string) (w : World)
  : option (Outcome (option (GuessResult * list string)) * World) :=
  match processCPUGuess rand fuel w with
  | Some (Ok result, w') =>
      Some (Ok match answers with
               | [] => None
               | _ :: answers' => Some (result, answers')
               end, w')
  | Some (Throw e, w') => Some (Throw e, w')
  | None => None
  end.

(** The end of [#gameLoop]: the call of [#showGameResult]. *)
Definition announce (w : World) : Run * World :=
  match showGameResult w with
  | (Ok winner, w') => (Announced winner, w')
  | (Throw e, w') => (Failed e, w')
  end.

(** [#gameLoop], with [fuel] rounds to go; the fuel left is also that of
    [processCPUGuess]. *)
Fixpoint gameLoop (fuel : nat) (answers : list string) (w : World) : Run * World :=
  match fuel with
  | O => (OutOfFuel, w)
  | S fuel' =>
      if isGameOver w then announce w
      else
        match processPlayerTurn answers w with
        | (Ok (Some (_, answers)), w) =>
            if isGameOver w then announce w
            else
              match processCPUTurn fuel' answers w with
              | Some (Ok (Some (_, answers)), w) => gameLoop fuel' answers w
              | Some (Ok None, w) => (AwaitsInput, w)
              | Some (Throw e, w) => (Failed e, w)
              | None => (OutOfFuel, w)
              end
        | (Ok None, w) => (AwaitsInput, w)
        | (Throw e, w) => (Failed e, w)
        end
  end.

(** [new GameController().start()]: the game is a new [GameState]. *)
Definition start (fuel : nat) (answers : list string) : Run * World :=
  match initialize rand newGameState with
  | (Ok _, w) => gameLoop fuel answers w
  | (Throw e, w) => (Failed e, w)
  end.
End Random.
End GameController.

(** ** The games the properties are about *)

(** Both fleet fields refer to arrays that exist, and to two of them. *)
Definition fleetsAllocated (w : World) : Prop :=
  (playerShips (game w) < length (arrays w))%nat ∧
  (cpuShips (game w) < length (arrays w))%nat ∧
  playerShips (game w) ≠ cpuShips (game w).

(** A ship as placement and play leave it, for the guess set of the side
    that attacks it: as many location objects as its size, and every hit
    is one of its location objects, hit through a recorded guess. *)
Definition shipConsistent (guesses : StrSet) (sh : Ship.t) : Prop :=
  NoDup (ref <$> Ship.locations sh) ∧
  Z.of_nat (length (Ship.locations sh)) = Ship.size sh ∧
  NoDup (ref <$> Ship.hits sh) ∧
  (∀ h, h ∈ Ship.hits sh → h ∈ Ship.locations sh ∧ getGuessKey h ∈ guesses).

Definition fleetConsistent (w : World) (fleet : nat) (guesses : StrSet) : Prop :=
  ∀ s, s ∈ arrayAt w fleet →
    ∃ sh, shipAt w s = Some sh ∧ shipConsistent guesses sh.

(** The games that the calls of the interface produce: the fleets are two
    arrays of references to ships that exist, no ship is in both, and the
    ships the player attacks are consistent with the player's guesses. *)
Definition wellFormed (w : World) : Prop :=
  fleetsAllocated w ∧
  fleetConsistent w (cpuShips (game w)) (playerGuesses (game w)) ∧
  (∀ s, s ∈ arrayAt w (playerShips (game w)) →
        is_Some (shipAt w s) ∧ s ∉ arrayAt w (cpuShips (game w))).

(** [frames R m]: whatever [m] returns or throws, the world it ends in is
    related by [R] to the world it started in. *)
Definition frames {A} (R : World → World → Prop) (m : M A) : Prop :=
  ∀ w, R w (m w).2.

(** What no call takes back: the initialization and the player's guesses. *)
Definition gameGrows (w w' : World) : Prop :=
  (initialized (game w) = true → initialized (game w') = true) ∧
  playerGuesses (game w) ⊆ playerGuesses (game w').

(** What the AI leaves alone: the ships, the arrays that exist, and the
    fields of the game. *)
Definition sameGame (w w' : World) : Prop :=
  ships w' = ships w ∧ arrays w `prefix_of` arrays w' ∧ game w' = game w.

(** An object has one identity: a value whose reference is that of a
    coordinate object of some ship is that object, with its fields. *)
Definition respectsIdentity (w : World) (v : JsValue) : Prop :=
  ∀ r a b s sh l,
    v = JObject r a b →
    shipAt w s = Some sh → l ∈ Ship.locations sh → ref l = r →
    v = objectOf l.

(** The calls of the public interface of [GameState]. *)
Inductive apiStep (rand : nat → nat) : World → World → Prop :=
  | step_initialize w o w' :
      initialize rand w = (o, w') → apiStep rand w w'
  | step_processPlayerGuess guess w o w' :
      respectsIdentity w guess →
      processPlayerGuess guess w = (o, w') → apiStep rand w w'
  | step_processCPUGuess fuel w o w' :
      processCPUGuess rand fuel w = Some (o, w') → apiStep rand w w'
  | step_getPlayerShips w a w' :
      getPlayerShips w = (Ok a, w') → apiStep rand w w'
  | step_getCPUShips w a w' :
      getCPUShips w = (Ok a, w') → apiStep rand w w'.

(** The first of the four checks of [processPlayerGuess] that fails, in the
    order the specification gives them. *)
Definition specifiedError (w : World) (guess : JsValue) : option Error :=
  if negb (initialized (game w)) then Some NotInitialized
  else if isGameOver w then Some GameOver
  else match guess with
       | JObject r (JNum row) (JNum col) =>
           if negb (inBounds row col) then Some InvalidCoordinates
           else if bool_decide (getGuessKey (mkCoord r row col) ∈ playerGuesses (game w))
                then Some AlreadyGuessed
                else None
       | _ => Some InvalidCoordinates
       end.

(** What a caller can do with an array it holds ([push], [pop], [splice],
    an assignment to an index): the content becomes [f] of the content. *)
Definition mutateArray (a : nat) (f : list nat → list nat) : M unit :=
  modify (λ w, with_arrays (λ l, <[a := f (arrayAt w a)]> l) w).

(** The world once the guess is recorded. *)
Definition recordPlayerGuess (guess : Coord) (w : World) : World :=
  with_game (λ g, set_playerGuesses
                    (StrSet_add (playerGuesses g) (getGuessKey guess)) g) w.

(** Only the ship [s] may differ, and what no fleet reads. *)
Definition onlyShip (s : nat) (w w' : World) : Prop :=
  game w' = game w ∧ arrays w' = arrays w ∧
  length (ships w') = length (ships w) ∧
  ∀ s', s' ≠ s → ships w' !! s' = ships w !! s'.

(** [respectsIdentity], computed: only the location objects of the ships
    in the store have to be compared. *)
Global Instance JsField_eq_dec : EqDecision JsField.
Proof. solve_decision. Defined.
Global Instance JsValue_eq_dec : EqDecision JsValue.
Proof. solve_decision. Defined.

Definition respectsIdentityb (w : World) (v : JsValue) : bool :=
  match v with
  | JNullish => true
  | JObject r _ _ =>
      forallb (λ sh, forallb (λ l, if decide (ref l = r)
                                   then bool_decide (v = objectOf l)
                                   else true)
                             (Ship.locations sh))
              (ships w)
  end.

(** The games reached from [new GameState()] by calls of the interface. *)
Definition reachable (rand : nat → nat) (w : World) : Prop :=
  rtc (apiStep rand) newGameState w.

(** *** Concrete games *)

(** An oracle that puts every ship at (0,0), heading right. *)
Definition stackedOracle (k : nat) : nat :=
  match (k mod 3)%nat with
  | 2%nat => 1%nat
  | _ => 0%nat
  end.

(** An oracle that puts the ships of a fleet on rows 0, 1 and 2, from
    column 0 and heading right, and then answers 0. *)
Definition rowsOracle (k : nat) : nat :=
  if (k <? 18)%nat then
    match (k mod 3)%nat with
    | 0%nat => ((k / 3) mod 3)%nat
    | 1%nat => 0%nat
    | _ => 1%nat
    end
  else 0%nat.

(** Consecutive calls of [processPlayerGuess]; the world after the last. *)
Fixpoint playerGuessesAll (guesses : list JsValue) (w : World) : World :=
  match guesses with
  | [] => w
  | g :: guesses' => playerGuessesAll guesses' (processPlayerGuess g w).2
  end.

(** The cells of the board as objects of the caller, with references from
    [r] on. *)
Definition boardObjects (r : nat) : list JsValue :=
  imap (λ i rc, JObject (r + i) (JNum rc.1) (JNum rc.2))
       (row ← seqZ 0 GameConfig.BOARD_SIZE;
        (λ col, (row, col)) <$> seqZ 0 GameConfig.BOARD_SIZE)%stdpp.

(** The calls stay within [respectsIdentity], checked along the run. *)
Fixpoint respectAll (guesses : list JsValue) (w : World) : bool :=
  match guesses with
  | [] => true
  | g :: guesses' =>
      respectsIdentityb w g && respectAll guesses' (processPlayerGuess g w).2
  end.

(** The game after [initialize()] under [rowsOracle]: the ships of each
    fleet lie on (0,0)-(0,2), (1,0)-(1,2) and (2,0)-(2,2); the location
    objects of the CPU's ships have the references 13-15, 17-19, 21-23. *)
Definition initialGame : World := (initialize rowsOracle newGameState).2.

(** The player has guessed every cell but (0,0), with objects of their
    own: 99 misses. *)
Definition lastCellGame : World :=
  playerGuessesAll (drop 1 (boardObjects 1000)) initialGame.

(** The player has guessed every cell of the board. *)
Definition fullBoardGame : World :=
  playerGuessesAll (boardObjects 1000) initialGame.

(** The player has hit every location object of the CPU's ships but the
    last one, (2,2). *)
Definition lastShipGame : World :=
  playerGuessesAll
    (objectOf <$> [mkCoord 13 0 0; mkCoord 14 0 1; mkCoord 15 0 2;
                   mkCoord 17 1 0; mkCoord 18 1 1; mkCoord 19 1 2;
                   mkCoord 21 2 0; mkCoord 22 2 1])
    initialGame.

(** [lastCellGame] after one call of [processCPUGuess], which guesses
    (0,0), with [k] calls of [Math.random] and [m] coordinate objects so
    far. *)
Definition stuckGame (k m : nat) : World :=
  match processCPUGuess rowsOracle 1 lastCellGame with
  | Some (_, w) => mkWorld (ships w) (arrays w) m k (game w)
  | None => lastCellGame
  end.

(** [initialGame] after one call of [processCPUGuess]. *)
Definition afterCpuGuess : World :=
  match processCPUGuess rowsOracle 1 initialGame with
  | Some (_, w) => w
  | None => initialGame
  end.

(** [const ship = gameState.getCPUShips()[0]; locs.forEach(loc =>
    ship.hit(loc))], as a caller of the getter can write it. *)
Definition hitThroughGetter (locs : list Coord) (w : World) : World :=
  match getCPUShips w with
  | (Ok a, w1) =>
      match arrayAt w1 a with
      | s :: _ => (callShip s (λ sh, Ship.hitAll sh locs) w1).2
      | [] => w1
      end
  | (Throw _, w1) => w1
  end.

(** [initialGame] after the first ship of the CPU was sunk through the
    getter; no guess is recorded. *)
Definition sunkThroughGetter : World :=
  hitThroughGetter [mkCoord 13 0 0; mkCoord 14 0 1; mkCoord 15 0 2] initialGame.

(** What the getters give: a new array with the references of the fleet.
    Whatever is done to the array leaves the fleets, the ships and the
    fields of the game as they were; a method called through one of its
    elements is called on the ship the fleet holds. *)
Definition copiesArrayOnly (getter : M nat) (fleet : nat) (w : World) : Prop :=
  ∃ a w1,
    getter w = (Ok a, w1) ∧
    a ≠ playerShips (game w) ∧ a ≠ cpuShips (game w) ∧
    arrayAt w1 a = arrayAt w fleet ∧
    ships w1 = ships w ∧ game w1 = game w ∧
    (∀ f : list nat → list nat,
       let w2 := (mutateArray a f w1).2 in
       arrayAt w2 (playerShips (game w2)) = arrayAt w (playerShips (game w)) ∧
       arrayAt w2 (cpuShips (game w2)) = arrayAt w (cpuShips (game w)) ∧
       ships w2 = ships w ∧ game w2 = game w) ∧
    (∀ s method sh sh',
       s ∈ arrayAt w1 a → shipAt w s = Some sh → method sh = Ok sh' →
       let w2 := (callShip s method w1).2 in
       s ∈ arrayAt w2 fleet ∧ shipAt w2 s = Some sh').

(** [initialGame] after the player has hit the three location objects of
    the CPU's first ship, which is sunk; two ships of the CPU are left. *)
Definition firstShipSunkGame : World :=
  playerGuessesAll
    (objectOf <$> [mkCoord 13 0 0; mkCoord 14 0 1; mkCoord 15 0 2])
    initialGame.

(** The location object 13 of the CPU's first ship, at (0,0), as a caller
    holds it through [getCPUShips()[0].getLocations()], after the caller
    has written NaN to its [row]. *)
Definition nanLocation : AnyNumber.Object :=
  AnyNumber.mkObject 13 AnyNumber.NaN (AnyNumber.Int 0).

(** An object of the caller's own, [{ row: NaN, col: 0 }]. *)
Definition nanGuess : AnyNumber.Object :=
  AnyNumber.mkObject 1000 AnyNumber.NaN (AnyNumber.Int 0).

(** ** What the further properties are about *)

(** *** Calls on a ship *)

(** A call of one of the two methods of [Ship] that change it. *)
Inductive ShipCall := CallAddLocation (l : Coord) | CallHit (l : Coord).

(** The ship after a call; a call that throws leaves it as it was. *)
Definition shipCall (this : Ship.t) (c : ShipCall) : Ship.t :=
  match (match c with
         | CallAddLocation l => Ship.addLocation this l
         | CallHit l => Ship.hit this l
         end) with
  | Ok this' => this'
  | Throw _ => this
  end.

Definition shipCalls (this : Ship.t) (calls : list ShipCall) : Ship.t :=
  foldl shipCall this calls.

(** What every call keeps: the two sets hold an object once, the hits are
    among the locations, the locations are on the board, and the hits are
    no more than the size. *)
Definition shipInvariant (sh : Ship.t) : Prop :=
  NoDup (ref <$> Ship.locations sh) ∧
  NoDup (ref <$> Ship.hits sh) ∧
  (∀ r, r ∈ ref <$> Ship.hits sh → r ∈ ref <$> Ship.locations sh) ∧
  (∀ l, l ∈ Ship.locations sh → inBounds (row l) (col l) = true) ∧
  Z.of_nat (length (Ship.hits sh)) ≤ Ship.size sh.

(** *** Cells and lines *)

(** The cell of a coordinate object. *)
Definition cellOf (l : Coord) : Z * Z := (row l, col l).

(** The cell next to [rc] in a direction. *)
Definition neighbour (rc : Z * Z) (d : Direction) : Z * Z :=
  match d with
  | up => (rc.1 - 1, rc.2)
  | right => (rc.1, rc.2 + 1)
  | down => (rc.1 + 1, rc.2)
  | left => (rc.1, rc.2 - 1)
  end.

(** [n] cells in a row, from [rc] on in the direction [d]. *)
Fixpoint lineCells (rc : Z * Z) (d : Direction) (n : nat) : list (Z * Z) :=
  match n with
  | O => []
  | S n' => rc :: lineCells (neighbour rc d) d n'
  end.

Definition onBoard (cells : list (Z * Z)) : Prop :=
  Forall (λ rc, inBounds rc.1 rc.2 = true) cells.

(** A ship as [#placeShip] leaves it: of a size the constructor accepts,
    on as many cells as its size, in a straight line on the board. *)
Definition placed (sh : Ship.t) : Prop :=
  1 ≤ Ship.size sh ≤ 4 ∧
  ∃ rc d,
    cellOf <$> Ship.locations sh = lineCells rc d (Z.to_nat (Ship.size sh)) ∧
    onBoard (lineCells rc d (Z.to_nat (Ship.size sh))).

(** The sizes of a fleet, as the manifest lists them. *)
Definition manifest : list Z :=
  flat_map (λ e, replicate (GameConfig.entry_count e) (GameConfig.entry_size e))
           GameConfig.SHIPS.

(** The line an attempt of placement draws: the cells from the random
    location on, in the random direction. *)
Definition drawnLine (rand : nat → nat) (size : Z) (w : World) : list (Z * Z) :=
  match getRandomLocation rand w with
  | (Ok location, w1) =>
      match getRandomDirection rand w1 with
      | (Ok (Some d), _) => lineCells (cellOf location) d (Z.to_nat size)
      | _ => []
      end
  | _ => []
  end.

(** An oracle that draws (0,0) and the direction up, every time. *)
Definition offBoardOracle (k : nat) : nat := 0%nat.

(** *** Settled games *)

(** Every location object of a ship is older than the next object. *)
Definition refsBelow (w : World) : Prop :=
  ∀ sh l, sh ∈ ships w → l ∈ Ship.locations sh → (ref l < nextRef w)%nat.

Definition fleetPlaced (w : World) (fleet : nat) : Prop :=
  ∀ s sh, s ∈ arrayAt w fleet → shipAt w s = Some sh → placed sh.

Definition fleetUnhit (w : World) (fleet : nat) : Prop :=
  ∀ s sh, s ∈ arrayAt w fleet → shipAt w s = Some sh → Ship.hits sh = [].

(** What placement and play keep, beyond [wellFormed]: the location
    objects of the ships are older than the next object; the ships of the
    fleets are placed; no ship of the player's fleet has a hit; the AI,
    which an initialized game has, is as its constructor left it; an
    initialized game has ships in both fleets. *)
Definition settled (w : World) : Prop :=
  wellFormed w ∧
  refsBelow w ∧
  fleetPlaced w (playerShips (game w)) ∧
  fleetPlaced w (cpuShips (game w)) ∧
  fleetUnhit w (playerShips (game w)) ∧
  gameAI (game w) = (if initialized (game w) then Some GameAI.new else None) ∧
  (initialized (game w) = true →
     arrayAt w (playerShips (game w)) ≠ [] ∧ arrayAt w (cpuShips (game w)) ≠ []).

(** [w'] is [w] with more ships in one fleet: the ships that were there
    are as they were, the other arrays too, and the fleet has a placed
    ship without a hit for each of [sizes], in this order. *)
Definition fleetGrown (fleet : nat) (sizes : list Z) (w w' : World) : Prop :=
  game w' = game w ∧
  (length (ships w) ≤ length (ships w'))%nat ∧
  (∀ s, (s < length (ships w))%nat → shipAt w' s = shipAt w s) ∧
  (∀ a, a ≠ fleet → arrayAt w' a = arrayAt w a) ∧
  ∃ news,
    arrayAt w' fleet = arrayAt w fleet ++ news ∧
    Forall2 (λ s size, ∃ sh, shipAt w' s = Some sh ∧ Ship.size sh = size ∧
                             Ship.hits sh = [] ∧ placed sh)
            news sizes.

(** A fleet of ships that are placed and have no hit, of the sizes given. *)
Definition freshFleet (w : World) (fleet : nat) (sizes : list Z) : Prop :=
  Forall2 (λ s size, ∃ sh, shipAt w s = Some sh ∧ Ship.size sh = size ∧
                           Ship.hits sh = [] ∧ placed sh)
          (arrayAt w fleet) sizes.

(** What a later game keeps of an earlier one: the initialization, the
    guesses of both sides, the ships of both fleets in their order, and of
    every ship its size, its locations and its hits. *)
Definition keeps (w w' : World) : Prop :=
  (initialized (game w) = true → initialized (game w') = true) ∧
  playerGuesses (game w) ⊆ playerGuesses (game w') ∧
  cpuGuesses (game w) ⊆ cpuGuesses (game w') ∧
  playerShips (game w') = playerShips (game w) ∧
  cpuShips (game w') = cpuShips (game w) ∧
  arrayAt w (playerShips (game w)) `prefix_of` arrayAt w' (playerShips (game w)) ∧
  arrayAt w (cpuShips (game w)) `prefix_of` arrayAt w' (cpuShips (game w)) ∧
  ∀ s sh, shipAt w s = Some sh →
    ∃ sh', shipAt w' s = Some sh' ∧
           Ship.size sh' = Ship.size sh ∧
           Ship.locations sh' = Ship.locations sh ∧
           Ship.hits sh ⊆ Ship.hits sh'.

(** *** The board as the AI sees it *)

(** The cells of the board, row by row. *)
Definition boardCells : list (Z * Z) :=
  (row ← seqZ 0 GameConfig.BOARD_SIZE;
   (λ col, (row, col)) <$> seqZ 0 GameConfig.BOARD_SIZE)%stdpp.

(** [isCellGuessed] reads the two fields of its argument only. *)
Definition cellGuessed (g : GameFields) (rc : Z * Z) : bool :=
  isCellGuessed g (mkCoord 0 rc.1 rc.2).

(** The cells the player has not guessed, row by row. *)
Definition unguessedCells (g : GameFields) : list (Z * Z) :=
  filter (λ rc, cellGuessed g rc = false) boardCells.

(** A cell the AI may guess: on the board, and not guessed by the player. *)
Definition validCell (g : GameFields) (rc : Z * Z) : bool :=
  inBounds rc.1 rc.2 && negb (cellGuessed g rc).

(** The directions [#getHuntGuess] probes, in its order: the current
    direction, then the possible ones. *)
Definition candidates (this : AIFields) : list Direction :=
  option_list (currentDirection this) ++ possibleDirections this.

(** What the AI does to the world when it looks for a guess: it makes
    [n] objects and draws [k] random numbers. *)
Definition allocated (n k : nat) (w : World) : World :=
  mkWorld (ships w) (arrays w) (n + nextRef w) (k + draws w) (game w).

(** *** Strings *)

Definition isASCII (s : string) : Prop :=
  Forall (λ c, (nat_of_ascii c < 128)%nat) (String.list_ascii_of_string s).

(** * Properties *)

(** ** Sets *)

Lemma ObjSet_has_true (s : ObjSet) (x : Coord) :
  ObjSet_has s x = true ↔ ref x ∈ ref <$> s.
Proof. unfold ObjSet_has. apply bool_decide_eq_true. Qed.

Lemma ObjSet_has_false (s : ObjSet) (x : Coord) :
  ObjSet_has s x = false ↔ ref x ∉ ref <$> s.
Proof. unfold ObjSet_has. apply bool_decide_eq_false. Qed.

Lemma ObjSet_add_new (s : ObjSet) (x : Coord) :
  ref x ∉ ref <$> s → ObjSet_add s x = s ++ [x].
Proof.
  intros H. unfold ObjSet_add.
  apply ObjSet_has_false in H. by rewrite H.
Qed.

Lemma ObjSet_add_old (s : ObjSet) (x : Coord) :
  ref x ∈ ref <$> s → ObjSet_add s x = s.
Proof.
  intros H. unfold ObjSet_add.
  apply ObjSet_has_true in H. by rewrite H.
Qed.

Lemma ObjSet_add_NoDup (s : ObjSet) (x : Coord) :
  NoDup (ref <$> s) → NoDup (ref <$> ObjSet_add s x).
Proof.
  intros Hs. destruct (decide (ref x ∈ ref <$> s)) as [Hin|Hin].
  - by rewrite ObjSet_add_old.
  - rewrite ObjSet_add_new by done. rewrite fmap_app. simpl.
    apply NoDup_app. split_and!; [done| |apply NoDup_singleton].
    intros r Hr Hr'. apply list_elem_of_singleton in Hr'. by subst.
Qed.

Lemma StrSet_has_true (s : StrSet) (k : string) :
  StrSet_has s k = true ↔ k ∈ s.
Proof. unfold StrSet_has. apply bool_decide_eq_true. Qed.

Lemma StrSet_has_false (s : StrSet) (k : string) :
  StrSet_has s k = false ↔ k ∉ s.
Proof. unfold StrSet_has. apply bool_decide_eq_false. Qed.

Lemma StrSet_add_has (s : StrSet) (k : string) : k ∈ StrSet_add s k.
Proof.
  unfold StrSet_add. destruct (StrSet_has s k) eqn:E.
  - by apply StrSet_has_true.
  - apply elem_of_app. right. by apply list_elem_of_singleton.
Qed.

Lemma StrSet_add_mono (s : StrSet) (k k' : string) : k' ∈ s → k' ∈ StrSet_add s k.
Proof.
  intros H. unfold StrSet_add. destruct (StrSet_has s k); [done|].
  apply elem_of_app. by left.
Qed.

(** ** Ship *)

Lemma isValidLocation_inBounds (l : Coord) :
  Ship.isValidLocation l = inBounds (row l) (col l).
Proof. reflexivity. Qed.

Lemma addLocations_fresh (locs : list Coord) (sh : Ship.t) :
  NoDup (ref <$> (Ship.locations sh ++ locs)) →
  Forall (λ l, Ship.isValidLocation l = true) locs →
  Ship.addLocations sh locs =
    Ok (Ship.mk (Ship.size sh) (Ship.locations sh ++ locs) (Ship.hits sh)).
Proof.
  revert sh. induction locs as [|l locs IH]; intros sh Hnd Hv; simpl.
  - rewrite app_nil_r. by destruct sh.
  - apply Forall_cons in Hv as [Hl Hv].
    unfold Ship.addLocation. rewrite Hl. simpl.
    assert (Hfresh : ref l ∉ ref <$> Ship.locations sh).
    { rewrite fmap_app in Hnd. apply NoDup_app in Hnd as (_ & Hd & _).
      intros Hin. apply (Hd _ Hin). simpl. left. }
    rewrite ObjSet_add_new by done.
    rewrite IH; simpl.
    + by rewrite <- app_assoc.
    + by rewrite <- app_assoc.
    + done.
Qed.

Lemma hitAll_fresh (hs : list Coord) (sh : Ship.t) :
  NoDup (ref <$> (Ship.hits sh ++ hs)) →
  Forall (λ l, Ship.isValidLocation l = true) hs →
  Forall (λ l, Ship.isAtLocation sh l = true) hs →
  Z.of_nat (length (Ship.hits sh ++ hs)) ≤ Ship.size sh →
  Ship.hitAll sh hs =
    Ok (Ship.mk (Ship.size sh) (Ship.locations sh) (Ship.hits sh ++ hs)).
Proof.
  revert sh. induction hs as [|h hs IH]; intros sh Hnd Hv Hat Hlen; simpl.
  - rewrite app_nil_r. by destruct sh.
  - apply Forall_cons in Hv as [Hh Hv]. apply Forall_cons in Hat as [Hath Hat].
    unfold Ship.hit. rewrite Hh, Hath. simpl.
    assert (Hns : Ship.isSunk sh = false).
    { unfold Ship.isSunk. apply Z.eqb_neq.
      rewrite length_app in Hlen. simpl in Hlen. lia. }
    rewrite Hns.
    assert (Hfresh : ref h ∉ ref <$> Ship.hits sh).
    { rewrite fmap_app in Hnd. apply NoDup_app in Hnd as (_ & Hd & _).
      intros Hin. apply (Hd _ Hin). simpl. left. }
    rewrite ObjSet_add_new by done.
    rewrite IH; simpl.
    + by rewrite <- app_assoc.
    + by rewrite <- app_assoc.
    + done.
    + done.
    + by rewrite <- app_assoc.
Qed.

(** C10.  [addLocation] never compares the number of locations with the
    size: on any ship, whatever it holds, an in-bounds location is added
    without error.  On a new ship of size [n], any list of more than [n]
    distinct in-bounds coordinate objects is added without error.  On that
    ship, hitting the first [k <= n] of them succeeds and [isSunk] holds
    exactly when [k = n]; once the first [n] are hit the ship is sunk
    although locations remain that were never hit, and hitting one of
    those is refused as already sunk. *)
Theorem addLocation_ignores_size (n : Z) (locs : list Coord) :
  1 ≤ n ≤ 4 →
  NoDup (ref <$> locs) →
  Forall (λ l, inBounds (row l) (col l) = true) locs →
  n < Z.of_nat (length locs) →
  (∀ (this : Ship.t) (l : Coord),
     inBounds (row l) (col l) = true →
     Ship.addLocation this l
       = Ok (Ship.mk (Ship.size this) (ObjSet_add (Ship.locations this) l)
                     (Ship.hits this))) ∧
  ∃ sh0 sh,
    Ship.new n = Ok sh0 ∧
    Ship.addLocations sh0 locs = Ok sh ∧
    Ship.size sh = n ∧ Ship.locations sh = locs ∧
    (∀ k : nat, Z.of_nat k ≤ n →
       ∃ sh', Ship.hitAll sh (take k locs) = Ok sh' ∧
              Ship.hits sh' = take k locs ∧
              Ship.isSunk sh' = bool_decide (Z.of_nat k = n)) ∧
    (∃ sh', Ship.hitAll sh (take (Z.to_nat n) locs) = Ok sh' ∧
            Ship.isSunk sh' = true ∧
            drop (Z.to_nat n) locs ≠ [] ∧
            Forall (λ l, Ship.isAtLocation sh' l = true ∧
                         Ship.isHit sh' l = false ∧
                         Ship.hit sh' l = Throw AlreadySunk)
                   (drop (Z.to_nat n) locs)).
Proof.
  intros Hn Hnd Hv Hlen. split.
  { intros this l Hl. unfold Ship.addLocation.
    by rewrite isValidLocation_inBounds, Hl. }
  set (sh0 := Ship.mk n [] []).
  set (sh := Ship.mk n locs []).
  assert (Hnew : Ship.new n = Ok sh0).
  { unfold Ship.new.
    destruct (Z.ltb_spec n 1); [lia|].
    destruct (Z.gtb_spec n 4); [lia|]. done. }
  assert (Hadd : Ship.addLocations sh0 locs = Ok sh).
  { rewrite addLocations_fresh; [done|done|].
    eapply Forall_impl; [exact Hv|]. intros l Hl. by rewrite isValidLocation_inBounds. }
  assert (Hhit : ∀ k : nat, Z.of_nat k ≤ n →
            Ship.hitAll sh (take k locs) = Ok (Ship.mk n locs (take k locs))).
  { intros k Hk. rewrite hitAll_fresh; simpl; [done| | | |].
    - rewrite <- (take_drop k locs), fmap_app in Hnd.
      by apply NoDup_app in Hnd as (? & _ & _).
    - apply Forall_take. eapply Forall_impl; [exact Hv|]. done.
    - apply Forall_forall. intros l Hl. apply ObjSet_has_true.
      apply list_elem_of_fmap. exists l. split; [done|].
      eapply subseteq_take; done.
    - rewrite length_take. lia. }
  exists sh0, sh. split_and!; try done.
  - intros k Hk. eexists. split; [by apply Hhit|]. split; [done|].
    unfold Ship.isSunk. simpl. rewrite length_take.
    replace (k `min` length locs)%nat with k by lia.
    destruct (decide (Z.of_nat k = n)) as [E|E].
    + rewrite bool_decide_eq_true_2 by done. by apply Z.eqb_eq.
    + rewrite bool_decide_eq_false_2 by done. by apply Z.eqb_neq.
  - eexists. split; [apply Hhit; lia|].
    assert (Hsunk : Ship.isSunk (Ship.mk n locs (take (Z.to_nat n) locs)) = true).
    { unfold Ship.isSunk. simpl. rewrite length_take. apply Z.eqb_eq. lia. }
    split; [done|]. split.
    { intros Hnil. apply (f_equal length) in Hnil. rewrite length_drop in Hnil.
      simpl in Hnil. lia. }
    apply Forall_forall. intros l Hl.
    assert (Hat : Ship.isAtLocation (Ship.mk n locs (take (Z.to_nat n) locs)) l = true).
    { apply ObjSet_has_true. apply list_elem_of_fmap. exists l. split; [done|].
      eapply subseteq_drop; done. }
    split; [done|]. split.
    + apply ObjSet_has_false. simpl. intros Hin.
      rewrite <- (take_drop (Z.to_nat n) locs), fmap_app in Hnd.
      apply NoDup_app in Hnd as (_ & Hd & _). apply (Hd _ Hin).
      apply list_elem_of_fmap. by exists l.
    + unfold Ship.hit. rewrite Hat, Hsunk.
      rewrite isValidLocation_inBounds.
      rewrite Forall_forall in Hv. rewrite Hv; [done|].
      eapply subseteq_drop; done.
Qed.

(** A ship of size 1 with the two locations (0,0) and (0,1). *)
Lemma addLocation_ignores_size_witness :
  (∀ (this : Ship.t) (l : Coord),
     inBounds (row l) (col l) = true →
     Ship.addLocation this l
       = Ok (Ship.mk (Ship.size this) (ObjSet_add (Ship.locations this) l)
                     (Ship.hits this))) ∧
  ∃ sh0 sh,
    Ship.new 1 = Ok sh0 ∧
    Ship.addLocations sh0 [mkCoord 0 0 0; mkCoord 1 0 1] = Ok sh ∧
    Ship.size sh = 1 ∧ Ship.locations sh = [mkCoord 0 0 0; mkCoord 1 0 1] ∧
    (∀ k : nat, Z.of_nat k ≤ 1 →
       ∃ sh', Ship.hitAll sh (take k [mkCoord 0 0 0; mkCoord 1 0 1]) = Ok sh' ∧
              Ship.hits sh' = take k [mkCoord 0 0 0; mkCoord 1 0 1] ∧
              Ship.isSunk sh' = bool_decide (Z.of_nat k = 1)) ∧
    (∃ sh', Ship.hitAll sh (take (Z.to_nat 1) [mkCoord 0 0 0; mkCoord 1 0 1]) = Ok sh' ∧
            Ship.isSunk sh' = true ∧
            drop (Z.to_nat 1) [mkCoord 0 0 0; mkCoord 1 0 1] ≠ [] ∧
            Forall (λ l, Ship.isAtLocation sh' l = true ∧
                         Ship.isHit sh' l = false ∧
                         Ship.hit sh' l = Throw AlreadySunk)
                   (drop (Z.to_nat 1) [mkCoord 0 0 0; mkCoord 1 0 1])).
Proof.
  apply (addLocation_ignores_size 1 [mkCoord 0 0 0; mkCoord 1 0 1]).
  - lia.
  - simpl. apply NoDup_cons. split; [|apply NoDup_singleton].
    intros H. apply list_elem_of_singleton in H. discriminate.
  - repeat constructor.
  - simpl. lia.
Defined.

(** ** GameAI: what [updateState] does to the search state *)

Lemma filter_not_null (l : list Direction) :
  filter (λ dir, Some dir ≠ @None Direction) l = l.
Proof.
  induction l as [|d l IH]; [done|].
  rewrite filter_cons_True by done. by rewrite IH.
Qed.

Lemma switchDirection_spec (this : AIFields) :
  GameAI.switchDirection this = set_currentDirection None this.
Proof.
  unfold GameAI.switchDirection. simpl. rewrite filter_not_null.
  by destruct this.
Qed.

(** Whatever is not ['hit'] goes through the second branch. *)
Lemma updateState_not_hit (this : AIFields) (guess : Coord) (result : string) (w : World) :
  result ≠ "hit" →
  GameAI.updateState this guess result w = (Ok (set_currentDirection None this), w).
Proof.
  intros Hne. unfold GameAI.updateState.
  destruct (decide (result = "hit")) as [E|_]; [done|].
  unfold ret. destruct (currentDirection this) eqn:Hd.
  - by rewrite switchDirection_spec.
  - destruct this; simpl in *; by subst.
Qed.

(** C5.  With [currentDirection = d], [updateState(g, 'miss')] clears
    [currentDirection] and leaves [possibleDirections] as it was: the
    filter of [#switchDirection] compares with the field it has just
    cleared and removes nothing.  On a new AI that is searching upwards,
    [up] is still among the possible directions after a miss. *)
Theorem updateState_miss_keeps_direction (this : AIFields) (d : Direction)
    (guess : Coord) (w : World) :
  GameAI.updateState (set_currentDirection (Some d) this) guess "miss" w
    = (Ok (set_currentDirection None this), w)
  ∧ (∃ ai, GameAI.updateState (set_currentDirection (Some up) GameAI.new)
             guess "miss" w = (Ok ai, w)
           ∧ currentDirection ai = None
           ∧ up ∈ possibleDirections ai).
Proof.
  split.
  - rewrite updateState_not_hit by done. by destruct this.
  - eexists. split; [by apply updateState_not_hit|]. split; [done|].
    simpl. by left.
Qed.

(** C6.  [updateState(g, 'sunk')] takes the branch of every result that is
    not ['hit']: [currentDirection] is cleared, and [lastHit],
    [possibleDirections] and [possibleShipSizes] stay as they were.  After
    a hit at (2,2) and a 'sunk' signal the AI still has its [lastHit] and
    all four sizes. *)
Theorem updateState_sunk_does_not_reset (this : AIFields) (guess : Coord) (w : World) :
  (∃ ai, GameAI.updateState this guess "sunk" w = (Ok ai, w)
         ∧ currentDirection ai = None
         ∧ lastHit ai = lastHit this
         ∧ possibleDirections ai = possibleDirections this
         ∧ possibleShipSizes ai = possibleShipSizes this)
  ∧ (∃ ai, GameAI.updateState (set_lastHit (Some (mkCoord 0 2 2)) GameAI.new)
             (mkCoord 0 2 2) "sunk" w = (Ok ai, w)
           ∧ lastHit ai = Some (mkCoord 0 2 2)
           ∧ possibleShipSizes ai = [4; 3; 2; 1]).
Proof.
  split; eexists; (split; [by apply updateState_not_hit|]); done.
Qed.

(** ** GameState: the checks of [processPlayerGuess] *)

Lemma outOfBounds_inBounds (a b : Z) :
  ((a <? 0) || (a >=? GameConfig.BOARD_SIZE) ||
   (b <? 0) || (b >=? GameConfig.BOARD_SIZE)) = negb (inBounds a b).
Proof.
  unfold inBounds.
  destruct (Z.ltb_spec a 0), (Z.geb_spec a GameConfig.BOARD_SIZE),
    (Z.ltb_spec b 0), (Z.geb_spec b GameConfig.BOARD_SIZE),
    (Z.leb_spec 0 a), (Z.ltb_spec a GameConfig.BOARD_SIZE),
    (Z.leb_spec 0 b), (Z.ltb_spec b GameConfig.BOARD_SIZE);
    simpl; try reflexivity; lia.
Qed.

(** A failed check raises its error and leaves the world alone. *)
Lemma processPlayerGuess_rejected (w : World) (guess : JsValue) (e : Error) :
  specifiedError w guess = Some e →
  processPlayerGuess guess w = (Throw e, w).
Proof.
  unfold specifiedError, processPlayerGuess, validateGameState, validateGuess,
    bind, get, throw, ret.
  destruct (initialized (game w)); simpl; [|by intros [= <-]].
  destruct (isGameOver w); [by intros [= <-]|].
  destruct guess as [|r [a|] [b|]]; try by intros [= <-].
  rewrite outOfBounds_inBounds.
  destruct (inBounds a b); simpl; [|by intros [= <-]].
  unfold StrSet_has.
  destruct (bool_decide _); [by intros [= <-]|done].
Qed.

(** When the four checks pass, the guess is recorded and the CPU fleet is
    searched for a ship that holds the guess object. *)
Lemma processPlayerGuess_accepted (w : World) (guess : JsValue) :
  specifiedError w guess = None →
  ∃ c, guess = objectOf c ∧ inBounds (row c) (col c) = true ∧
       (getGuessKey c ∉ playerGuesses (game w)) ∧
       processPlayerGuess guess w =
         let w1 := recordPlayerGuess c w in
         match findShipAtLocation w1 (cpuShips (game w1)) c with
         | Some hitShip =>
             match callShip hitShip (λ sh, Ship.hit sh c) w1 with
             | (Ok _, w2) => (Ok {| type := "hit"; coordinates := c |}, w2)
             | (Throw e, w2) => (Throw e, w2)
             end
         | None => (Ok {| type := "miss"; coordinates := c |}, w1)
         end.
Proof.
  unfold specifiedError, processPlayerGuess, validateGameState, validateGuess,
    bind, get, throw, ret, modify.
  destruct (initialized (game w)); simpl; [|done].
  destruct (isGameOver w); [done|].
  destruct guess as [|r [a|] [b|]]; try done.
  rewrite outOfBounds_inBounds.
  destruct (inBounds a b) eqn:Hb; simpl; [|done].
  unfold StrSet_has.
  destruct (bool_decide _) eqn:Hk; [done|]. intros _.
  apply bool_decide_eq_false in Hk.
  exists (mkCoord r a b). split_and!; try done.
  unfold recordPlayerGuess. simpl.
  destruct (findShipAtLocation _ _ _); [|done].
  by destruct (callShip _ _ _) as [[[]|e] w2].
Qed.

(** What [ship.hit] can throw on a coordinate inside the board. *)
Lemma hit_throws (sh : Ship.t) (c : Coord) (e : Error) :
  inBounds (row c) (col c) = true →
  Ship.hit sh c = Throw e → e = NotPartOfShip ∨ e = AlreadySunk.
Proof.
  intros Hb. unfold Ship.hit. rewrite isValidLocation_inBounds, Hb. simpl.
  destruct (Ship.isAtLocation sh c); simpl; [|intros [= <-]; by left].
  destruct (Ship.isSunk sh); [intros [= <-]; by right|done].
Qed.

(** For a guess whose fields are integers or no numbers, a call of
    [processPlayerGuess] that raises one of NotInitialized, GameOver,
    InvalidCoordinates or AlreadyGuessed leaves the whole world as it was:
    with integer fields [Ship.hit] repeats the test of the bounds that
    [#validateGuess] has made.  (With a NaN it does not: see
    [processPlayerGuess_NaN_recorded_then_rejected].) *)
Lemma processPlayerGuess_error_keeps_state (guess : JsValue) (w w' : World)
    (e : Error) :
  processPlayerGuess guess w = (Throw e, w') →
  e ∈ [NotInitialized; GameOver; InvalidCoordinates; AlreadyGuessed] →
  w' = w.
Proof.
  intros Hrun He.
  destruct (specifiedError w guess) as [e'|] eqn:Hspec.
  - rewrite (processPlayerGuess_rejected _ _ _ Hspec) in Hrun. congruence.
  - destruct (processPlayerGuess_accepted _ _ Hspec) as (c & -> & Hb & _ & Heq).
    rewrite Heq in Hrun. simpl in Hrun.
    destruct (findShipAtLocation _ _ _) as [s|]; [|done].
    unfold callShip in Hrun.
    destruct (shipAt _ s) as [sh|].
    + destruct (Ship.hit sh c) as [sh'|e'] eqn:Hhit; [done|].
      injection Hrun as -> _.
      destruct (hit_throws _ _ _ Hb Hhit) as [-> | ->];
        repeat (apply elem_of_cons in He as [He|He]; [done|]);
        by apply elem_of_nil in He.
    + injection Hrun as <- _.
      repeat (apply elem_of_cons in He as [He|He]; [done|]);
        by apply elem_of_nil in He.
Qed.

(** ** Frames: what a computation leaves related *)

Section Frames.
Context (R : World → World → Prop) `{!PreOrder R}.

Lemma frames_ret {A} (a : A) : frames R (ret a).
Proof. intros w. simpl. reflexivity. Qed.

Lemma frames_throw {A} (e : Error) : frames R (@throw A e).
Proof. intros w. simpl. reflexivity. Qed.

Lemma frames_get : frames R get.
Proof. intros w. simpl. reflexivity. Qed.

Lemma frames_bind {A B} (m : M A) (k : A → M B) :
  frames R m → (∀ a, frames R (k a)) → frames R (bind m k).
Proof.
  intros Hm Hk w. unfold bind. specialize (Hm w).
  destruct (m w) as [[a|e] w1]; simpl in *; [|done].
  etrans; [exact Hm|]. apply Hk.
Qed.

Lemma frames_modify (f : World → World) :
  (∀ w, R w (f w)) → frames R (modify f).
Proof. intros Hf w. apply Hf. Qed.

Lemma frames_foldM {A B} (f : B → A → M B) (l : list A) (b : B) :
  (∀ b a, frames R (f b a)) → frames R (foldM f l b).
Proof.
  intros Hf. revert b. induction l as [|x l IH]; intros b; simpl.
  - simple apply frames_ret.
  - simple apply frames_bind; [apply Hf|]. intros b'. apply IH.
Qed.

Ltac frames_step :=
  match goal with
  | |- frames _ (bind _ _) => simple apply frames_bind; [|intros ?]
  | |- frames _ (ret _) => simple apply frames_ret
  | |- frames _ (throw _) => simple apply frames_throw
  | |- frames _ get => simple apply frames_get
  | |- frames _ (foldM _ _ _) => simple apply frames_foldM; intros ? ?
  | |- frames _ (match ?x with _ => _ end) => destruct x
  end.

(** The primitives the AI is built from. *)
Hypothesis R_newCoord : ∀ a b, frames R (newCoord a b).
Hypothesis R_randomBelow : ∀ rand n, frames R (randomBelow rand n).
Hypothesis R_copyArray : ∀ a, frames R (copyArray a).

Lemma frames_getCPUShips : frames R getCPUShips.
Proof. unfold getCPUShips. repeat frames_step. simple apply R_copyArray. Qed.

Lemma frames_getPlayerShips : frames R getPlayerShips.
Proof. unfold getPlayerShips. repeat frames_step. simple apply R_copyArray. Qed.

Lemma frames_updateState (this : AIFields) (guess : Coord) (result : string) :
  frames R (GameAI.updateState this guess result).
Proof.
  unfold GameAI.updateState, GameAI.updatePossibleShipSizes.
  repeat frames_step. simple apply frames_getCPUShips.
Qed.

Lemma frames_getGuessInDirection (this : AIFields) (d : option Direction) :
  frames R (GameAI.getGuessInDirection this d).
Proof.
  unfold GameAI.getGuessInDirection. repeat frames_step; simple apply R_newCoord.
Qed.

Lemma frames_isValidGuess (guess : option Coord) :
  frames R (GameAI.isValidGuess guess).
Proof. unfold GameAI.isValidGuess. repeat frames_step. Qed.

Lemma frames_getAvailableCells : frames R GameAI.getAvailableCells.
Proof.
  unfold GameAI.getAvailableCells. repeat frames_step. simple apply R_newCoord.
Qed.

Lemma frames_getRandomGuess (rand : nat → nat) :
  frames R (GameAI.getRandomGuess rand).
Proof.
  unfold GameAI.getRandomGuess. repeat frames_step.
  - simple apply frames_getAvailableCells.
  - simple apply R_randomBelow.
Qed.

Lemma frames_tryDirections (rand : nat → nat) (this : AIFields)
    (dirs : list Direction) :
  frames R (GameAI.tryDirections this dirs).
Proof.
  induction dirs as [|d dirs IH]; simpl; repeat frames_step.
  - simple apply frames_getGuessInDirection.
  - simple apply frames_isValidGuess.
  - exact IH.
Qed.

Lemma frames_searchDirections (rand : nat → nat) (this : AIFields) :
  frames R (GameAI.searchDirections rand this).
Proof.
  unfold GameAI.searchDirections. repeat frames_step.
  - by simple apply frames_tryDirections.
  - simple apply frames_getRandomGuess.
Qed.

Lemma frames_makeGuess (rand : nat → nat) (this : AIFields) :
  frames R (GameAI.makeGuess rand this).
Proof.
  unfold GameAI.makeGuess, GameAI.getHuntGuess, GameAI.getNextGuessInDirection.
  repeat frames_step;
    first [ simple apply frames_getRandomGuess | simple apply frames_searchDirections
          | simple apply frames_getGuessInDirection | simple apply frames_isValidGuess ].
Qed.

(** The primitives the game adds to them. *)
Hypothesis R_callShip : ∀ s method, frames R (callShip s method).
Hypothesis R_newShip : ∀ size, frames R (newShip size).
Hypothesis R_pushArray : ∀ a x, frames R (pushArray a x).
Hypothesis R_setAI : ∀ ai w, R w (with_game (set_gameAI ai) w).
Hypothesis R_setCpuGuesses :
  ∀ f w, R w (with_game (λ g, set_cpuGuesses (f g) g) w).
Hypothesis R_recordPlayerGuess : ∀ c w, R w (recordPlayerGuess c w).
Hypothesis R_setInitialized : ∀ w, R w (with_game (set_initialized true) w).

Lemma frames_validateGameState : frames R validateGameState.
Proof. unfold validateGameState. repeat frames_step. Qed.

Lemma frames_validateGuess (guess : JsValue) : frames R (validateGuess guess).
Proof. unfold validateGuess. repeat frames_step. Qed.

Lemma frames_processPlayerGuess (guess : JsValue) :
  frames R (processPlayerGuess guess).
Proof.
  unfold processPlayerGuess. repeat frames_step;
    first [ simple apply frames_validateGameState | simple apply frames_validateGuess
          | simple apply R_callShip | idtac ].
  simple apply frames_modify. intros w. apply R_recordPlayerGuess.
Qed.

Lemma frames_aiUpdateState (guess : Coord) (result : string) :
  frames R (aiUpdateState guess result).
Proof.
  unfold aiUpdateState. repeat frames_step.
  - simple apply frames_updateState.
  - simple apply frames_modify; intros ?; simple apply R_setAI.
Qed.

Lemma frames_cpuTurn (rand : nat → nat) : frames R (cpuTurn rand).
Proof.
  unfold cpuTurn. repeat frames_step;
    first [ simple apply frames_validateGameState | simple apply frames_makeGuess
          | simple apply R_callShip | simple apply frames_aiUpdateState
          | simple apply frames_modify; intros ?; simple apply R_setAI
          | simple apply frames_modify; intros ?; simple apply R_setCpuGuesses ].
Qed.

Lemma frames_processCPUGuess (rand : nat → nat) (fuel : nat) (w w' : World)
    (o : Outcome GuessResult) :
  processCPUGuess rand fuel w = Some (o, w') → R w w'.
Proof.
  revert w. induction fuel as [|fuel IH]; intros w; simpl; [done|].
  pose proof (frames_cpuTurn rand w) as Hturn.
  destruct (cpuTurn rand w) as [[[result|]|e] w1]; simpl in Hturn.
  - by intros [= <- <-].
  - intros Hrec. etrans; [exact Hturn|]. by apply IH.
  - by intros [= <- <-].
Qed.

Lemma frames_shipLocationsFrom (a b : Z) (d : option Direction) (n : nat) :
  frames R (shipLocationsFrom a b d n).
Proof.
  revert a b. induction n as [|n IH]; intros a b; simpl; repeat frames_step;
    first [ simple apply R_newCoord | apply IH ].
Qed.

Lemma frames_placeShip (ship : nat) (location : Coord)
    (direction : option Direction) (fleet : nat) :
  frames R (placeShip ship location direction fleet).
Proof.
  unfold placeShip, getShipLocations. repeat frames_step;
    first [ simple apply frames_shipLocationsFrom | simple apply R_callShip ].
Qed.

Lemma frames_tryPlaceShip (rand : nat → nat) (size : Z) (fleet : nat) :
  frames R (tryPlaceShip rand size fleet).
Proof.
  unfold tryPlaceShip, getRandomLocation, getRandomDirection.
  repeat frames_step;
    first [ simple apply R_newShip | simple apply R_randomBelow | simple apply R_newCoord
          | simple apply frames_placeShip | simple apply R_pushArray ].
Qed.

Lemma frames_placeAttempts (rand : nat → nat) (size : Z) (fleet n : nat) :
  frames R (placeAttempts rand size fleet n).
Proof.
  induction n as [|n IH]; intros w; simpl; [reflexivity|].
  pose proof (frames_tryPlaceShip rand size fleet w) as Htry.
  destruct (tryPlaceShip rand size fleet w) as [[[]|e] w1]; simpl in *; [done|].
  etrans; [exact Htry|]. apply IH.
Qed.

Lemma frames_placeFleet (rand : nat → nat) (fleet : nat) (failure : Error) :
  frames R (placeFleet rand fleet failure).
Proof.
  unfold placeFleet. repeat frames_step. simple apply frames_placeAttempts.
Qed.

Lemma frames_initialize (rand : nat → nat) : frames R (initialize rand).
Proof.
  unfold initialize, placeShips, placeShipsForPlayer, placeShipsForCPU.
  repeat frames_step;
    first [ simple apply frames_placeFleet
          | simple apply frames_modify; intros ?; simple apply R_setAI
          | simple apply frames_modify; intros ?; simple apply R_setInitialized ].
Qed.
End Frames.

(** ** What no call of the interface takes back *)

Global Instance gameGrows_preorder : PreOrder gameGrows.
Proof.
  split.
  - intros w. by split.
  - intros w1 w2 w3 [Hi1 Hg1] [Hi2 Hg2]. split; [auto|].
    by etrans.
Qed.

Lemma gameGrows_same_game (w w' : World) : game w' = game w → gameGrows w w'.
Proof. intros E. unfold gameGrows. rewrite E. by split. Qed.

Lemma gameGrows_callShip (s : nat) (method : Ship.t → Outcome Ship.t) :
  frames gameGrows (callShip s method).
Proof.
  intros w. apply gameGrows_same_game. unfold callShip.
  destruct (shipAt w s) as [sh|]; [|done]. by destruct (method sh).
Qed.

Lemma gameGrows_newShip (size : Z) : frames gameGrows (newShip size).
Proof.
  intros w. apply gameGrows_same_game. unfold newShip.
  by destruct (Ship.new size).
Qed.

Lemma gameGrows_recordPlayerGuess (c : Coord) (w : World) :
  gameGrows w (recordPlayerGuess c w).
Proof.
  split; [done|]. simpl. intros k Hk. by apply StrSet_add_mono.
Qed.

Lemma apiStep_gameGrows (rand : nat → nat) (w w' : World) :
  apiStep rand w w' → gameGrows w w'.
Proof.
  assert (Hnew : ∀ a b, frames gameGrows (newCoord a b)).
  { intros a b w0. by apply gameGrows_same_game. }
  assert (Hrnd : ∀ r n, frames gameGrows (randomBelow r n)).
  { intros r n w0. by apply gameGrows_same_game. }
  assert (Hcopy : ∀ a, frames gameGrows (copyArray a)).
  { intros a w0. by apply gameGrows_same_game. }
  assert (Hpush : ∀ a x, frames gameGrows (pushArray a x)).
  { intros a x w0. by apply gameGrows_same_game. }
  assert (HsetAI : ∀ ai w0, gameGrows w0 (with_game (set_gameAI ai) w0)).
  { intros ai w0. by split. }
  assert (HsetCpu : ∀ f w0,
            gameGrows w0 (with_game (λ g, set_cpuGuesses (f g) g) w0)).
  { intros f w0. by split. }
  assert (HsetInit : ∀ w0, gameGrows w0 (with_game (set_initialized true) w0)).
  { intros w0. by split. }
  intros [w0 o w0' H | guess w0 o w0' _ H | fuel w0 o w0' H
         | w0 a w0' H | w0 a w0' H].
  - pose proof (frames_initialize gameGrows Hnew Hrnd gameGrows_callShip
                  gameGrows_newShip Hpush HsetAI HsetInit rand w0) as HR.
    by rewrite H in HR.
  - pose proof (frames_processPlayerGuess gameGrows gameGrows_callShip
                  gameGrows_recordPlayerGuess guess w0) as HR.
    by rewrite H in HR.
  - by eapply (frames_processCPUGuess gameGrows Hnew Hrnd Hcopy
                 gameGrows_callShip HsetAI HsetCpu).
  - pose proof (frames_getPlayerShips gameGrows Hcopy w0) as HR.
    by rewrite H in HR.
  - pose proof (frames_getCPUShips gameGrows Hcopy w0) as HR.
    by rewrite H in HR.
Qed.

Lemma later_gameGrows (rand : nat → nat) (w w' : World) :
  rtc (apiStep rand) w w' → gameGrows w w'.
Proof.
  induction 1 as [|w1 w2 w3 Hstep _ IH]; [reflexivity|].
  etrans; [by eapply apiStep_gameGrows|done].
Qed.

(** ** Well-formed games *)

Lemma shipConsistent_mono (guesses guesses' : StrSet) (sh : Ship.t) :
  guesses ⊆ guesses' → shipConsistent guesses sh → shipConsistent guesses' sh.
Proof.
  intros Hsub (Hl & Hn & Hh & Hin). split_and!; try done.
  intros h Hh'. destruct (Hin h Hh') as [? ?]. split; [done|]. by apply Hsub.
Qed.

(** In a consistent ship, a location whose guess key is not recorded was
    not hit yet, so the ship is not sunk and the hit goes through. *)
Lemma hit_consistent (guesses : StrSet) (sh : Ship.t) (c : Coord) :
  shipConsistent guesses sh →
  inBounds (row c) (col c) = true →
  Ship.isAtLocation sh c = true →
  (∀ l, l ∈ Ship.locations sh → ref l = ref c → l = c) →
  getGuessKey c ∉ guesses →
  ∃ sh', Ship.hit sh c = Ok sh' ∧
         shipConsistent (StrSet_add guesses (getGuessKey c)) sh'.
Proof.
  intros (Hl & Hn & Hh & Hin) Hb Hat Hid Hkey.
  apply ObjSet_has_true in Hat.
  apply list_elem_of_fmap in Hat as (l & Hrl & Hl').
  assert (l = c) as -> by (by apply Hid).
  assert (Hfresh : ref c ∉ ref <$> Ship.hits sh).
  { intros Hc. apply list_elem_of_fmap in Hc as (h & Hrh & Hh').
    destruct (Hin h Hh') as [Hhl Hhk].
    assert (h = c) as -> by (by apply Hid). done. }
  assert (Hlen : (length (Ship.hits sh) < length (Ship.locations sh))%nat).
  { assert (Hsub : ref c :: (ref <$> Ship.hits sh) ⊆+ ref <$> Ship.locations sh).
    { apply NoDup_submseteq.
      - by apply NoDup_cons.
      - intros r Hr. apply elem_of_cons in Hr as [->|Hr].
        + apply list_elem_of_fmap. by exists c.
        + apply list_elem_of_fmap in Hr as (h & -> & Hh').
          apply list_elem_of_fmap. exists h. split; [done|].
          by destruct (Hin h Hh'). }
    apply submseteq_length in Hsub. simpl in Hsub.
    rewrite !length_fmap in Hsub. lia. }
  unfold Ship.hit. rewrite isValidLocation_inBounds, Hb. simpl.
  assert (Hat : Ship.isAtLocation sh c = true).
  { apply ObjSet_has_true. apply list_elem_of_fmap. by exists c. }
  rewrite Hat. simpl.
  assert (Hns : Ship.isSunk sh = false).
  { unfold Ship.isSunk. apply Z.eqb_neq. lia. }
  rewrite Hns. eexists. split; [done|].
  rewrite ObjSet_add_new by done.
  split_and!; simpl; try done.
  - rewrite fmap_app. apply NoDup_app. split_and!; [done| |apply NoDup_singleton].
    intros r Hr Hr'. apply list_elem_of_singleton in Hr'. by subst.
  - intros h Hh'. apply elem_of_app in Hh' as [Hh'|Hh'].
    + destruct (Hin h Hh'). split; [done|]. by apply StrSet_add_mono.
    + apply list_elem_of_singleton in Hh' as ->. split; [done|].
      apply StrSet_add_has.
Qed.

Lemma findShipAtLocation_Some (w : World) (fleet : nat) (c : Coord) (s : nat) :
  findShipAtLocation w fleet c = Some s →
  s ∈ arrayAt w fleet ∧
  ∃ sh, shipAt w s = Some sh ∧ Ship.isAtLocation sh c = true.
Proof.
  unfold findShipAtLocation. intros H. apply find_some in H as [Hin Hat].
  split; [by apply list_elem_of_In|].
  destruct (shipAt w s) as [sh|]; [|done]. by exists sh.
Qed.

Lemma objectOf_inj (c c' : Coord) : objectOf c = objectOf c' → c = c'.
Proof. destruct c, c'. unfold objectOf. simpl. by intros [= -> -> ->]. Qed.

(** In a well-formed game, a guess that passes the four checks is
    processed without an error, and the game stays well formed. *)
Lemma processPlayerGuess_succeeds (w : World) (guess : JsValue) :
  wellFormed w → respectsIdentity w guess →
  specifiedError w guess = None →
  ∃ result w',
    processPlayerGuess guess w = (Ok result, w') ∧
    guess = objectOf (coordinates result) ∧
    getGuessKey (coordinates result) ∈ playerGuesses (game w') ∧
    wellFormed w'.
Proof.
  intros (Halloc & Hcpu & Hpl) Hid Hspec.
  destruct (processPlayerGuess_accepted _ _ Hspec) as (c & -> & Hb & Hkey & ->).
  cbv zeta.
  set (w1 := recordPlayerGuess c w).
  assert (Hcpu1 : fleetConsistent w1 (cpuShips (game w1)) (playerGuesses (game w1))).
  { intros s Hs. destruct (Hcpu s Hs) as (sh & Hsh & Hc). exists sh.
    split; [done|]. eapply shipConsistent_mono; [|done].
    intros k Hk. simpl. by apply StrSet_add_mono. }
  destruct (findShipAtLocation w1 (cpuShips (game w1)) c) as [s|] eqn:Hfind.
  - apply findShipAtLocation_Some in Hfind as (Hs & sh & Hsh & Hat).
    destruct (Hcpu s Hs) as (sh0 & Hsh0 & Hc).
    assert (sh0 = sh) as -> by (unfold shipAt in *; simpl in *; congruence).
    destruct (hit_consistent _ sh c Hc Hb Hat) as (sh' & Hhit & Hc'); [|done|].
    { intros l Hl Hr. symmetry. apply objectOf_inj.
      eapply (Hid (ref c) (JNum (row c)) (JNum (col c)) s sh l); done. }
    unfold callShip. rewrite Hsh, Hhit.
    eexists _, _. split; [done|]. simpl. split; [done|].
    split; [apply StrSet_add_has|].
    split_and!; try done.
    + intros s' Hs'. unfold shipAt, arrayAt in *. simpl in *.
      destruct (decide (s' = s)) as [->|Hne].
      * exists sh'. split; [|done]. apply list_lookup_insert_eq.
        by eapply lookup_lt_Some.
      * rewrite list_lookup_insert_ne by done.
        destruct (Hcpu1 s' Hs') as (sh1 & Hsh1 & Hc1). by exists sh1.
    + intros s' Hs'. unfold shipAt, arrayAt in *. simpl in *.
      destruct (Hpl s' Hs') as [Hsome Hnot]. split; [|done].
      destruct (decide (s' = s)) as [->|Hne]; [done|].
      by rewrite list_lookup_insert_ne.
  - eexists _, _. split; [done|]. simpl. split; [done|].
    split; [apply StrSet_add_has|]. by split_and!.
Qed.

Global Instance sameGame_preorder : PreOrder sameGame.
Proof.
  split.
  - intros w. by split_and!.
  - intros w1 w2 w3 (Hs1 & Ha1 & Hg1) (Hs2 & Ha2 & Hg2).
    split_and!; [congruence|by etrans|congruence].
Qed.

Lemma sameGame_newCoord (a b : Z) : frames sameGame (newCoord a b).
Proof. intros w. by split_and!. Qed.

Lemma sameGame_randomBelow (rand : nat → nat) (n : nat) :
  frames sameGame (randomBelow rand n).
Proof. intros w. by split_and!. Qed.

Lemma sameGame_copyArray (a : nat) : frames sameGame (copyArray a).
Proof. intros w. split_and!; [done| |done]. simpl. by apply prefix_app_r. Qed.

Lemma arrayAt_prefix (w w' : World) (a : nat) :
  arrays w `prefix_of` arrays w' → (a < length (arrays w))%nat →
  arrayAt w' a = arrayAt w a.
Proof.
  intros [k Hk] Ha. unfold arrayAt. rewrite Hk.
  by rewrite lookup_app_l.
Qed.

(** Well-formedness reads the ships, the two fleets and the player's
    guesses, and nothing else. *)
Lemma wellFormed_ext (w w' : World) :
  ships w' = ships w →
  arrays w `prefix_of` arrays w' →
  playerShips (game w') = playerShips (game w) →
  cpuShips (game w') = cpuShips (game w) →
  playerGuesses (game w') = playerGuesses (game w) →
  wellFormed w → wellFormed w'.
Proof.
  intros Hs Ha Hp Hc Hg ((Hap & Hac & Hne) & Hcpu & Hpl).
  assert (Hlen : (length (arrays w) ≤ length (arrays w'))%nat)
    by (by apply prefix_length).
  unfold wellFormed, fleetsAllocated, fleetConsistent, shipAt.
  rewrite Hs, Hp, Hc, Hg.
  rewrite !(arrayAt_prefix w w') by done.
  split_and!; try done; lia.
Qed.

Lemma wellFormed_sameGame (w w' : World) :
  sameGame w w' → wellFormed w → wellFormed w'.
Proof.
  intros (Hs & Ha & Hg). apply wellFormed_ext; try done; by rewrite Hg.
Qed.

Lemma makeGuess_wellFormed (rand : nat → nat) (ai : AIFields) (w : World) :
  wellFormed w → wellFormed (GameAI.makeGuess rand ai w).2.
Proof.
  apply wellFormed_sameGame.
  apply (frames_makeGuess sameGame sameGame_newCoord sameGame_randomBelow).
Qed.

Lemma aiUpdateState_wellFormed (guess : Coord) (result : string) (w : World) :
  wellFormed w → wellFormed (aiUpdateState guess result w).2.
Proof.
  intros Hwf. unfold aiUpdateState, bind, get, throw, modify.
  destruct (gameAI (game w)) as [ai|]; [|done].
  pose proof (frames_updateState sameGame sameGame_copyArray ai guess result w)
    as Hsame.
  destruct (GameAI.updateState ai guess result w) as [[ai'|e] w1]; simpl in *.
  - eapply (wellFormed_ext w1); try done. by eapply wellFormed_sameGame.
  - by eapply wellFormed_sameGame.
Qed.

(** A method called on a ship of the player's fleet leaves the CPU's ships
    as they are. *)
Lemma callShip_player_wellFormed (s : nat) (method : Ship.t → Outcome Ship.t)
    (w : World) :
  wellFormed w → s ∈ arrayAt w (playerShips (game w)) →
  wellFormed (callShip s method w).2.
Proof.
  intros Hwf Hs. unfold callShip.
  destruct (shipAt w s) as [sh|] eqn:Hsh; [|done].
  destruct (method sh) as [sh'|e]; [|done]. simpl.
  destruct Hwf as (Halloc & Hcpu & Hpl).
  destruct (Hpl s Hs) as [_ Hnot].
  split_and!; try done.
  - intros s' Hs'. unfold shipAt, arrayAt in *. simpl in *.
    assert (s ≠ s') by (intros ->; done).
    rewrite list_lookup_insert_ne by done. by apply Hcpu.
  - intros s' Hs'. unfold shipAt, arrayAt in *. simpl in *.
    destruct (Hpl s' Hs') as [Hsome Hnot']. split; [|done].
    destruct (decide (s = s')) as [->|Hne].
    + rewrite list_lookup_insert_eq; [done|]. by eapply lookup_lt_Some.
    + by rewrite list_lookup_insert_ne.
Qed.

Lemma validateGameState_world (w : World) : (validateGameState w).2 = w.
Proof.
  unfold validateGameState, bind, get, throw, ret.
  destruct (negb (initialized (game w))); [done|].
  by destruct (isGameOver w).
Qed.

Lemma cpuTurn_wellFormed (rand : nat → nat) (w : World) :
  wellFormed w → wellFormed (cpuTurn rand w).2.
Proof.
  intros Hwf. unfold cpuTurn.
  unfold bind at 1.
  pose proof (validateGameState_world w) as Hv.
  destruct (validateGameState w) as [[[]|e] w0]; simpl in Hv; subst w0; [|done].
  unfold bind at 1, get at 1.
  destruct (gameAI (game w)) as [ai|]; [|done].
  unfold bind at 1.
  pose proof (makeGuess_wellFormed rand ai w Hwf) as Hwf1.
  destruct (GameAI.makeGuess rand ai w) as [[[ai' guess]|e] w1]; [|done].
  cbn [snd] in Hwf1.
  unfold bind at 1, modify at 1.
  set (w2 := with_game (set_gameAI (Some ai')) w1).
  assert (Hwf2 : wellFormed w2) by (by eapply (wellFormed_ext w1)).
  destruct guess as [g|]; [|done].
  unfold bind at 1, get at 1.
  destruct (StrSet_has (cpuGuesses (game w2)) (getGuessKey g)); [done|].
  unfold bind at 1, modify at 1.
  set (w3 := with_game _ w2).
  assert (Hwf3 : wellFormed w3) by (by eapply (wellFormed_ext w2)).
  unfold bind at 1, get at 1.
  destruct (findShipAtLocation w3 (playerShips (game w3)) g) as [s|] eqn:Hfind.
  - apply findShipAtLocation_Some in Hfind as [Hs _].
    pose proof (callShip_player_wellFormed s (λ sh, Ship.hit sh g) w3 Hwf3 Hs)
      as Hwf4.
    unfold bind at 1.
    destruct (callShip s _ w3) as [[[]|e] w4]; cbn [snd] in Hwf4; [|done].
    pose proof (aiUpdateState_wellFormed g "hit" w4 Hwf4) as Hwf5.
    unfold bind at 1.
    by destruct (aiUpdateState g "hit" w4) as [[[]|e] w5].
  - pose proof (aiUpdateState_wellFormed g "miss" w3 Hwf3) as Hwf5.
    unfold bind at 1.
    by destruct (aiUpdateState g "miss" w3) as [[[]|e] w5].
Qed.

Lemma processCPUGuess_wellFormed (rand : nat → nat) (fuel : nat) (w w' : World)
    (o : Outcome GuessResult) :
  wellFormed w → processCPUGuess rand fuel w = Some (o, w') → wellFormed w'.
Proof.
  revert w. induction fuel as [|fuel IH]; intros w Hwf; simpl; [done|].
  pose proof (cpuTurn_wellFormed rand w Hwf) as Hwf1.
  destruct (cpuTurn rand w) as [[[result|]|e] w1]; simpl in Hwf1.
  - by intros [= <- <-].
  - by apply IH.
  - by intros [= <- <-].
Qed.

(** ** Placement keeps the game well formed *)

Global Instance onlyShip_preorder (s : nat) : PreOrder (onlyShip s).
Proof.
  split.
  - intros w. by split_and!.
  - intros w1 w2 w3 (Hg1 & Ha1 & Hl1 & Hs1) (Hg2 & Ha2 & Hl2 & Hs2).
    split_and!; try congruence. intros s' Hs'. rewrite Hs2, Hs1; done.
Qed.

Lemma onlyShip_sameGame (s : nat) (w w' : World) :
  ships w' = ships w → arrays w' = arrays w → game w' = game w →
  onlyShip s w w'.
Proof. intros Hs Ha Hg. split_and!; try done; by rewrite Hs. Qed.

Lemma onlyShip_callShip (s : nat) (method : Ship.t → Outcome Ship.t) :
  frames (onlyShip s) (callShip s method).
Proof.
  intros w. unfold callShip.
  destruct (shipAt w s) as [sh|]; [|reflexivity].
  destruct (method sh) as [sh'|e]; [|reflexivity].
  split_and!; simpl; try done.
  - by rewrite length_insert.
  - intros s' Hs'. by rewrite list_lookup_insert_ne.
Qed.

Lemma wellFormed_onlyShip (s : nat) (w w' : World) :
  onlyShip s w w' →
  s ∉ arrayAt w (playerShips (game w)) →
  s ∉ arrayAt w (cpuShips (game w)) →
  wellFormed w → wellFormed w'.
Proof.
  intros (Hg & Ha & Hl & Hs) Hnp Hnc ((? & ? & ?) & Hcpu & Hpl).
  unfold wellFormed, fleetsAllocated, fleetConsistent, shipAt, arrayAt in *.
  rewrite Hg, Ha. split_and!; try done.
  - intros s' Hs'. rewrite Hs; [by apply Hcpu|]. by intros ->.
  - intros s' Hs'. rewrite Hs; [by apply Hpl|]. by intros ->.
Qed.

(** The locations of a placement are new objects, one after the other. *)
Lemma shipLocationsFrom_spec (a b : Z) (d : option Direction) (n : nat) (w : World) :
  ∃ locs,
    shipLocationsFrom a b d n w =
      (Ok locs, mkWorld (ships w) (arrays w) (n + nextRef w) (draws w) (game w)) ∧
    ref <$> locs = seq (nextRef w) n.
Proof.
  revert a b w. induction n as [|n IH]; intros a b w; simpl.
  - exists []. split; [by destruct w|done].
  - unfold bind at 1, newCoord at 1.
    set (w1 := mkWorld _ _ (S (nextRef w)) _ _).
    assert (Hrec : ∃ a' b',
              (match d with
               | Some up => shipLocationsFrom (a - 1) b d n
               | Some right => shipLocationsFrom a (b + 1) d n
               | Some down => shipLocationsFrom (a + 1) b d n
               | Some left => shipLocationsFrom a (b - 1) d n
               | None => shipLocationsFrom a b d n
               end) = shipLocationsFrom a' b' d n).
    { destruct d as [[]|]; by eexists _, _. }
    destruct Hrec as (a' & b' & ->).
    destruct (IH a' b' w1) as (locs & Hrun & Hrefs).
    unfold bind at 1. rewrite Hrun. unfold ret.
    eexists. split.
    + f_equal. subst w1. simpl. f_equal. lia.
    + simpl. f_equal. exact Hrefs.
Qed.

Lemma areLocationsValid_cons (l : Coord) (locs : list Coord) :
  areLocationsValid (l :: locs) = true →
  Ship.isValidLocation l = true ∧ areLocationsValid locs = true.
Proof. unfold areLocationsValid. simpl. intros H. by apply andb_prop in H. Qed.

(** Adding valid new locations one by one, through the reference. *)
Lemma addLocations_store (s : nat) (size : Z) (locs acc : list Coord) (w : World) :
  shipAt w s = Some (Ship.mk size acc []) →
  areLocationsValid locs = true →
  NoDup (ref <$> (acc ++ locs)) →
  ∃ w', foldM (λ _ loc, callShip s (λ sh, Ship.addLocation sh loc)) locs tt w
          = (Ok tt, w') ∧
        onlyShip s w w' ∧
        shipAt w' s = Some (Ship.mk size (acc ++ locs) []).
Proof.
  revert acc w. induction locs as [|l locs IH]; intros acc w Hs Hv Hnd; simpl.
  - exists w. rewrite app_nil_r. split_and!; [done|reflexivity|done].
  - apply areLocationsValid_cons in Hv as [Hl Hv].
    unfold bind at 1, callShip at 1. rewrite Hs.
    unfold Ship.addLocation. rewrite Hl. simpl.
    assert (Hfresh : ref l ∉ ref <$> acc).
    { rewrite fmap_app in Hnd. apply NoDup_app in Hnd as (_ & Hd & _).
      intros Hin. apply (Hd _ Hin). simpl. left. }
    rewrite ObjSet_add_new by done.
    set (w1 := with_ships _ w).
    assert (Hlt : (s < length (ships w))%nat) by (by eapply lookup_lt_Some).
    assert (Hs1 : shipAt w1 s = Some (Ship.mk size (acc ++ [l]) [])).
    { unfold shipAt, w1. simpl. by apply list_lookup_insert_eq. }
    destruct (IH (acc ++ [l]) w1 Hs1 Hv) as (w' & Hrun & Hframe & Hs').
    { by rewrite <- app_assoc. }
    exists w'. split; [done|]. split.
    + etrans; [|exact Hframe].
      split_and!; simpl; try done.
      * by rewrite length_insert.
      * intros s' Hne. by rewrite list_lookup_insert_ne.
    + by rewrite <- app_assoc in Hs'.
Qed.

Lemma NoDup_seq' (a n : nat) : NoDup (seq a n).
Proof. apply NoDup_ListNoDup, List.seq_NoDup. Qed.

(** [#placeShip] touches the new ship only; when it returns, the ship has
    as many location objects as its size. *)
Lemma placeShip_spec (s : nat) (size : Z) (location : Coord)
    (direction : option Direction) (fleet : nat) (w w' : World)
    (o : Outcome unit) :
  shipAt w s = Some (Ship.mk size [] []) → 0 ≤ size →
  placeShip s location direction fleet w = (o, w') →
  onlyShip s w w' ∧
  match o with
  | Ok _ => ∃ locs,
      shipAt w' s = Some (Ship.mk size locs []) ∧
      NoDup (ref <$> locs) ∧ Z.of_nat (length locs) = size
  | Throw _ => True
  end.
Proof.
  intros Hs Hsize. unfold placeShip.
  unfold bind at 1, get at 1. rewrite Hs.
  unfold bind at 1, getShipLocations. simpl Ship.size.
  destruct (shipLocationsFrom_spec (row location) (col location) direction
              (Z.to_nat size) w) as (locs & -> & Hrefs).
  set (w1 := mkWorld _ _ _ _ _).
  assert (Hframe1 : onlyShip s w w1) by (by apply onlyShip_sameGame).
  destruct (areLocationsValid locs) eqn:Hv; simpl; [|by intros [= <- <-]].
  unfold bind at 1, get at 1.
  destruct (doLocationsOverlap w1 locs fleet); simpl; [by intros [= <- <-]|].
  assert (Hnd : NoDup (ref <$> locs)) by (rewrite Hrefs; apply NoDup_seq').
  destruct (addLocations_store s size locs [] w1 Hs Hv Hnd)
    as (w2 & -> & Hframe & Hs').
  intros [= <- <-]. split; [by etrans|].
  exists locs. split_and!; try done.
  apply (f_equal length) in Hrefs. rewrite length_fmap, length_seq in Hrefs.
  lia.
Qed.

Lemma wellFormed_valid_refs (w : World) (s : nat) :
  wellFormed w →
  s ∈ arrayAt w (playerShips (game w)) ∨ s ∈ arrayAt w (cpuShips (game w)) →
  (s < length (ships w))%nat.
Proof.
  intros (_ & Hcpu & Hpl) [Hs|Hs].
  - destruct (Hpl s Hs) as [[sh Hsh] _]. by eapply lookup_lt_Some.
  - destruct (Hcpu s Hs) as (sh & Hsh & _). by eapply lookup_lt_Some.
Qed.

Lemma wellFormed_newShip (sh : Ship.t) (w : World) :
  wellFormed w → wellFormed (with_ships (λ l, l ++ [sh]) w).
Proof.
  intros Hwf.
  pose proof (wellFormed_valid_refs w) as Hvalid.
  assert (Hwf' : wellFormed w) by done.
  destruct Hwf as ((? & ? & ?) & Hcpu & Hpl).
  unfold wellFormed, fleetsAllocated, fleetConsistent, shipAt, arrayAt in *.
  simpl. split_and!; try done.
  - intros s Hs. rewrite lookup_app_l; [by apply Hcpu|].
    apply Hvalid; [done|by right].
  - intros s Hs. rewrite lookup_app_l; [by apply Hpl|].
    apply Hvalid; [done|by left].
Qed.

Lemma arrayAt_push_eq (w : World) (fleet s : nat) :
  (fleet < length (arrays w))%nat →
  arrayAt (pushArray fleet s w).2 fleet = arrayAt w fleet ++ [s].
Proof.
  intros Hlt. unfold arrayAt, pushArray, modify. simpl.
  by rewrite list_lookup_insert_eq.
Qed.

Lemma arrayAt_push_ne (w : World) (fleet a s : nat) :
  a ≠ fleet →
  arrayAt (pushArray fleet s w).2 a = arrayAt w a.
Proof.
  intros Hne. unfold arrayAt, pushArray, modify. simpl.
  by rewrite list_lookup_insert_ne.
Qed.

(** A placed ship that no fleet holds yet joins one of the fleets. *)
Lemma wellFormed_pushArray (fleet s : nat) (sh : Ship.t) (w : World) :
  wellFormed w →
  fleet = playerShips (game w) ∨ fleet = cpuShips (game w) →
  s ∉ arrayAt w (playerShips (game w)) →
  s ∉ arrayAt w (cpuShips (game w)) →
  shipAt w s = Some sh → shipConsistent (playerGuesses (game w)) sh →
  wellFormed (pushArray fleet s w).2.
Proof.
  intros ((Hap & Hac & Hne) & Hcpu & Hpl) Hfleet Hnp Hnc Hsh Hcons.
  set (w' := (pushArray fleet s w).2).
  assert (Hships : ships w' = ships w) by done.
  assert (Hgame : game w' = game w) by done.
  assert (Hlen : length (arrays w') = length (arrays w)).
  { unfold w', pushArray, modify. simpl. by rewrite length_insert. }
  unfold wellFormed, fleetsAllocated, fleetConsistent, shipAt.
  rewrite Hships, Hgame, Hlen.
  destruct Hfleet as [-> | ->].
  - unfold w'. rewrite arrayAt_push_eq by done.
    rewrite (arrayAt_push_ne w (playerShips (game w)) (cpuShips (game w))) by done.
    split_and!; try done.
    intros s' Hs'. apply elem_of_app in Hs' as [Hs'|Hs'].
    + by apply Hpl.
    + apply list_elem_of_singleton in Hs' as ->. split; [|done].
      unfold shipAt in Hsh. by rewrite Hsh.
  - unfold w'. rewrite arrayAt_push_eq by done.
    rewrite (arrayAt_push_ne w (cpuShips (game w)) (playerShips (game w))) by done.
    split_and!; try done.
    + intros s' Hs'. apply elem_of_app in Hs' as [Hs'|Hs'].
      * by apply Hcpu.
      * apply list_elem_of_singleton in Hs' as ->. by exists sh.
    + intros s' Hs'. destruct (Hpl s' Hs') as [Hsome Hnot]. split; [done|].
      intros Hin. apply elem_of_app in Hin as [Hin|Hin]; [done|].
      apply list_elem_of_singleton in Hin as ->. done.
Qed.

Lemma new_Ok (size : Z) (sh : Ship.t) :
  Ship.new size = Ok sh → sh = Ship.mk size [] [] ∧ 1 ≤ size ≤ 4.
Proof.
  unfold Ship.new.
  destruct (Z.ltb_spec size 1), (Z.gtb_spec size 4); simpl; try done.
  intros [= <-]. split; [done|lia].
Qed.

Lemma tryPlaceShip_wellFormed (rand : nat → nat) (size : Z) (fleet : nat)
    (w w' : World) (o : Outcome unit) :
  wellFormed w →
  fleet = playerShips (game w) ∨ fleet = cpuShips (game w) →
  tryPlaceShip rand size fleet w = (o, w') →
  wellFormed w' ∧ game w' = game w.
Proof.
  intros Hwf Hfleet. unfold tryPlaceShip.
  unfold bind at 1, newShip at 1.
  destruct (Ship.new size) as [sh0|e] eqn:Hnew; [|by intros [= <- <-]].
  apply new_Ok in Hnew as [-> Hsize].
  set (s := length (ships w)).
  set (w1 := with_ships _ w).
  assert (Hwf1 : wellFormed w1) by (by apply wellFormed_newShip).
  assert (Hs1 : shipAt w1 s = Some (Ship.mk size [] [])).
  { unfold shipAt, w1, s. simpl. rewrite lookup_app_r by done.
    by rewrite Nat.sub_diag. }
  assert (Hnp : s ∉ arrayAt w1 (playerShips (game w1))).
  { intros Hin. pose proof (wellFormed_valid_refs w s Hwf (or_introl Hin)). lia. }
  assert (Hnc : s ∉ arrayAt w1 (cpuShips (game w1))).
  { intros Hin. pose proof (wellFormed_valid_refs w s Hwf (or_intror Hin)). lia. }
  unfold bind at 1, getRandomLocation at 1, bind at 1, randomBelow at 1,
    bind at 1, randomBelow at 1, newCoord at 1.
  unfold bind at 1, getRandomDirection at 1, bind at 1, randomBelow at 1,
    ret at 1.
  set (location := mkCoord _ _ _). set (direction := _ !! _).
  set (w3 := mkWorld _ _ _ _ _).
  assert (Hwf3 : wellFormed w3) by (by eapply (wellFormed_ext w1)).
  unfold bind at 1.
  destruct (placeShip s location direction fleet w3) as [[[]|e] w4] eqn:Hplace.
  - apply (placeShip_spec s size) in Hplace as [Hframe (locs & Hs4 & Hnd & Hlen)];
      [|done|lia].
    assert (Hwf4 : wellFormed w4) by (by eapply (wellFormed_onlyShip s w3)).
    destruct Hframe as (Hg & Ha & _ & _).
    intros Hrun. assert (w' = (pushArray fleet s w4).2) as -> by (by rewrite Hrun).
    split; [|simpl; by rewrite Hg].
    eapply (wellFormed_pushArray fleet s); try done.
    + by rewrite Hg.
    + unfold arrayAt. by rewrite Hg, Ha.
    + unfold arrayAt. by rewrite Hg, Ha.
    + split_and!; simpl; [done|done|apply NoDup_nil_2|].
      intros h Hh. by apply elem_of_nil in Hh.
  - apply (placeShip_spec s size) in Hplace as [Hframe _]; [|done|lia].
    intros [= <- <-]. split.
    + by eapply (wellFormed_onlyShip s w3).
    + by destruct Hframe as (-> & _).
Qed.

Lemma placeAttempts_wellFormed (rand : nat → nat) (size : Z) (fleet n : nat)
    (w : World) :
  wellFormed w →
  fleet = playerShips (game w) ∨ fleet = cpuShips (game w) →
  wellFormed (placeAttempts rand size fleet n w).2 ∧
  game (placeAttempts rand size fleet n w).2 = game w.
Proof.
  revert w. induction n as [|n IH]; intros w Hwf Hfleet; simpl; [done|].
  destruct (tryPlaceShip rand size fleet w) as [[[]|e] w1] eqn:Htry;
    apply tryPlaceShip_wellFormed in Htry as [Hwf1 Hg1]; try done.
  destruct (IH w1 Hwf1) as [Hwf2 Hg2]; [by rewrite Hg1|].
  split; [done|congruence].
Qed.

Lemma foldM_invariant {A B} (I : World → Prop) (f : B → A → M B)
    (l : list A) (b : B) (w : World) :
  (∀ b a w, I w → I (f b a w).2) → I w → I (foldM f l b w).2.
Proof.
  intros Hf. revert b w. induction l as [|x l IH]; intros b w Hw; simpl; [done|].
  unfold bind. specialize (Hf b x w Hw).
  destruct (f b x w) as [[b'|e] w1]; simpl in *; [|done].
  by apply IH.
Qed.

Lemma placeFleet_wellFormed (rand : nat → nat) (fleet : nat) (failure : Error)
    (w : World) :
  wellFormed w →
  fleet = playerShips (game w) ∨ fleet = cpuShips (game w) →
  wellFormed (placeFleet rand fleet failure w).2 ∧
  game (placeFleet rand fleet failure w).2 = game w.
Proof.
  intros Hwf Hfleet. unfold placeFleet.
  set (I := λ w' : World, wellFormed w' ∧ game w' = game w).
  apply (foldM_invariant I); [|done].
  intros [] entry w1 Hw1.
  apply (foldM_invariant I); [|done].
  intros [] _ w2 [Hwf2 Hg2].
  unfold bind at 1, get at 1. unfold bind at 1.
  destruct (placeAttempts_wellFormed rand (GameConfig.entry_size entry) fleet
              (maxPlacementAttempts (game w2)) w2 Hwf2) as [Hwf3 Hg3].
  { by rewrite Hg2. }
  destruct (placeAttempts _ _ _ _ w2) as [[placed|e] w3]; simpl in *.
  - destruct placed; simpl; split; congruence.
  - split; congruence.
Qed.

Lemma initialize_wellFormed (rand : nat → nat) (w : World) :
  wellFormed w → wellFormed (initialize rand w).2.
Proof.
  intros Hwf. unfold initialize.
  unfold bind at 1, get at 1.
  destruct (initialized (game w)); [done|].
  unfold bind at 1, placeShips, placeShipsForPlayer, placeShipsForCPU.
  unfold bind at 1. unfold bind at 1, get at 1.
  destruct (placeFleet_wellFormed rand (playerShips (game w)) PlacementExhausted w Hwf)
    as [Hwf1 Hg1]; [by left|].
  destruct (placeFleet rand (playerShips (game w)) PlacementExhausted w)
    as [[[]|e] w1]; simpl in Hwf1, Hg1; [|done].
  unfold bind at 1, get at 1.
  destruct (placeFleet_wellFormed rand (cpuShips (game w1)) PlacementExhaustedCPU w1 Hwf1)
    as [Hwf2 Hg2]; [by right|].
  destruct (placeFleet rand (cpuShips (game w1)) PlacementExhaustedCPU w1)
    as [[[]|e] w2]; simpl in Hwf2, Hg2; [|done].
  unfold bind, modify. simpl.
  by eapply (wellFormed_ext w2).
Qed.

Lemma newGameState_wellFormed : wellFormed newGameState.
Proof.
  unfold wellFormed, fleetsAllocated, fleetConsistent, arrayAt. simpl.
  split_and!; try lia; intros s Hs; by apply elem_of_nil in Hs.
Qed.

(** Every call of the interface keeps the game well formed. *)
Lemma apiStep_wellFormed (rand : nat → nat) (w w' : World) :
  wellFormed w → apiStep rand w w' → wellFormed w'.
Proof.
  intros Hwf Hstep.
  destruct Hstep as [w o w' H | guess w o w' Hid H | fuel w o w' H
                    | w a w' H | w a w' H].
  - pose proof (initialize_wellFormed rand w Hwf) as Hwf'. by rewrite H in Hwf'.
  - destruct (specifiedError w guess) as [e|] eqn:Hspec.
    + rewrite (processPlayerGuess_rejected _ _ _ Hspec) in H. by injection H as _ <-.
    + destruct (processPlayerGuess_succeeds w guess Hwf Hid Hspec)
        as (result & w1 & Hrun & _ & _ & Hwf1).
      rewrite Hrun in H. by injection H as _ <-.
  - by eapply processCPUGuess_wellFormed.
  - eapply wellFormed_sameGame; [|done].
    pose proof (frames_getPlayerShips sameGame sameGame_copyArray w) as HR.
    by rewrite H in HR.
  - eapply wellFormed_sameGame; [|done].
    pose proof (frames_getCPUShips sameGame sameGame_copyArray w) as HR.
    by rewrite H in HR.
Qed.

(** The games reached from [new GameState()] are well formed. *)
Lemma reachable_wellFormed (rand : nat → nat) (w : World) :
  reachable rand w → wellFormed w.
Proof.
  intros Hreach.
  eapply (rtc_ind_r (λ w0, wellFormed w0) newGameState); [| |exact Hreach].
  - apply newGameState_wellFormed.
  - intros w1 w2 _ Hstep IH. by eapply apiStep_wellFormed.
Qed.

(** ** Reaching the concrete games *)

Lemma respectsIdentityb_sound (w : World) (v : JsValue) :
  respectsIdentityb w v = true → respectsIdentity w v.
Proof.
  intros Hb r a b s sh l -> Hsh Hl Hr. simpl in Hb.
  rewrite forallb_forall in Hb.
  assert (Hin : In sh (ships w)).
  { apply list_elem_of_In, list_elem_of_lookup. by exists s. }
  specialize (Hb sh Hin). rewrite forallb_forall in Hb.
  specialize (Hb l (proj1 (list_elem_of_In _ _) Hl)).
  destruct (decide (ref l = r)); [|done].
  by apply bool_decide_eq_true in Hb.
Qed.

Lemma playerGuessesAll_reachable (rand : nat → nat) (guesses : list JsValue)
    (w : World) :
  reachable rand w → respectAll guesses w = true →
  reachable rand (playerGuessesAll guesses w).
Proof.
  revert w. induction guesses as [|g guesses IH]; intros w Hw Hall; simpl in *.
  - done.
  - apply andb_prop in Hall as [Hg Hall]. apply IH; [|done].
    eapply rtc_r; [exact Hw|].
    eapply (step_processPlayerGuess rand g w (processPlayerGuess g w).1).
    + by apply respectsIdentityb_sound.
    + by destruct (processPlayerGuess g w).
Qed.

Lemma initialGame_reachable : reachable rowsOracle initialGame.
Proof.
  eapply rtc_once.
  eapply (step_initialize rowsOracle newGameState
            (initialize rowsOracle newGameState).1).
  unfold initialGame. by destruct (initialize rowsOracle newGameState).
Qed.

Lemma lastCellGame_reachable : reachable rowsOracle lastCellGame.
Proof.
  apply playerGuessesAll_reachable; [apply initialGame_reachable|].
  by vm_compute.
Qed.

Lemma fullBoardGame_reachable : reachable rowsOracle fullBoardGame.
Proof.
  apply playerGuessesAll_reachable; [apply initialGame_reachable|].
  by vm_compute.
Qed.

Lemma lastShipGame_reachable : reachable rowsOracle lastShipGame.
Proof.
  apply playerGuessesAll_reachable; [apply initialGame_reachable|].
  by vm_compute.
Qed.

Lemma firstShipSunkGame_reachable : reachable rowsOracle firstShipSunkGame.
Proof.
  apply playerGuessesAll_reachable; [apply initialGame_reachable|].
  by vm_compute.
Qed.

(** ** A guess with a NaN *)

(** On integer fields the two validations are those of the definitions on
    coordinate objects. *)
Lemma AnyNumber_isValidLocation_ofCoord (c : Coord) :
  AnyNumber.isValidLocation (AnyNumber.ofCoord c) = Ship.isValidLocation c.
Proof.
  unfold AnyNumber.isValidLocation, Ship.isValidLocation. cbn.
  by rewrite !Z.geb_leb.
Qed.

(** On integer fields [#validateGuess] throws exactly when
    [Ship.#isValidLocation] rejects. *)
Lemma AnyNumber_validateGuess_ofCoord (c : Coord) (w : World) :
  AnyNumber.validateGuess (AnyNumber.ofCoord c) w
  = if Ship.isValidLocation c then (Ok tt, w) else (Throw InvalidCoordinates, w).
Proof.
  unfold AnyNumber.validateGuess. cbn.
  rewrite outOfBounds_inBounds, <- isValidLocation_inBounds.
  by destruct (Ship.isValidLocation c).
Qed.

(** With a NaN in a field [Ship.#isValidLocation] rejects the object,
    whatever the other field. *)
Lemma AnyNumber_isValidLocation_NaN (o : AnyNumber.Object) :
  AnyNumber.coordOf o = None → AnyNumber.isValidLocation o = false.
Proof.
  destruct o as [r [a|] [b|]]; cbn; try done.
  intros _. unfold AnyNumber.isValidLocation. cbn. by rewrite andb_false_r.
Qed.

Lemma AnyNumber_hit_ofCoord (sh : Ship.t) (c : Coord) :
  AnyNumber.hit sh (AnyNumber.ofCoord c) = Ship.hit sh c.
Proof.
  unfold AnyNumber.hit, Ship.hit. rewrite AnyNumber_isValidLocation_ofCoord.
  destruct (Ship.isValidLocation c); cbn; [|done].
  change (AnyNumber.isAtLocation sh (AnyNumber.ofCoord c))
    with (Ship.isAtLocation sh c).
  destruct (Ship.isAtLocation sh c); cbn; [|done].
  destruct (Ship.isSunk sh); [done|]. by destruct c.
Qed.

Lemma AnyNumber_hit_NaN (sh : Ship.t) (o : AnyNumber.Object) :
  AnyNumber.coordOf o = None → AnyNumber.hit sh o = Throw InvalidCoordinates.
Proof.
  intros Ho. unfold AnyNumber.hit.
  by rewrite (AnyNumber_isValidLocation_NaN o Ho).
Qed.

(** On a coordinate object [AnyNumber.processPlayerGuess] is
    [processPlayerGuess]. *)
Lemma AnyNumber_processPlayerGuess_ofCoord (c : Coord) (w : World) :
  AnyNumber.processPlayerGuess (AnyNumber.ofCoord c) w
  = match processPlayerGuess (objectOf c) w with
    | (Ok result, w') => (Ok (resultOfNumbers result), w')
    | (Throw e, w') => (Throw e, w')
    end.
Proof.
  destruct c as [r a b].
  unfold AnyNumber.processPlayerGuess, processPlayerGuess, validateGameState,
    AnyNumber.validateGuess, validateGuess, objectOf, bind, get, throw, ret, modify.
  destruct (initialized (game w)); cbn; [|done].
  destruct (isGameOver w); [done|].
  destruct (_ || _); [done|].
  change (AnyNumber.getGuessKey (AnyNumber.mkObject r (AnyNumber.Int a) (AnyNumber.Int b)))
    with (getGuessKey (mkCoord r a b)).
  destruct (StrSet_has _ _); [done|].
  set (c := mkCoord r a b).
  set (w1 := with_game _ w).
  change (AnyNumber.findShipAtLocation w1 (cpuShips (game w)) (AnyNumber.ofCoord c))
    with (findShipAtLocation w1 (cpuShips (game w)) c).
  destruct (findShipAtLocation w1 (cpuShips (game w)) c) as [s|]; [|done].
  unfold callShip. destruct (shipAt w1 s) as [sh|]; [|done].
  rewrite AnyNumber_hit_ofCoord.
  by destruct (Ship.hit sh c).
Qed.

(** A guess with a NaN and a field that [#validateGuess] accepts, in a game
    that is initialized and not over: when no ship of the CPU holds the
    object the call returns a miss, and when one does the guess is recorded
    and the call then throws InvalidCoordinates, from [Ship.hit]. *)
Lemma AnyNumber_processPlayerGuess_NaN (guess : AnyNumber.Object) (w : World) :
  initialized (game w) = true → isGameOver w = false →
  AnyNumber.coordOf guess = None →
  AnyNumber.validateGuess guess w = (Ok tt, w) →
  let key := AnyNumber.getGuessKey guess in
  let w1 := with_game (set_playerGuesses (StrSet_add (playerGuesses (game w)) key)) w in
  AnyNumber.processPlayerGuess guess w
  = if StrSet_has (playerGuesses (game w)) key then (Throw AlreadyGuessed, w)
    else match AnyNumber.findShipAtLocation w (cpuShips (game w)) guess with
         | Some s =>
             (match shipAt w s with
              | Some _ => Throw InvalidCoordinates
              | None => Throw TypeError
              end, w1)
         | None => (Ok (AnyNumber.mkResult "miss" guess), w1)
         end.
Proof.
  intros Hi Ho Hnan Hval key w1.
  unfold AnyNumber.processPlayerGuess, validateGameState, bind, get, throw, ret,
    modify.
  rewrite Hi, Ho. cbn [negb]. rewrite Hval.
  fold key. destruct (StrSet_has (playerGuesses (game w)) key); [done|].
  change (with_game _ w) with w1.
  change (AnyNumber.findShipAtLocation w1 (cpuShips (game w1)) guess)
    with (AnyNumber.findShipAtLocation w (cpuShips (game w)) guess).
  destruct (AnyNumber.findShipAtLocation w (cpuShips (game w)) guess) as [s|];
    [|done].
  unfold callShip. change (shipAt w1 s) with (shipAt w s).
  destruct (shipAt w s) as [sh|]; [|done].
  by rewrite (AnyNumber_hit_NaN sh guess Hnan).
Qed.

(** C9.  The claim fails on the code.  On [initialGame], which is
    initialized, not over and without a guess, the caller passes the
    location object 13 of the CPU's first ship after writing NaN to its
    [row].  [#validateGuess] lets it through, because no comparison with
    NaN is true, while [Ship.#isValidLocation] rejects it; in between the
    key "NaN,0" is recorded and the ship is found by the identity of the
    object.  So [processPlayerGuess] raises InvalidCoordinates, from
    [Ship.hit], and the player's guess set is not what it was before the
    call; the ships and the rest of the game are. *)
Theorem processPlayerGuess_NaN_recorded_then_rejected :
  reachable rowsOracle initialGame ∧
  isInitialized initialGame = true ∧ isGameOver initialGame = false ∧
  playerGuesses (game initialGame) = [] ∧
  AnyNumber.validateGuess nanLocation initialGame = (Ok tt, initialGame) ∧
  AnyNumber.isValidLocation nanLocation = false ∧
  AnyNumber.findShipAtLocation initialGame (cpuShips (game initialGame)) nanLocation
    = Some 3%nat ∧
  AnyNumber.processPlayerGuess nanLocation initialGame
    = (Throw InvalidCoordinates,
       with_game (set_playerGuesses ["NaN,0"]) initialGame) ∧
  with_game (set_playerGuesses ["NaN,0"]) initialGame ≠ initialGame.
Proof.
  split; [exact initialGame_reachable|].
  assert (Hi : initialized (game initialGame) = true) by (vm_compute; reflexivity).
  assert (Ho : isGameOver initialGame = false) by (vm_compute; reflexivity).
  assert (Hg : playerGuesses (game initialGame) = []) by (vm_compute; reflexivity).
  assert (Hval : AnyNumber.validateGuess nanLocation initialGame = (Ok tt, initialGame))
    by reflexivity.
  assert (Hfind : AnyNumber.findShipAtLocation initialGame
                    (cpuShips (game initialGame)) nanLocation = Some 3%nat)
    by (vm_compute; reflexivity).
  split; [exact Hi|]. split; [exact Ho|]. split; [exact Hg|].
  split; [exact Hval|]. split; [reflexivity|]. split; [exact Hfind|].
  split.
  - rewrite (AnyNumber_processPlayerGuess_NaN nanLocation initialGame Hi Ho
               eq_refl Hval).
    rewrite Hg, Hfind. vm_compute. reflexivity.
  - intros Heq. apply (f_equal (λ w, playerGuesses (game w))) in Heq.
    rewrite Hg in Heq. discriminate Heq.
Qed.

(** ** Hits are decided by the identity of the guess object *)

(** A guess object that is none of the location objects of the CPU's ships
    is a miss, wherever it points. *)
Lemma foreign_guess_misses (w w' : World) (c : Coord) (result : GuessResult) :
  (∀ s sh, s ∈ arrayAt w (cpuShips (game w)) → shipAt w s = Some sh →
           ref c ∉ ref <$> Ship.locations sh) →
  processPlayerGuess (objectOf c) w = (Ok result, w') →
  type result = "miss".
Proof.
  intros Hforeign Hrun.
  destruct (specifiedError w (objectOf c)) as [e|] eqn:Hspec.
  - by rewrite (processPlayerGuess_rejected _ _ _ Hspec) in Hrun.
  - destruct (processPlayerGuess_accepted _ _ Hspec) as (c' & Hc & _ & _ & Heq).
    apply objectOf_inj in Hc as <-. rewrite Heq in Hrun. cbv zeta in Hrun.
    destruct (findShipAtLocation _ _ c) as [s|] eqn:Hfind.
    + apply findShipAtLocation_Some in Hfind as (Hs & sh & Hsh & Hat).
      apply ObjSet_has_true in Hat. by destruct (Hforeign s sh Hs Hsh).
    + by injection Hrun as <- _.
Qed.

(** C1.  In the game [initialGame], initialized and not over, a ship of
    the CPU occupies (0,0).  The player's guess is an object of their own
    with row 0 and column 0, in bounds and not guessed before:
    [processPlayerGuess] returns a miss, and no ship is hit. *)
Theorem processPlayerGuess_misses_occupied_cell :
  let w := initialGame in
  let c := mkCoord 1000 0 0 in
  isInitialized w = true ∧ isGameOver w = false ∧
  inBounds (row c) (col c) = true ∧
  StrSet_has (playerGuesses (game w)) (getGuessKey c) = false ∧
  (∃ s sh l, s ∈ arrayAt w (cpuShips (game w)) ∧ shipAt w s = Some sh ∧
             l ∈ Ship.locations sh ∧ sameCell l c) ∧
  ∃ w', processPlayerGuess (objectOf c) w
          = (Ok {| type := "miss"; coordinates := c |}, w') ∧
        ships w' = ships w.
Proof.
  split_and!; try by vm_compute.
  - exists 3%nat, (Ship.mk 3 [mkCoord 13 0 0; mkCoord 14 0 1; mkCoord 15 0 2] []),
      (mkCoord 13 0 0).
    split_and!; try by vm_compute.
    + apply list_elem_of_In. vm_compute. tauto.
    + apply list_elem_of_In. vm_compute. tauto.
  - exists (recordPlayerGuess (mkCoord 1000 0 0) initialGame).
    split; vm_compute; reflexivity.
Qed.

(** C3.  Under [stackedOracle], [initialize()] returns, and the three ships
    of the player's fleet occupy the same three cells: [isAtLocation]
    compares the new location objects with the objects of the ships placed
    before, which they never are. *)
Theorem initialize_places_overlapping_ships :
  ∃ w, initialize stackedOracle newGameState = (Ok tt, w) ∧
       arrayAt w (playerShips (game w)) = [0; 1; 2]%nat ∧
       ∀ s, s ∈ arrayAt w (playerShips (game w)) →
         ∃ sh, shipAt w s = Some sh ∧
               (λ l, (row l, col l)) <$> Ship.locations sh
                 = [(0, 0); (0, 1); (0, 2)].
Proof.
  exists (initialize stackedOracle newGameState).2.
  split; [vm_compute; reflexivity|]. split; [vm_compute; reflexivity|].
  intros s Hs. apply list_elem_of_In in Hs. vm_compute in Hs.
  destruct Hs as [<-|[<-|[<-|[]]]];
    (eexists; split; [vm_compute; reflexivity|vm_compute; reflexivity]).
Qed.

(** C2.  [makeGuess] asks [isCellGuessed], which consults the player's
    guesses.  After one call of [processCPUGuess] on [initialGame] the CPU
    has guessed (0,0) and nothing else, and [makeGuess] returns (0,0)
    again.  On [fullBoardGame], where the player has guessed every cell and
    the CPU none, [makeGuess] returns [undefined] whatever [Math.random]
    yields. *)
Theorem makeGuess_ignores_cpu_guesses :
  (processCPUGuess rowsOracle 1 initialGame
     = Some (Ok {| type := "miss"; coordinates := mkCoord 24 0 0 |},
             afterCpuGuess) ∧
   cpuGuesses (game afterCpuGuess) = ["0,0"] ∧
   gameAI (game afterCpuGuess) = Some GameAI.new ∧
   (GameAI.makeGuess rowsOracle GameAI.new afterCpuGuess).1
     = Ok (GameAI.new, Some (mkCoord 124 0 0)) ∧
   StrSet_has (cpuGuesses (game afterCpuGuess)) (getGuessKey (mkCoord 124 0 0))
     = true)
  ∧ (cpuGuesses (game fullBoardGame) = [] ∧
     gameAI (game fullBoardGame) = Some GameAI.new ∧
     ∀ rand, (GameAI.makeGuess rand GameAI.new fullBoardGame).1
               = Ok (GameAI.new, None)).
Proof.
  split.
  - split_and!; vm_compute; reflexivity.
  - split_and!; [vm_compute; reflexivity..|].
    intros rand. vm_compute. reflexivity.
Qed.

(** ** What [makeGuess] does return *)

Lemma foldM_result {A B} (J : B → World → Prop) (f : B → A → M B)
    (l : list A) (b b' : B) (w w' : World) :
  (∀ b a w b' w', J b w → a ∈ l → f b a w = (Ok b', w') → J b' w') →
  J b w → foldM f l b w = (Ok b', w') → J b' w'.
Proof.
  revert b w. induction l as [|x l IH]; intros b w Hf Hb; simpl.
  - by intros [= <- <-].
  - unfold bind. destruct (f b x w) as [[b1|e] w1] eqn:Hfx; [|done].
    apply IH.
    + intros b0 a w0 b0' w0' HJ Ha. apply Hf; [done|by right].
    + eapply Hf; [exact Hb|by left|exact Hfx].
Qed.

Lemma getAvailableCells_valid (w w' : World) (cells : list Coord) :
  GameAI.getAvailableCells w = (Ok cells, w') →
  game w' = game w ∧
  ∀ c, c ∈ cells →
    inBounds (row c) (col c) = true ∧ isCellGuessed (game w) c = false.
Proof.
  unfold GameAI.getAvailableCells.
  set (J := λ (cells : list Coord) (w1 : World),
         game w1 = game w ∧
         ∀ c, c ∈ cells →
           inBounds (row c) (col c) = true ∧ isCellGuessed (game w) c = false).
  apply (foldM_result J).
  - intros cells0 r w0 cells1 w1 HJ0 Hr.
    apply (foldM_result J); [|done].
    intros cells2 c w2 cells3 w3 [Hg2 HJ2] Hc.
    unfold bind, newCoord, get, ret. simpl.
    intros [= <- <-]. split; [done|]. rewrite Hg2.
    destruct (isCellGuessed (game w) _) eqn:Hguessed; [done|].
    intros c' Hc'. apply elem_of_app in Hc' as [Hc'|Hc']; [by apply HJ2|].
    apply list_elem_of_singleton in Hc' as ->. split; [|done].
    apply elem_of_seqZ in Hr, Hc. unfold inBounds. simpl.
    destruct (Z.leb_spec 0 r), (Z.ltb_spec r GameConfig.BOARD_SIZE),
      (Z.leb_spec 0 c), (Z.ltb_spec c GameConfig.BOARD_SIZE); simpl; try done; lia.
  - split; [done|]. intros c Hc. by apply elem_of_nil in Hc.
Qed.

Lemma getRandomGuess_valid (rand : nat → nat) (w w' : World) (g : Coord) :
  GameAI.getRandomGuess rand w = (Ok (Some g), w') →
  inBounds (row g) (col g) = true ∧ isCellGuessed (game w) g = false.
Proof.
  unfold GameAI.getRandomGuess. unfold bind at 1.
  destruct (GameAI.getAvailableCells w) as [[cells|e] w1] eqn:Hcells; [|done].
  apply getAvailableCells_valid in Hcells as [_ Hvalid].
  unfold bind, randomBelow, ret. intros [= Hlook _].
  apply Hvalid. by eapply list_elem_of_lookup_2.
Qed.

Lemma isValidGuess_spec (guess : option Coord) (w : World) :
  GameAI.isValidGuess guess w =
    (Ok match guess with
        | Some g => inBounds (row g) (col g) && negb (isCellGuessed (game w) g)
        | None => false
        end, w).
Proof. by destruct guess. Qed.

Lemma getGuessInDirection_game (this : AIFields) (d : option Direction) (w : World) :
  game (GameAI.getGuessInDirection this d w).2 = game w.
Proof.
  by destruct (frames_getGuessInDirection sameGame sameGame_newCoord this d w)
    as (_ & _ & ?).
Qed.

Lemma tryDirections_valid (rand : nat → nat) (this : AIFields)
    (dirs : list Direction) (w w' : World) (d : Direction) (guess : option Coord) :
  GameAI.tryDirections this dirs w = (Ok (Some (d, guess)), w') →
  ∃ g, guess = Some g ∧
       inBounds (row g) (col g) = true ∧ isCellGuessed (game w) g = false.
Proof.
  revert w. induction dirs as [|d0 dirs IH]; intros w; simpl; [done|].
  unfold bind at 1.
  pose proof (getGuessInDirection_game this (Some d0) w) as Hg.
  destruct (GameAI.getGuessInDirection this (Some d0) w) as [[guess0|e] w1];
    [|done].
  cbn [snd] in Hg. unfold bind at 1. rewrite isValidGuess_spec.
  destruct guess0 as [g|]; simpl.
  - destruct (inBounds (row g) (col g)) eqn:Hb; simpl.
    + destruct (isCellGuessed (game w1) g) eqn:Hc; simpl.
      * intros Hrec. apply IH in Hrec as (g' & -> & ? & ?).
        exists g'. by rewrite <- Hg.
      * intros [= <- <- <-]. exists g. by rewrite <- Hg.
    + intros Hrec. apply IH in Hrec as (g' & -> & ? & ?).
      exists g'. by rewrite <- Hg.
  - intros Hrec. apply IH in Hrec as (g' & -> & ? & ?).
    exists g'. by rewrite <- Hg.
Qed.

Lemma searchDirections_valid (rand : nat → nat) (this this' : AIFields)
    (w w' : World) (g : Coord) :
  GameAI.searchDirections rand this w = (Ok (this', Some g), w') →
  inBounds (row g) (col g) = true ∧ isCellGuessed (game w) g = false.
Proof.
  unfold GameAI.searchDirections. unfold bind at 1.
  pose proof (frames_tryDirections sameGame sameGame_newCoord rand this
                (possibleDirections this) w) as (_ & _ & Hg).
  destruct (GameAI.tryDirections this (possibleDirections this) w)
    as [[[[d guess]|]|e] w1] eqn:Htry; [| |done].
  - apply (tryDirections_valid rand) in Htry as (g' & -> & Hb & Hc).
    unfold ret. by intros [= _ <- _].
  - cbn [snd] in Hg. unfold bind.
    destruct (GameAI.getRandomGuess rand w1) as [[guess|e] w2] eqn:Hrnd; [|done].
    unfold ret. intros [= _ -> _].
    apply getRandomGuess_valid in Hrnd. by rewrite Hg in Hrnd.
Qed.

(** Whatever [makeGuess] returns is [undefined] or a cell inside the board
    that [isCellGuessed] does not report: one the player has not guessed. *)
Lemma makeGuess_valid (rand : nat → nat) (this this' : AIFields)
    (w w' : World) (g : Coord) :
  GameAI.makeGuess rand this w = (Ok (this', Some g), w') →
  inBounds (row g) (col g) = true ∧
  getGuessKey g ∉ playerGuesses (game w).
Proof.
  intros Hrun.
  enough (inBounds (row g) (col g) = true ∧ isCellGuessed (game w) g = false)
    as [Hb Hc].
  { split; [done|]. by apply StrSet_has_false. }
  revert Hrun. unfold GameAI.makeGuess, GameAI.getHuntGuess.
  destruct (lastHit this) as [h|].
  - destruct (currentDirection this) as [d|] eqn:Hd.
    + unfold bind at 1, GameAI.getNextGuessInDirection.
      pose proof (getGuessInDirection_game this (currentDirection this) w) as Hg.
      destruct (GameAI.getGuessInDirection this (currentDirection this) w)
        as [[guess|e] w1]; [|done].
      cbn [snd] in Hg. unfold bind at 1. rewrite isValidGuess_spec.
      destruct guess as [g0|]; simpl.
      * destruct (inBounds (row g0) (col g0)) eqn:Hb; simpl.
        -- destruct (isCellGuessed (game w1) g0) eqn:Hc; simpl.
           ++ intros Hs. apply searchDirections_valid in Hs. by rewrite Hg in Hs.
           ++ unfold ret. intros [= _ <- _]. by rewrite <- Hg.
        -- intros Hs. apply searchDirections_valid in Hs. by rewrite Hg in Hs.
      * intros Hs. apply searchDirections_valid in Hs. by rewrite Hg in Hs.
    + by apply searchDirections_valid.
  - unfold bind.
    destruct (GameAI.getRandomGuess rand w) as [[guess|e] w1] eqn:Hrnd; [|done].
    unfold ret. intros [= _ -> _]. by apply getRandomGuess_valid in Hrnd.
Qed.

(** ** What a CPU turn that returns has done *)

Lemma aiUpdateState_cpuGuesses (guess : Coord) (result : string) (w : World) :
  cpuGuesses (game (aiUpdateState guess result w).2) = cpuGuesses (game w).
Proof.
  unfold aiUpdateState, bind, get, throw, modify.
  destruct (gameAI (game w)) as [ai|]; [|done].
  pose proof (frames_updateState sameGame sameGame_copyArray ai guess result w)
    as (_ & _ & Hg).
  destruct (GameAI.updateState ai guess result w) as [[ai'|e] w1]; simpl in *;
    by rewrite Hg.
Qed.

Lemma callShip_game (s : nat) (method : Ship.t → Outcome Ship.t) (w : World) :
  game (callShip s method w).2 = game w.
Proof.
  unfold callShip. destruct (shipAt w s) as [sh|]; [|done].
  by destruct (method sh).
Qed.

(** An activation that returns a result returns a coordinate that was not
    in the CPU's guess set and now is; an activation that calls the next
    one leaves the set as it was. *)
Lemma cpuTurn_guess (rand : nat → nat) (w w' : World) (o : option GuessResult) :
  cpuTurn rand w = (Ok o, w') →
  match o with
  | Some result =>
      (getGuessKey (coordinates result) ∉ cpuGuesses (game w)) ∧
      getGuessKey (coordinates result) ∈ cpuGuesses (game w')
  | None => cpuGuesses (game w') = cpuGuesses (game w)
  end.
Proof.
  unfold cpuTurn.
  unfold bind at 1.
  pose proof (validateGameState_world w) as Hv.
  destruct (validateGameState w) as [[[]|e] w0]; simpl in Hv; subst w0; [|done].
  unfold bind at 1, get at 1.
  destruct (gameAI (game w)) as [ai|]; [|done].
  unfold bind at 1.
  pose proof (frames_makeGuess sameGame sameGame_newCoord sameGame_randomBelow
                rand ai w) as (_ & _ & Hg1).
  destruct (GameAI.makeGuess rand ai w) as [[[ai' guess]|e] w1]; [|done].
  cbn [snd] in Hg1.
  unfold bind at 1, modify at 1.
  set (w2 := with_game (set_gameAI (Some ai')) w1).
  assert (Hg2 : cpuGuesses (game w2) = cpuGuesses (game w))
    by (unfold w2; simpl; by rewrite Hg1).
  destruct guess as [g|]; [|done].
  unfold bind at 1, get at 1.
  destruct (StrSet_has (cpuGuesses (game w2)) (getGuessKey g)) eqn:Hhas.
  { intros [= <- <-]. done. }
  apply StrSet_has_false in Hhas. rewrite Hg2 in Hhas.
  unfold bind at 1, modify at 1.
  set (w3 := with_game _ w2).
  assert (Hin3 : getGuessKey g ∈ cpuGuesses (game w3)).
  { unfold w3. simpl. apply StrSet_add_has. }
  unfold bind at 1, get at 1.
  destruct (findShipAtLocation w3 (playerShips (game w3)) g) as [s|].
  - unfold bind at 1.
    pose proof (callShip_game s (λ sh, Ship.hit sh g) w3) as Hg4.
    destruct (callShip s _ w3) as [[[]|e] w4]; cbn [snd] in Hg4; [|done].
    unfold bind at 1.
    pose proof (aiUpdateState_cpuGuesses g "hit" w4) as Hg5.
    destruct (aiUpdateState g "hit" w4) as [[[]|e] w5]; cbn [snd] in Hg5; [|done].
    intros [= <- <-]. simpl. split; [done|]. by rewrite Hg5, Hg4.
  - unfold bind at 1.
    pose proof (aiUpdateState_cpuGuesses g "miss" w3) as Hg5.
    destruct (aiUpdateState g "miss" w3) as [[[]|e] w5]; cbn [snd] in Hg5; [|done].
    intros [= <- <-]. simpl. split; [done|]. by rewrite Hg5.
Qed.

(** Whenever [processCPUGuess] returns a result, its coordinate was not in
    the CPU's guess set before the call and is in it after the call. *)
Lemma processCPUGuess_result (rand : nat → nat) (fuel : nat) (w w' : World)
    (result : GuessResult) :
  processCPUGuess rand fuel w = Some (Ok result, w') →
  (getGuessKey (coordinates result) ∉ cpuGuesses (game w)) ∧
  getGuessKey (coordinates result) ∈ cpuGuesses (game w').
Proof.
  revert w. induction fuel as [|fuel IH]; intros w; simpl; [done|].
  pose proof (cpuTurn_guess rand w) as Hturn.
  destruct (cpuTurn rand w) as [[[r|]|e] w1].
  - intros [= <- <-]. by apply (Hturn w1 (Some r)).
  - intros Hrec. specialize (Hturn w1 None eq_refl). simpl in Hturn.
    rewrite <- Hturn. by apply IH.
  - done.
Qed.

(** ** A CPU turn that never ends *)

Lemma cpuTurn_stuckGame (rand : nat → nat) (k m : nat) :
  cpuTurn rand (stuckGame k m) = (Ok None, stuckGame (S k) (100 + m)).
Proof. vm_compute. reflexivity. Qed.

Lemma processCPUGuess_stuckGame (rand : nat → nat) (fuel k m : nat) :
  processCPUGuess rand fuel (stuckGame k m) = None.
Proof.
  revert k m. induction fuel as [|fuel IH]; intros k m; [done|].
  cbn [processCPUGuess]. rewrite cpuTurn_stuckGame. apply IH.
Qed.

(** C4.  On [lastCellGame] the first call of [processCPUGuess] guesses
    (0,0), the only cell the player has not guessed.  The game is then
    initialized and not over, and 99 cells are not in the CPU's guess set,
    (0,1) among them.  The next call never returns: every AI guess is
    (0,0) again, whatever [Math.random] yields, and every activation calls
    the next one. *)
Theorem processCPUGuess_never_returns :
  ∃ r w,
    processCPUGuess rowsOracle 1 lastCellGame = Some (Ok r, w) ∧
    reachable rowsOracle w ∧
    isInitialized w = true ∧ isGameOver w = false ∧
    cpuGuesses (game w) = ["0,0"] ∧
    StrSet_has (cpuGuesses (game w)) (getGuessKey (mkCoord 0 0 1)) = false ∧
    ∀ rand fuel, processCPUGuess rand fuel w = None.
Proof.
  exists {| type := "miss"; coordinates := mkCoord 24 0 0 |}, (stuckGame 19 124).
  assert (Hrun : processCPUGuess rowsOracle 1 lastCellGame
                 = Some (Ok {| type := "miss"; coordinates := mkCoord 24 0 0 |},
                         stuckGame 19 124))
    by (vm_compute; reflexivity).
  split_and!; [exact Hrun| |vm_compute; reflexivity..|].
  - eapply rtc_r; [apply lastCellGame_reachable|].
    eapply (step_processCPUGuess rowsOracle 1). exact Hrun.
  - intros rand fuel. apply processCPUGuess_stuckGame.
Qed.

(** ** The getters *)

Lemma arrayAt_mutateArray_ne (w : World) (a b : nat) (f : list nat → list nat) :
  a ≠ b → arrayAt (mutateArray a f w).2 b = arrayAt w b.
Proof.
  intros Hne. unfold arrayAt, mutateArray, modify. simpl.
  by rewrite list_lookup_insert_ne.
Qed.

Lemma arrayAt_copyArray_old (w : World) (fleet b : nat) :
  (b < length (arrays w))%nat → arrayAt (copyArray fleet w).2 b = arrayAt w b.
Proof.
  intros Hb. unfold arrayAt, copyArray. simpl. by rewrite lookup_app_l.
Qed.

Lemma arrayAt_copyArray_new (w : World) (fleet : nat) :
  arrayAt (copyArray fleet w).2 (length (arrays w)) = arrayAt w fleet.
Proof.
  unfold arrayAt at 1, copyArray. simpl. rewrite lookup_app_r by done.
  by rewrite Nat.sub_diag.
Qed.

Lemma copyArray_copiesArrayOnly (getter : M nat) (fleet : nat) (w : World) :
  fleetsAllocated w →
  fleet = playerShips (game w) ∨ fleet = cpuShips (game w) →
  getter w = copyArray fleet w →
  copiesArrayOnly getter fleet w.
Proof.
  intros (Hap & Hac & Hne) Hfleet Hget.
  assert (Hf : (fleet < length (arrays w))%nat) by (by destruct Hfleet as [-> | ->]).
  exists (length (arrays w)), (copyArray fleet w).2.
  split; [by rewrite Hget|].
  split; [lia|]. split; [lia|].
  split; [apply arrayAt_copyArray_new|].
  split; [done|]. split; [done|]. split.
  - intros f w2. subst w2.
    assert (Hg : game (mutateArray (length (arrays w)) f (copyArray fleet w).2).2
                 = game w) by done.
    rewrite Hg.
    rewrite !arrayAt_mutateArray_ne by lia.
    rewrite !arrayAt_copyArray_old by done. done.
  - intros s method sh sh' Hs Hsh Hm w2. subst w2.
    rewrite arrayAt_copyArray_new in Hs.
    assert (Hcall : callShip s method (copyArray fleet w).2
                    = (Ok tt, with_ships (λ l, <[s:=sh']> l) (copyArray fleet w).2)).
    { unfold callShip, shipAt. simpl. unfold shipAt in Hsh. by rewrite Hsh, Hm. }
    rewrite Hcall. split.
    + unfold arrayAt. simpl. by rewrite lookup_app_l.
    + unfold shipAt. simpl. apply list_lookup_insert_eq. by eapply lookup_lt_Some.
Qed.

(** C8, as the code has it.  In a game whose two fleets are arrays that
    exist, [getPlayerShips()] and [getCPUShips()] return a new array with
    the references of the fleet: adding, removing or replacing elements of
    the returned array leaves both fleets, every ship and the fields of
    the game as they were.  The ships themselves are shared: a method
    called on an element of the returned array acts on the ship of the
    fleet. *)
Theorem getters_copy_the_array_only (w : World) :
  fleetsAllocated w →
  copiesArrayOnly getPlayerShips (playerShips (game w)) w ∧
  copiesArrayOnly getCPUShips (cpuShips (game w)) w.
Proof.
  intros Halloc. split; apply copyArray_copiesArrayOnly; try done.
  - by left.
  - by right.
Qed.

(** The getters on [initialGame]. *)
Lemma getters_copy_the_array_only_witness :
  fleetsAllocated initialGame ∧
  copiesArrayOnly getPlayerShips (playerShips (game initialGame)) initialGame ∧
  copiesArrayOnly getCPUShips (cpuShips (game initialGame)) initialGame.
Proof.
  assert (H : fleetsAllocated initialGame).
  { unfold fleetsAllocated. vm_compute. split_and!; [lia|lia|discriminate]. }
  split; [exact H|]. exact (getters_copy_the_array_only initialGame H).
Defined.

(** C8, as stated, fails on [initialGame]: [getCPUShips()] returns the
    array 2, whose first element is the ship 3 of the CPU's fleet; a [hit]
    called on that element is recorded in the ship of the fleet. *)
Lemma getCPUShips_shares_ships :
  let c := mkCoord 13 0 0 in
  ∃ w1 w2 sh sh',
    getCPUShips initialGame = (Ok 2%nat, w1) ∧
    arrayAt w1 2 = [3; 4; 5]%nat ∧
    arrayAt initialGame (cpuShips (game initialGame)) = [3; 4; 5]%nat ∧
    callShip 3 (λ sh, Ship.hit sh c) w1 = (Ok tt, w2) ∧
    shipAt initialGame 3 = Some sh ∧ Ship.hits sh = [] ∧
    arrayAt w2 (cpuShips (game w2)) = [3; 4; 5]%nat ∧
    shipAt w2 3 = Some sh' ∧ Ship.hits sh' = [c] ∧
    shipAt w2 3 ≠ shipAt initialGame 3.
Proof.
  exists (getCPUShips initialGame).2,
    (callShip 3 (λ sh, Ship.hit sh (mkCoord 13 0 0)) (getCPUShips initialGame).2).2,
    (Ship.mk 3 [mkCoord 13 0 0; mkCoord 14 0 1; mkCoord 15 0 2] []),
    (Ship.mk 3 [mkCoord 13 0 0; mkCoord 14 0 1; mkCoord 15 0 2] [mkCoord 13 0 0]).
  split_and!; try (vm_compute; reflexivity).
  vm_compute. discriminate.
Qed.

(** ** The checks of [processPlayerGuess], and a guess made twice *)

Lemma specifiedError_None (w : World) (c : Coord) :
  initialized (game w) = true → isGameOver w = false →
  inBounds (row c) (col c) = true →
  getGuessKey c ∉ playerGuesses (game w) →
  specifiedError w (objectOf c) = None.
Proof.
  intros Hi Ho Hb Hk. unfold specifiedError, objectOf.
  rewrite Hi, Ho, Hb. simpl.
  rewrite bool_decide_eq_false_2; [done|]. by destruct c.
Qed.

Lemma specifiedError_guessed (w : World) (c : Coord) :
  initialized (game w) = true →
  inBounds (row c) (col c) = true →
  getGuessKey c ∈ playerGuesses (game w) →
  specifiedError w (objectOf c)
    = Some (if isGameOver w then GameOver else AlreadyGuessed).
Proof.
  intros Hi Hb Hk. unfold specifiedError, objectOf.
  rewrite Hi, Hb. simpl. destruct (isGameOver w); [done|].
  rewrite bool_decide_eq_true_2; [done|]. by destruct c.
Qed.

Lemma sameCell_key (c c' : Coord) : sameCell c c' → getGuessKey c' = getGuessKey c.
Proof. intros [Hr Hc]. unfold getGuessKey. by rewrite Hr, Hc. Qed.

(** C7, as the code has it.  In a game reached from [new GameState()]
    through the methods of [GameState] alone, for a guess whose fields are
    integers or no numbers and that is an object in the sense of
    [respectsIdentity] (the caller has not written to a location object of
    a ship):
    - if the game is initialized and not over and [c] is in bounds and not
      yet guessed, [processPlayerGuess(c)] does not raise; after it, and
      after whatever further calls, [processPlayerGuess] on a coordinate
      with the row and column of [c] raises AlreadyGuessed while the game
      is not over, and GameOver once it is over;
    - the call raises the first of NotInitialized, GameOver,
      InvalidCoordinates and AlreadyGuessed whose condition holds, leaving
      the world as it was, and raises nothing when none holds. *)
Theorem processPlayerGuess_checks (rand : nat → nat) (w : World) (guess : JsValue) :
  reachable rand w → respectsIdentity w guess →
  (∀ c, guess = objectOf c →
        initialized (game w) = true → isGameOver w = false →
        inBounds (row c) (col c) = true →
        getGuessKey c ∉ playerGuesses (game w) →
        ∃ result w1,
          processPlayerGuess guess w = (Ok result, w1) ∧
          coordinates result = c ∧
          ∀ w2 c', rtc (apiStep rand) w1 w2 → sameCell c c' →
            processPlayerGuess (objectOf c') w2
              = (Throw (if isGameOver w2 then GameOver else AlreadyGuessed), w2))
  ∧ (∀ e, specifiedError w guess = Some e →
          processPlayerGuess guess w = (Throw e, w))
  ∧ (specifiedError w guess = None →
     ∃ result w1, processPlayerGuess guess w = (Ok result, w1)).
Proof.
  intros Hreach Hid.
  pose proof (reachable_wellFormed rand w Hreach) as Hwf.
  split_and!.
  - intros c -> Hi Ho Hb Hk.
    pose proof (specifiedError_None w c Hi Ho Hb Hk) as Hspec.
    destruct (processPlayerGuess_succeeds w _ Hwf Hid Hspec)
      as (result & w1 & Hrun & Hc & Hkey & _).
    apply objectOf_inj in Hc.
    exists result, w1. split_and!; [done..|].
    intros w2 c' Hlater Hsame.
    apply processPlayerGuess_rejected, specifiedError_guessed.
    + pose proof (frames_processPlayerGuess gameGrows gameGrows_callShip
                    gameGrows_recordPlayerGuess (objectOf c) w) as [Hi1 _].
      rewrite Hrun in Hi1. simpl in Hi1.
      destruct (later_gameGrows rand w1 w2 Hlater) as [Hi2 _]. auto.
    + destruct Hsame as [<- <-]. done.
    + rewrite (sameCell_key _ _ Hsame).
      destruct (later_gameGrows rand w1 w2 Hlater) as [_ Hsub].
      apply Hsub. by rewrite Hc.
  - apply processPlayerGuess_rejected.
  - intros Hspec.
    destruct (processPlayerGuess_succeeds w _ Hwf Hid Hspec)
      as (result & w1 & Hrun & _). by exists result, w1.
Qed.

(** The first guess on [initialGame], with the object of the CPU's first
    ship at (0,0). *)
Lemma processPlayerGuess_checks_witness :
  let c := mkCoord 13 0 0 in
  reachable rowsOracle initialGame ∧
  respectsIdentity initialGame (objectOf c) ∧
  ∃ result w1,
    processPlayerGuess (objectOf c) initialGame = (Ok result, w1) ∧
    coordinates result = c ∧
    ∀ w2 c', rtc (apiStep rowsOracle) w1 w2 → sameCell c c' →
      processPlayerGuess (objectOf c') w2
        = (Throw (if isGameOver w2 then GameOver else AlreadyGuessed), w2).
Proof.
  intros c.
  pose proof initialGame_reachable as Hreach.
  assert (Hid : respectsIdentity initialGame (objectOf c)).
  { apply respectsIdentityb_sound. vm_compute. reflexivity. }
  split; [exact Hreach|]. split; [exact Hid|].
  destruct (processPlayerGuess_checks rowsOracle initialGame (objectOf c)
              Hreach Hid) as [Hfirst _].
  apply (Hfirst c).
  - reflexivity.
  - vm_compute. reflexivity.
  - vm_compute. reflexivity.
  - vm_compute. reflexivity.
  - apply StrSet_has_false. vm_compute. reflexivity.
Defined.

(** C7, as stated, fails in two ways.  On [lastShipGame] one location of
    the CPU's fleet is left, the object 23 at (2,2): the first
    [processPlayerGuess] on it is a hit and ends the game, and the second
    raises GameOver, not AlreadyGuessed.  On [sunkThroughGetter] a ship of
    the CPU was sunk by calling [hit] on the ship [getCPUShips()] returns:
    the game is initialized and not over and (0,0) was never guessed, yet
    the first [processPlayerGuess] on the ship's object at (0,0) raises
    the ship's own error, after recording the guess. *)
Lemma processPlayerGuess_other_errors :
  (let c := mkCoord 23 2 2 in
   let w1 := (processPlayerGuess (objectOf c) lastShipGame).2 in
   reachable rowsOracle lastShipGame ∧
   respectsIdentity lastShipGame (objectOf c) ∧
   initialized (game lastShipGame) = true ∧ isGameOver lastShipGame = false ∧
   inBounds (row c) (col c) = true ∧
   StrSet_has (playerGuesses (game lastShipGame)) (getGuessKey c) = false ∧
   processPlayerGuess (objectOf c) lastShipGame
     = (Ok {| type := "hit"; coordinates := c |}, w1) ∧
   processPlayerGuess (objectOf c) w1 = (Throw GameOver, w1) ∧
   processPlayerGuess (objectOf c) w1 ≠ (Throw AlreadyGuessed, w1))
  ∧
  (let c := mkCoord 13 0 0 in
   let w := sunkThroughGetter in
   respectsIdentity w (objectOf c) ∧
   initialized (game w) = true ∧ isGameOver w = false ∧
   inBounds (row c) (col c) = true ∧
   playerGuesses (game w) = [] ∧
   specifiedError w (objectOf c) = None ∧
   processPlayerGuess (objectOf c) w = (Throw AlreadySunk, recordPlayerGuess c w)).
Proof.
  split.
  - intros c w1.
    assert (Hover : processPlayerGuess (objectOf c) w1 = (Throw GameOver, w1))
      by (vm_compute; reflexivity).
    split_and!; try (vm_compute; reflexivity).
    + apply lastShipGame_reachable.
    + apply respectsIdentityb_sound. vm_compute. reflexivity.
    + rewrite Hover. discriminate.
  - intros c w.
    split_and!; try (vm_compute; reflexivity).
    apply respectsIdentityb_sound. vm_compute. reflexivity.
Qed.

(** Why the guess is an object in the sense of [respectsIdentity].  On
    [firstShipSunkGame], reached through [processPlayerGuess] alone, the
    caller writes (5,5) to the location object 13 of the sunk ship and
    guesses it: none of the four checks fails, the guess is recorded, and
    the ship, found by the identity of the object, raises its own error. *)
Lemma processPlayerGuess_rewritten_object :
  let guess := JObject 13 (JNum 5) (JNum 5) in
  let w := firstShipSunkGame in
  reachable rowsOracle w ∧
  ¬ respectsIdentity w guess ∧
  specifiedError w guess = None ∧
  processPlayerGuess guess w
    = (Throw AlreadySunk, recordPlayerGuess (mkCoord 13 5 5) w).
Proof.
  intros guess w. split_and!.
  - exact firstShipSunkGame_reachable.
  - intros Hid.
    assert (Hs : ∃ sh, shipAt w 3 = Some sh ∧ mkCoord 13 0 0 ∈ Ship.locations sh).
    { eexists. split; [vm_compute; reflexivity|]. apply elem_of_cons. by left. }
    destruct Hs as (sh & Hsh & Hl).
    specialize (Hid 13%nat (JNum 5) (JNum 5) 3%nat sh (mkCoord 13 0 0)
                    eq_refl Hsh Hl eq_refl).
    discriminate Hid.
  - vm_compute. reflexivity.
  - vm_compute. reflexivity.
Qed.

(** Why the fields of the guess are integers, or no numbers.  An object of
    the caller's own with a NaN passes [#validateGuess]: on [initialGame]
    the call raises nothing, records "NaN,0" and returns a miss. *)
Lemma processPlayerGuess_NaN_accepted :
  AnyNumber.processPlayerGuess nanGuess initialGame
    = (Ok (AnyNumber.mkResult "miss" nanGuess),
       with_game (set_playerGuesses ["NaN,0"]) initialGame).
Proof. vm_compute. reflexivity. Qed.

(** * Further properties *)

(** ** Ships under any sequence of calls *)

Lemma ObjSet_add_refs (s : ObjSet) (x : Coord) (r : nat) :
  r ∈ ref <$> ObjSet_add s x ↔ r = ref x ∨ r ∈ ref <$> s.
Proof.
  destruct (decide (ref x ∈ ref <$> s)) as [Hin|Hin].
  - rewrite ObjSet_add_old by done. split; [by right|]. by intros [->|?].
  - rewrite ObjSet_add_new by done. rewrite fmap_app, elem_of_app. simpl.
    rewrite list_elem_of_singleton. tauto.
Qed.

Lemma ObjSet_add_length (s : ObjSet) (x : Coord) :
  length (ObjSet_add s x) = (length s + if ObjSet_has s x then 0 else 1)%nat.
Proof.
  unfold ObjSet_add. destruct (ObjSet_has s x); [lia|].
  rewrite length_app. simpl. lia.
Qed.

Lemma new_shipInvariant (n : Z) (sh : Ship.t) :
  Ship.new n = Ok sh → shipInvariant sh ∧ Ship.size sh = n.
Proof.
  intros Hnew. apply new_Ok in Hnew as [-> Hn]. split; [|done].
  split_and!; simpl; try done; try apply NoDup_nil_2; try lia.
  intros l Hl. by apply elem_of_nil in Hl.
Qed.

Lemma shipCall_invariant (sh : Ship.t) (c : ShipCall) :
  shipInvariant sh →
  shipInvariant (shipCall sh c) ∧ Ship.size (shipCall sh c) = Ship.size sh.
Proof.
  intros (Hl & Hh & Hsub & Hb & Hlen). unfold shipCall.
  destruct c as [l|l].
  - unfold Ship.addLocation. rewrite isValidLocation_inBounds.
    destruct (inBounds (row l) (col l)) eqn:Hbl; simpl; [|done].
    split; [|done]. split_and!; simpl; try done.
    + by apply ObjSet_add_NoDup.
    + intros r Hr. apply ObjSet_add_refs. right. by apply Hsub.
    + intros l' Hl'. unfold ObjSet_add in Hl'.
      destruct (ObjSet_has _ _); [by apply Hb|].
      apply elem_of_app in Hl' as [?|Hl']; [by apply Hb|].
      by apply list_elem_of_singleton in Hl' as ->.
  - unfold Ship.hit. rewrite isValidLocation_inBounds.
    destruct (inBounds (row l) (col l)); simpl; [|done].
    destruct (Ship.isAtLocation sh l) eqn:Hat; simpl; [|done].
    destruct (Ship.isSunk sh) eqn:Hsunk; [done|].
    split; [|done]. apply ObjSet_has_true in Hat.
    unfold Ship.isSunk in Hsunk. apply Z.eqb_neq in Hsunk.
    split_and!; simpl; try done.
    + by apply ObjSet_add_NoDup.
    + intros r Hr. apply ObjSet_add_refs in Hr as [->|Hr]; [done|].
      by apply Hsub.
    + rewrite ObjSet_add_length. destruct (ObjSet_has _ _); lia.
Qed.

Lemma shipCalls_invariant (sh : Ship.t) (calls : list ShipCall) :
  shipInvariant sh →
  shipInvariant (shipCalls sh calls) ∧
  Ship.size (shipCalls sh calls) = Ship.size sh.
Proof.
  unfold shipCalls. revert sh.
  induction calls as [|c calls IH]; intros sh Hinv; [done|].
  simpl. destruct (shipCall_invariant sh c Hinv) as [Hinv' Hs].
  destruct (IH _ Hinv') as [? Hs']. split; [done|]. by rewrite Hs'.
Qed.

(** In a ship with as many locations as its size, the hits are all the
    locations exactly when they are as many. *)
Lemma shipInvariant_sunk (sh : Ship.t) :
  shipInvariant sh →
  Z.of_nat (length (Ship.locations sh)) = Ship.size sh →
  Ship.isSunk sh = true ↔ ∀ l, l ∈ Ship.locations sh → Ship.isHit sh l = true.
Proof.
  intros (Hl & Hh & Hsub & _ & _) Hsize. unfold Ship.isSunk, Ship.isHit.
  rewrite Z.eqb_eq, <- Hsize, Nat2Z.inj_iff.
  assert (Hms : (ref <$> Ship.hits sh) ⊆+ (ref <$> Ship.locations sh)).
  { by apply NoDup_submseteq. }
  split.
  - intros Hlen l Hin. apply ObjSet_has_true.
    assert (Hp : (ref <$> Ship.hits sh) ≡ₚ (ref <$> Ship.locations sh)).
    { apply submseteq_length_Permutation; [done|].
      rewrite !length_fmap. lia. }
    rewrite Hp. by apply list_elem_of_fmap_2.
  - intros Hall. apply Nat.le_antisymm.
    + rewrite <- (length_fmap ref (Ship.hits sh)),
              <- (length_fmap ref (Ship.locations sh)).
      by apply submseteq_length.
    + rewrite <- (length_fmap ref (Ship.hits sh)),
              <- (length_fmap ref (Ship.locations sh)).
      apply submseteq_length, NoDup_submseteq; [done|].
      intros r Hr. apply list_elem_of_fmap in Hr as (l & -> & Hin).
      by apply ObjSet_has_true, Hall.
Qed.

(** X1.  A ship made by the constructor with an integer size, after any
    sequence of calls of [addLocation] and [hit], those that throw
    included: its size is the one it was made with; every location that is
    hit is a location of the ship; every location is on the board; and it
    never has more hits than its size. *)
Theorem ship_calls_keep_invariant (n : Z) (sh0 : Ship.t) (calls : list ShipCall) :
  Ship.new n = Ok sh0 →
  let sh := shipCalls sh0 calls in
  Ship.size sh = n ∧
  (∀ l, Ship.isHit sh l = true → Ship.isAtLocation sh l = true) ∧
  (∀ l, l ∈ Ship.locations sh → inBounds (row l) (col l) = true) ∧
  Z.of_nat (length (Ship.hits sh)) ≤ n.
Proof.
  intros Hnew sh. apply new_shipInvariant in Hnew as [Hinv0 Hsize0].
  destruct (shipCalls_invariant sh0 calls Hinv0) as [(Hl & Hh & Hsub & Hb & Hlen) Hsize].
  fold sh in Hl, Hh, Hsub, Hb, Hlen, Hsize.
  split_and!; try done.
  - congruence.
  - intros l Hhit. apply ObjSet_has_true. apply Hsub.
    by apply ObjSet_has_true.
  - lia.
Qed.

(** A ship of size 2: calls that throw, a repeated hit, and the hits
    that sink it. *)
Lemma ship_calls_keep_invariant_witness :
  let sh := shipCalls (Ship.mk 2 [] [])
              [CallAddLocation (mkCoord 0 0 0); CallHit (mkCoord 1 0 0);
               CallHit (mkCoord 0 0 0); CallAddLocation (mkCoord 2 0 10);
               CallAddLocation (mkCoord 1 0 1); CallHit (mkCoord 1 0 1);
               CallHit (mkCoord 0 0 0)] in
  Ship.size sh = 2 ∧
  (∀ l, Ship.isHit sh l = true → Ship.isAtLocation sh l = true) ∧
  (∀ l, l ∈ Ship.locations sh → inBounds (row l) (col l) = true) ∧
  Z.of_nat (length (Ship.hits sh)) ≤ 2.
Proof. apply (ship_calls_keep_invariant 2). reflexivity. Defined.

(** X2.  A sunk ship stays as it is: whatever is called on it afterwards,
    its hits are the same, it is still sunk, and every [hit] throws. *)
Theorem sunk_ship_stays_sunk (sh : Ship.t) (calls : list ShipCall) (l : Coord) :
  Ship.isSunk sh = true →
  Ship.hits (shipCalls sh calls) = Ship.hits sh ∧
  Ship.isSunk (shipCalls sh calls) = true ∧
  ∃ e, Ship.hit (shipCalls sh calls) l = Throw e.
Proof.
  intros Hsunk.
  assert (H : Ship.hits (shipCalls sh calls) = Ship.hits sh ∧
              Ship.isSunk (shipCalls sh calls) = true).
  { unfold shipCalls. revert sh Hsunk.
    induction calls as [|c calls IH]; intros sh Hsunk; [done|]. simpl.
    assert (Hc : Ship.hits (shipCall sh c) = Ship.hits sh ∧
                 Ship.isSunk (shipCall sh c) = true).
    { unfold shipCall. destruct c as [l'|l'].
      - unfold Ship.addLocation. by destruct (negb _).
      - unfold Ship.hit. destruct (negb _); [done|].
        destruct (negb _); [done|]. by rewrite Hsunk. }
    destruct Hc as [Hh Hs]. destruct (IH _ Hs) as [Hh' Hs'].
    split; [congruence|done]. }
  destruct H as [Hh Hs]. split_and!; try done.
  unfold Ship.hit. destruct (negb _); [by eexists|].
  destruct (negb _); [by eexists|]. rewrite Hs. by eexists.
Qed.

Lemma sunk_ship_stays_sunk_witness :
  let sh := Ship.mk 1 [mkCoord 0 4 4] [mkCoord 0 4 4] in
  let calls := [CallAddLocation (mkCoord 1 4 5); CallHit (mkCoord 1 4 5)] in
  Ship.hits (shipCalls sh calls) = Ship.hits sh ∧
  Ship.isSunk (shipCalls sh calls) = true ∧
  ∃ e, Ship.hit (shipCalls sh calls) (mkCoord 1 4 5) = Throw e.
Proof. apply sunk_ship_stays_sunk. reflexivity. Defined.

(** X3.  A [hit] that returns has recorded the location; it is counted
    once, so the number of hits grows by one when the location was not hit
    before and not at all when it was.  The same [hit] again changes
    nothing, and throws once the ship is sunk. *)
Theorem hit_twice (sh sh1 : Ship.t) (l : Coord) :
  Ship.hit sh l = Ok sh1 →
  Ship.isHit sh1 l = true ∧
  length (Ship.hits sh1)
    = (length (Ship.hits sh) + if Ship.isHit sh l then 0 else 1)%nat ∧
  Ship.hit sh1 l = if Ship.isSunk sh1 then Throw AlreadySunk else Ok sh1.
Proof.
  unfold Ship.hit.
  destruct (negb (Ship.isValidLocation l)) eqn:Hv; [done|].
  destruct (negb (Ship.isAtLocation sh l)) eqn:Hat; [done|].
  destruct (Ship.isSunk sh); [done|]. intros [= <-].
  assert (Hhit : ObjSet_has (ObjSet_add (Ship.hits sh) l) l = true).
  { apply ObjSet_has_true, ObjSet_add_refs. by left. }
  split_and!.
  - exact Hhit.
  - simpl. apply ObjSet_add_length.
  - unfold Ship.isAtLocation in *. simpl. rewrite Hat.
    destruct (Ship.isSunk _); [done|]. do 2 f_equal.
    unfold ObjSet_add at 1. by rewrite Hhit.
Qed.

Lemma hit_twice_witness :
  let sh := Ship.mk 2 [mkCoord 0 4 4; mkCoord 1 4 5] [] in
  let sh1 := Ship.mk 2 [mkCoord 0 4 4; mkCoord 1 4 5] [mkCoord 0 4 4] in
  Ship.isHit sh1 (mkCoord 0 4 4) = true ∧
  length (Ship.hits sh1)
    = (length (Ship.hits sh) + if Ship.isHit sh (mkCoord 0 4 4) then 0 else 1)%nat ∧
  Ship.hit sh1 (mkCoord 0 4 4) = if Ship.isSunk sh1 then Throw AlreadySunk else Ok sh1.
Proof. apply hit_twice. reflexivity. Defined.

(** X4.  A ship that has as many location objects as its size, as
    placement leaves it, is sunk exactly when every one of its locations is
    hit. *)
Theorem sunk_iff_all_locations_hit (n : Z) (sh0 : Ship.t) (calls : list ShipCall) :
  Ship.new n = Ok sh0 →
  let sh := shipCalls sh0 calls in
  Z.of_nat (length (Ship.locations sh)) = n →
  Ship.isSunk sh = true ↔ ∀ l, l ∈ Ship.locations sh → Ship.isHit sh l = true.
Proof.
  intros Hnew sh Hlen. apply new_shipInvariant in Hnew as [Hinv0 Hsize0].
  destruct (shipCalls_invariant sh0 calls Hinv0) as [Hinv Hsize].
  apply shipInvariant_sunk; [done|]. subst sh. rewrite Hlen. congruence.
Qed.

Lemma sunk_iff_all_locations_hit_witness :
  let sh := shipCalls (Ship.mk 2 [] [])
              [CallAddLocation (mkCoord 0 0 0); CallHit (mkCoord 0 0 0);
               CallAddLocation (mkCoord 1 0 1)] in
  Ship.isSunk sh = true ↔ ∀ l, l ∈ Ship.locations sh → Ship.isHit sh l = true.
Proof. apply (sunk_iff_all_locations_hit 2); reflexivity. Defined.

(** ** Guess keys *)

Lemma pretty_N_char_not_comma (x : N) : pretty_N_char x ≠ ","%char.
Proof. unfold pretty_N_char. by repeat case_match. Qed.

Lemma pretty_N_go_comma (x : N) (s : string) :
  ","%char ∈ String.list_ascii_of_string (pretty_N_go x s) →
  ","%char ∈ String.list_ascii_of_string s.
Proof.
  revert s. induction (N.lt_wf_0 x) as [x _ IH]; intros s.
  destruct (decide (0 < x)%N) as [Hx|Hx].
  - rewrite pretty_N_go_step by done. intros Hin.
    apply IH in Hin; [|by apply N.div_lt].
    simpl in Hin. apply elem_of_cons in Hin as [Hin|Hin]; [|done].
    by destruct (pretty_N_char_not_comma (x `mod` 10)).
  - assert (x = 0%N) as -> by lia. by rewrite pretty_N_go_0.
Qed.

Lemma pretty_Z_comma (z : Z) :
  ","%char ∉ String.list_ascii_of_string (pretty z).
Proof.
  assert (HN : ∀ n : N, ","%char ∉ String.list_ascii_of_string (pretty n)).
  { intros n Hin. unfold pretty, pretty_N in Hin.
    destruct (decide (n = 0%N)).
    - simpl in Hin. apply elem_of_cons in Hin as [Hin|Hin]; [done|].
      by apply elem_of_nil in Hin.
    - apply pretty_N_go_comma in Hin. by apply elem_of_nil in Hin. }
  destruct z as [|p|p]; unfold pretty, pretty_Z.
  - simpl. intros Hin. apply elem_of_cons in Hin as [Hin|Hin]; [done|].
    by apply elem_of_nil in Hin.
  - apply (HN (N.pos p)).
  - intros Hin. simpl in Hin. apply elem_of_cons in Hin as [Hin|Hin]; [done|].
    by apply (HN (N.pos p)).
Qed.

Lemma app_comma_inj (s1 s2 t1 t2 : string) :
  ","%char ∉ String.list_ascii_of_string s1 →
  ","%char ∉ String.list_ascii_of_string s2 →
  s1 +:+ "," +:+ t1 = s2 +:+ "," +:+ t2 → s1 = s2 ∧ t1 = t2.
Proof.
  revert s2. induction s1 as [|a s1 IH]; intros [|b s2] H1 H2 E;
    simpl in H1, H2;
    repeat match type of E with
           | context [String ?a ?s +:+ ?t] =>
               change (String a s +:+ t) with (String a (s +:+ t)) in E
           | context ["" +:+ ?t] => change ("" +:+ t) with t in E
           end.
  - by injection E as ->.
  - injection E as <- _. destruct H2. by left.
  - injection E as -> _. destruct H1. by left.
  - injection E as -> E. apply not_elem_of_cons in H1 as [_ H1], H2 as [_ H2].
    by destruct (IH s2 H1 H2 E) as [-> ->].
Qed.

(** ** Placement, in full *)

Lemma shipLocationsFrom_cells (a b : Z) (d : Direction) (n : nat) (w : World)
    (locs : list Coord) (w' : World) :
  shipLocationsFrom a b (Some d) n w = (Ok locs, w') →
  cellOf <$> locs = lineCells (a, b) d n.
Proof.
  revert a b w locs w'. induction n as [|n IH]; intros a b w locs w'; simpl.
  - by intros [= <- <-].
  - unfold bind at 1, newCoord at 1.
    set (w1 := mkWorld _ _ (S (nextRef w)) _ _).
    unfold bind at 1.
    assert (Hrec : (match d with
               | up => shipLocationsFrom (a - 1) b (Some d) n
               | right => shipLocationsFrom a (b + 1) (Some d) n
               | down => shipLocationsFrom (a + 1) b (Some d) n
               | left => shipLocationsFrom a (b - 1) (Some d) n
               end) = shipLocationsFrom (neighbour (a, b) d).1 (neighbour (a, b) d).2 (Some d) n).
    { by destruct d. }
    rewrite Hrec.
    destruct (shipLocationsFrom _ _ (Some d) n w1) as [[rest|e] w2] eqn:Hrun;
      [|done].
    intros [= <- <-]. simpl. f_equal.
    apply IH in Hrun. by destruct (neighbour (a, b) d).
Qed.

Lemma areLocationsValid_Forall (locs : list Coord) :
  areLocationsValid locs = true ↔ onBoard (cellOf <$> locs).
Proof.
  unfold areLocationsValid, onBoard. induction locs as [|l locs IH]; simpl.
  - split; [constructor|done].
  - rewrite Forall_cons, andb_true_iff, IH. done.
Qed.

(** New objects are no location of a ship that exists. *)
Lemma doLocationsOverlap_fresh (w : World) (locs : list Coord) (fleet bound : nat) :
  (∀ sh l, sh ∈ ships w → l ∈ Ship.locations sh → (ref l < bound)%nat) →
  (∀ l, l ∈ locs → (bound ≤ ref l)%nat) →
  doLocationsOverlap w locs fleet = false.
Proof.
  intros Hold Hnew. unfold doLocationsOverlap.
  apply not_true_is_false. intros Hex.
  apply existsb_exists in Hex as (s & _ & Hs).
  destruct (shipAt w s) as [sh|] eqn:Hsh; [|done].
  apply existsb_exists in Hs as (l & Hl & Hat).
  apply ObjSet_has_true in Hat.
  apply list_elem_of_fmap in Hat as (l' & Hr & Hl').
  apply list_elem_of_In in Hl.
  assert (Hin : sh ∈ ships w) by (by eapply list_elem_of_lookup_2).
  specialize (Hold sh l' Hin Hl'). specialize (Hnew l Hl). lia.
Qed.

Lemma findShipAtLocation_fresh (w : World) (fleet : nat) (c : Coord) (bound : nat) :
  (∀ sh l, sh ∈ ships w → l ∈ Ship.locations sh → (ref l < bound)%nat) →
  (bound ≤ ref c)%nat →
  findShipAtLocation w fleet c = None.
Proof.
  intros Hold Hnew. unfold findShipAtLocation.
  destruct (List.find _ _) as [s|] eqn:Hfind; [|done].
  apply find_some in Hfind as [_ Hat].
  destruct (shipAt w s) as [sh|] eqn:Hsh; [|done].
  apply ObjSet_has_true in Hat.
  apply list_elem_of_fmap in Hat as (l' & Hr & Hl').
  assert (Hin : sh ∈ ships w) by (by eapply list_elem_of_lookup_2).
  specialize (Hold sh l' Hin Hl'). lia.
Qed.

Lemma callShip_nextRef (s : nat) (method : Ship.t → Outcome Ship.t) (w : World) :
  nextRef (callShip s method w).2 = nextRef w.
Proof.
  unfold callShip. destruct (shipAt w s) as [sh|]; [|done].
  by destruct (method sh).
Qed.

(** [#placeShip] on a new ship, in a game where the objects of the ships
    are older than the next object: the overlap check finds nothing, and
    the ship is placed exactly when its line stays on the board. *)
Lemma placeShip_line (s : nat) (size : Z) (location : Coord) (d : Direction)
    (fleet : nat) (w w' : World) (o : Outcome unit) :
  refsBelow w →
  shipAt w s = Some (Ship.mk size [] []) → 0 ≤ size →
  placeShip s location (Some d) fleet w = (o, w') →
  onlyShip s w w' ∧
  nextRef w' = (Z.to_nat size + nextRef w)%nat ∧
  match o with
  | Ok _ => ∃ locs,
      shipAt w' s = Some (Ship.mk size locs []) ∧
      ref <$> locs = seq (nextRef w) (Z.to_nat size) ∧
      cellOf <$> locs = lineCells (cellOf location) d (Z.to_nat size) ∧
      areLocationsValid locs = true
  | Throw e =>
      e = InvalidShipPlacement ∧ ships w' = ships w ∧
      ¬ onBoard (lineCells (cellOf location) d (Z.to_nat size))
  end.
Proof.
  intros Hbelow Hs Hsize. unfold placeShip.
  unfold bind at 1, get at 1. rewrite Hs.
  unfold bind at 1, getShipLocations. simpl Ship.size.
  destruct (shipLocationsFrom_spec (row location) (col location) (Some d)
              (Z.to_nat size) w) as (locs & Hrun & Hrefs).
  pose proof (shipLocationsFrom_cells _ _ _ _ _ _ _ Hrun) as Hcells.
  rewrite Hrun. clear Hrun.
  set (w1 := mkWorld _ _ _ _ _).
  assert (Hframe1 : onlyShip s w w1) by (by apply onlyShip_sameGame).
  destruct (areLocationsValid locs) eqn:Hv; simpl.
  - unfold bind at 1, get at 1.
    rewrite (doLocationsOverlap_fresh w1 locs fleet (nextRef w)); cycle 1.
    { intros sh l Hsh Hl. by apply (Hbelow sh l). }
    { intros l Hl. assert (Hr : ref l ∈ seq (nextRef w) (Z.to_nat size)).
      { rewrite <- Hrefs. by apply list_elem_of_fmap_2. }
      apply elem_of_seq in Hr. lia. }
    assert (Hnd : NoDup (ref <$> locs)) by (rewrite Hrefs; apply NoDup_seq').
    destruct (addLocations_store s size locs [] w1 Hs Hv Hnd)
      as (w2 & Hrun2 & Hframe & Hs'). rewrite Hrun2.
    intros [= <- <-]. split; [by etrans|].
    split; [|by exists locs].
    change (nextRef w2 = nextRef w1).
    replace w2 with
      (foldM (λ _ loc, callShip s (λ sh, Ship.addLocation sh loc)) locs tt w1).2
      by (by rewrite Hrun2).
    apply (foldM_invariant (λ w0, nextRef w0 = nextRef w1)); [|done].
    intros _ loc w0 <-. apply callShip_nextRef.
  - intros [= <- <-]. split; [done|]. split; [done|].
    split_and!; [done|done|].
    unfold cellOf at 1. rewrite <- Hcells. intros HF.
    apply areLocationsValid_Forall in HF. congruence.
Qed.

Lemma directions_lookup (x : nat) :
  ∃ d : Direction, [up; right; down; left] !! (x mod 4)%nat = Some d.
Proof.
  assert (Hlt : (x mod 4 < 4)%nat) by (apply Nat.mod_upper_bound; lia).
  destruct (x mod 4)%nat as [|[|[|[|n]]]]; simpl; try by eexists. lia.
Qed.

Lemma randomBelow_lt (n x : nat) :
  (0 < n)%nat → (match n with O => O | S _ => (x mod n)%nat end < n)%nat.
Proof. intros Hn. destruct n; [lia|]. apply Nat.mod_upper_bound. lia. Qed.

(** One attempt to place a ship, in full. *)
Lemma tryPlaceShip_settled (rand : nat → nat) (size : Z) (fleet : nat)
    (w w' : World) (o : Outcome unit) :
  settled w →
  fleet = playerShips (game w) ∨ fleet = cpuShips (game w) →
  tryPlaceShip rand size fleet w = (o, w') →
  settled w' ∧ game w' = game w ∧
  (∀ s, (s < length (ships w))%nat → shipAt w' s = shipAt w s) ∧
  (length (ships w) ≤ length (ships w'))%nat ∧
  (∀ a, a ≠ fleet → arrayAt w' a = arrayAt w a) ∧
  match o with
  | Ok _ => ∃ s sh, arrayAt w' fleet = arrayAt w fleet ++ [s] ∧
                    shipAt w' s = Some sh ∧ Ship.size sh = size ∧
                    Ship.hits sh = [] ∧ placed sh ∧
                    cellOf <$> Ship.locations sh = drawnLine rand size w
  | Throw _ => arrayAt w' fleet = arrayAt w fleet ∧
               (1 ≤ size ≤ 4 → ¬ onBoard (drawnLine rand size w))
  end.
Proof.
  intros (Hwf & Hbelow & Hpp & Hpc & Hunhit & Hai & Hinit) Hfleet Hrun.
  destruct (tryPlaceShip_wellFormed rand size fleet w w' o Hwf Hfleet Hrun)
    as [Hwf' Hgame].
  assert (Hvalid : ∀ s, s ∈ arrayAt w (playerShips (game w)) ∨
                        s ∈ arrayAt w (cpuShips (game w)) →
                        (s < length (ships w))%nat).
  { intros s. by apply wellFormed_valid_refs. }
  assert (Hflt : (fleet < length (arrays w))%nat).
  { destruct Hwf as ((? & ? & ?) & _). by destruct Hfleet as [-> | ->]. }
  revert Hrun. unfold tryPlaceShip.
  unfold bind at 1, newShip at 1.
  destruct (Ship.new size) as [sh0|e] eqn:Hnew.
  2:{ intros [= <- <-]. split_and!; try done. intros Hsize. exfalso.
      revert Hnew. unfold Ship.new.
      destruct (Z.ltb_spec size 1), (Z.gtb_spec size 4); simpl; try done; lia. }
  apply new_Ok in Hnew as [-> Hsize].
  set (s := length (ships w)).
  set (w1 := with_ships _ w).
  assert (Hs1 : shipAt w1 s = Some (Ship.mk size [] [])).
  { unfold shipAt, w1, s. simpl. rewrite lookup_app_r by done.
    by rewrite Nat.sub_diag. }
  unfold bind at 1, getRandomLocation at 1, bind at 1, randomBelow at 1,
    bind at 1, randomBelow at 1, newCoord at 1.
  unfold bind at 1, getRandomDirection at 1, bind at 1, randomBelow at 1,
    ret at 1.
  set (location := mkCoord _ _ _). set (direction := _ !! _).
  set (w3 := mkWorld _ _ _ _ _).
  assert (Hd : ∃ d : Direction, direction = Some d).
  { subst direction. simpl length. apply directions_lookup. }
  destruct Hd as [d Hd].
  assert (Hline : drawnLine rand size w =
                  match direction with
                  | Some d => lineCells (cellOf location) d (Z.to_nat size)
                  | None => []
                  end) by reflexivity.
  rewrite Hd in Hline. rewrite Hd. clear direction Hd.
  assert (Hbelow3 : refsBelow w3).
  { intros sh l Hsh Hl. simpl in Hsh. apply elem_of_app in Hsh as [Hsh|Hsh].
    - specialize (Hbelow sh l Hsh Hl). simpl. lia.
    - apply list_elem_of_singleton in Hsh as ->. by apply elem_of_nil in Hl. }
  unfold bind at 1.
  destruct (placeShip s location (Some d) fleet w3) as [[[]|e] w4] eqn:Hplace;
    apply (placeShip_line s size) in Hplace
      as ((Hg4 & Ha4 & Hl4 & Hs4) & Hn4 & Hres); try done; try lia.
  - destruct Hres as (locs & Hsh4 & Hrefs & Hcells & Hv).
    unfold pushArray, modify. intros [= <- <-].
    set (w5 := with_arrays _ w4).
    assert (Hg5 : game w5 = game w) by exact Hgame.
    assert (Hold : ∀ s', (s' < length (ships w))%nat → shipAt w5 s' = shipAt w s').
    { intros s' Hs'. unfold shipAt. simpl. rewrite Hs4 by (unfold s; lia).
      simpl. by rewrite lookup_app_l. }
    assert (Hfl : arrayAt w5 fleet = arrayAt w fleet ++ [s]).
    { unfold arrayAt at 1. simpl. rewrite list_lookup_insert_eq.
      - simpl. unfold arrayAt. by rewrite Ha4.
      - by rewrite Ha4. }
    assert (Hoth : ∀ a, a ≠ fleet → arrayAt w5 a = arrayAt w a).
    { intros a Ha. unfold arrayAt. simpl. rewrite list_lookup_insert_ne by done.
      by rewrite Ha4. }
    assert (Hship : shipAt w5 s = Some (Ship.mk size locs [])) by done.
    assert (Hplaced : placed (Ship.mk size locs [])).
    { split; [done|]. exists (cellOf location), d. simpl. split; [done|].
      rewrite <- Hcells. by apply areLocationsValid_Forall. }
    rewrite Hline.
    assert (Hmem : ∀ a s' sh,
              a = playerShips (game w) ∨ a = cpuShips (game w) →
              s' ∈ arrayAt w5 a → shipAt w5 s' = Some sh →
              (s' ∈ arrayAt w a ∧ shipAt w s' = Some sh) ∨
              (a = fleet ∧ sh = Ship.mk size locs [])).
    { intros a s' sh Ha Hin Hsh'.
      destruct (decide (a = fleet)) as [->|Hne].
      - rewrite Hfl in Hin. apply elem_of_app in Hin as [Hin|Hin].
        + left. split; [done|]. rewrite <- Hold; [done|].
          apply Hvalid. by destruct Ha as [<- | <-]; [left|right].
        + apply list_elem_of_singleton in Hin as ->. right.
          split; [done|]. congruence.
      - rewrite Hoth in Hin by done. left. split; [done|].
        rewrite <- Hold; [done|].
        apply Hvalid. by destruct Ha as [-> | ->]; [left|right]. }
    split_and!; try done.
    + split_and!; try done.
      * intros sh l Hsh Hl. apply list_elem_of_lookup in Hsh as [i Hi].
        change (shipAt w5 i = Some sh) in Hi.
        change (ref l < nextRef w4)%nat. rewrite Hn4. simpl.
        destruct (decide (i = s)) as [->|Hne].
        -- rewrite Hship in Hi. injection Hi as <-. simpl in Hl.
           assert (Hr : ref l ∈ seq (nextRef w3) (Z.to_nat size)).
           { rewrite <- Hrefs. by apply list_elem_of_fmap_2. }
           apply elem_of_seq in Hr. simpl in Hr. lia.
        -- assert (Hi' : (i < length (ships w))%nat).
           { apply lookup_lt_Some in Hi. simpl in Hi. rewrite Hl4 in Hi.
             simpl in Hi. rewrite length_app in Hi. simpl in Hi.
             unfold s in Hne. lia. }
           rewrite Hold in Hi by done.
           assert (Hin : sh ∈ ships w) by (by eapply list_elem_of_lookup_2).
           specialize (Hbelow sh l Hin Hl). lia.
      * intros s' sh Hin Hsh'. rewrite Hg5 in Hin.
        destruct (Hmem _ s' sh (or_introl eq_refl) Hin Hsh') as [[? ?]|[_ ->]];
          [by eapply Hpp|done].
      * intros s' sh Hin Hsh'. rewrite Hg5 in Hin.
        destruct (Hmem _ s' sh (or_intror eq_refl) Hin Hsh') as [[? ?]|[_ ->]];
          [by eapply Hpc|done].
      * intros s' sh Hin Hsh'. rewrite Hg5 in Hin.
        destruct (Hmem _ s' sh (or_introl eq_refl) Hin Hsh') as [[? ?]|[_ ->]];
          [by eapply Hunhit|done].
      * rewrite Hg5. exact Hai.
      * rewrite Hg5. intros Hi. destruct (Hinit Hi) as [Hp Hc].
        assert (Hne : ∀ a, arrayAt w a ≠ [] → arrayAt w5 a ≠ []).
        { intros a Ha. destruct (decide (a = fleet)) as [->|Hne].
          - rewrite Hfl. intros [? _]%app_eq_nil. done.
          - by rewrite Hoth. }
        split; by apply Hne.
    + simpl. rewrite Hl4. simpl. rewrite length_app. lia.
    + by exists s, (Ship.mk size locs []).
  - destruct Hres as (-> & Hships4 & Hoff). intros [= <- <-]. rewrite Hline.
    assert (Hold : ∀ s', (s' < length (ships w))%nat → shipAt w4 s' = shipAt w s').
    { intros s' Hs'. unfold shipAt. rewrite Hships4. simpl.
      by rewrite lookup_app_l. }
    assert (Harr : ∀ a, arrayAt w4 a = arrayAt w a).
    { intros a. unfold arrayAt. by rewrite Ha4. }
    assert (Hmem : ∀ a s' sh,
              a = playerShips (game w) ∨ a = cpuShips (game w) →
              s' ∈ arrayAt w4 a → shipAt w4 s' = Some sh →
              s' ∈ arrayAt w a ∧ shipAt w s' = Some sh).
    { intros a s' sh Ha Hin Hsh'. rewrite Harr in Hin. split; [done|].
      rewrite <- Hold; [done|].
      apply Hvalid. by destruct Ha as [-> | ->]; [left|right]. }
    split_and!; try done.
    + split_and!; try done.
      * intros sh l Hsh Hl. rewrite Hships4 in Hsh. rewrite Hn4.
        specialize (Hbelow3 sh l Hsh Hl). lia.
      * intros s' sh Hin Hsh'. rewrite Hgame in Hin.
        destruct (Hmem _ s' sh (or_introl eq_refl) Hin Hsh') as [? ?].
        by eapply Hpp.
      * intros s' sh Hin Hsh'. rewrite Hgame in Hin.
        destruct (Hmem _ s' sh (or_intror eq_refl) Hin Hsh') as [? ?].
        by eapply Hpc.
      * intros s' sh Hin Hsh'. rewrite Hgame in Hin.
        destruct (Hmem _ s' sh (or_introl eq_refl) Hin Hsh') as [? ?].
        by eapply Hunhit.
      * rewrite Hgame. exact Hai.
      * rewrite Hgame, !Harr. exact Hinit.
    + rewrite Hships4. simpl. rewrite length_app. lia.
Qed.

Lemma fleetGrown_refl (fleet : nat) (w : World) : fleetGrown fleet [] w w.
Proof.
  split_and!; try done. exists []. rewrite app_nil_r. split; [done|constructor].
Qed.

Lemma fleetGrown_trans (fleet : nat) (sizes1 sizes2 : list Z) (w1 w2 w3 : World) :
  fleetGrown fleet sizes1 w1 w2 → fleetGrown fleet sizes2 w2 w3 →
  fleetGrown fleet (sizes1 ++ sizes2) w1 w3.
Proof.
  intros (Hg1 & Hl1 & Ho1 & Ha1 & news1 & Hf1 & Hn1)
         (Hg2 & Hl2 & Ho2 & Ha2 & news2 & Hf2 & Hn2).
  split_and!.
  - congruence.
  - lia.
  - intros s Hs. rewrite Ho2 by lia. by apply Ho1.
  - intros a Ha. rewrite Ha2 by done. by apply Ha1.
  - exists (news1 ++ news2). split.
    + by rewrite Hf2, Hf1, <- app_assoc.
    + apply Forall2_app; [|done].
      eapply Forall2_impl; [exact Hn1|]. simpl.
      intros s size (sh & Hsh & Hrest). exists sh. split; [|done].
      rewrite Ho2; [done|]. by eapply lookup_lt_Some.
Qed.

Lemma tryPlaceShip_fleetGrown (rand : nat → nat) (size : Z) (fleet : nat)
    (w w' : World) (o : Outcome unit) :
  settled w →
  fleet = playerShips (game w) ∨ fleet = cpuShips (game w) →
  tryPlaceShip rand size fleet w = (o, w') →
  settled w' ∧
  fleetGrown fleet (match o with Ok _ => [size] | Throw _ => [] end) w w'.
Proof.
  intros Hset Hfleet Hrun.
  destruct (tryPlaceShip_settled rand size fleet w w' o Hset Hfleet Hrun)
    as (Hset' & Hg & Hold & Hlen & Hoth & Hres).
  split; [done|]. split_and!; try done.
  destruct o as [[]|e].
  - destruct Hres as (s & sh & Hf & Hsh & Hsz & Hh & Hp & _).
    exists [s]. split; [done|]. constructor; [|constructor]. by exists sh.
  - destruct Hres as [Hf _]. exists []. rewrite app_nil_r. split; [done|constructor].
Qed.

(** The loop of attempts: it never throws; the fleet has one more ship
    exactly when it reports that the ship was placed. *)
Lemma placeAttempts_fleetGrown (rand : nat → nat) (size : Z) (fleet n : nat)
    (w w' : World) (o : Outcome bool) :
  settled w →
  fleet = playerShips (game w) ∨ fleet = cpuShips (game w) →
  placeAttempts rand size fleet n w = (o, w') →
  ∃ ok : bool, o = Ok ok ∧ settled w' ∧
    fleetGrown fleet (if ok then [size] else []) w w'.
Proof.
  revert w. induction n as [|n IH]; intros w Hset Hfleet; simpl.
  - intros [= <- <-]. exists false. split_and!; try done. apply fleetGrown_refl.
  - destruct (tryPlaceShip rand size fleet w) as [[[]|e] w1] eqn:Htry;
      apply tryPlaceShip_fleetGrown in Htry as [Hset1 Hgrown1]; try done.
    + intros [= <- <-]. by exists true.
    + intros Hrec. apply IH in Hrec as (b & -> & Hset2 & Hgrown2);
        [|done|by destruct Hgrown1 as (-> & _)].
      exists b. split_and!; try done.
      by apply (fleetGrown_trans fleet [] _ w w1 w').
Qed.

(** The two loops over the manifest. *)
Lemma placeFleet_fleetGrown (rand : nat → nat) (fleet : nat) (failure : Error)
    (w w' : World) (o : Outcome unit) :
  settled w →
  fleet = playerShips (game w) ∨ fleet = cpuShips (game w) →
  placeFleet rand fleet failure w = (o, w') →
  settled w' ∧
  match o with
  | Ok _ => fleetGrown fleet manifest w w'
  | Throw e =>
      e = failure ∧
      ∃ sizes, (length sizes < length manifest)%nat ∧ fleetGrown fleet sizes w w'
  end.
Proof.
  intros Hset Hfleet. unfold placeFleet, manifest.
  assert (Hbody : ∀ size w1 w2 o2,
            settled w1 → game w1 = game w →
            (w0 ← get;
             placed ← placeAttempts rand size fleet (maxPlacementAttempts (game w0));
             if placed then ret tt else throw failure) w1 = (o2, w2) →
            settled w2 ∧
            match o2 with
            | Ok _ => fleetGrown fleet [size] w1 w2
            | Throw e => e = failure ∧ fleetGrown fleet [] w1 w2
            end).
  { intros size w1 w2 o2 Hset1 Hg1. unfold bind at 1, get at 1. unfold bind at 1.
    destruct (placeAttempts _ _ _ _ w1) as [o3 w3] eqn:Hrun.
    apply placeAttempts_fleetGrown in Hrun as (b & -> & Hset3 & Hgrown3);
      [|done|by rewrite Hg1].
    destruct b; intros [= <- <-]; by split_and!. }
  assert (Hinner : ∀ size (l : list nat) w1 w2 o2,
            settled w1 → game w1 = game w →
            foldM (λ _ _,
              w0 ← get;
              placed ← placeAttempts rand size fleet (maxPlacementAttempts (game w0));
              if placed then ret tt else throw failure) l tt w1 = (o2, w2) →
            settled w2 ∧
            match o2 with
            | Ok _ => fleetGrown fleet (replicate (length l) size) w1 w2
            | Throw e => e = failure ∧
                ∃ k, (k < length l)%nat ∧ fleetGrown fleet (replicate k size) w1 w2
            end).
  { intros size l. induction l as [|x l IH]; intros w1 w2 o2 Hset1 Hg1; simpl.
    - intros [= <- <-]. split; [done|]. apply fleetGrown_refl.
    - unfold bind at 1.
      match goal with |- context [bind get ?k w1] =>
        destruct (bind get k w1) as [[[]|e] w3] eqn:Hrun end;
        apply Hbody in Hrun as [Hset3 Hres3]; try done.
      + intros Hrec. apply IH in Hrec as [Hset2 Hres2];
          [|done|destruct Hres3 as (-> & _); done].
        split; [done|]. destruct o2 as [[]|e].
        * by apply (fleetGrown_trans fleet [size] _ w1 w3 w2).
        * destruct Hres2 as (-> & k & Hk & Hgrown). split; [done|].
          exists (S k). split; [lia|].
          by apply (fleetGrown_trans fleet [size] _ w1 w3 w2).
      + intros [= <- <-]. destruct Hres3 as [-> Hgrown]. split_and!; try done.
        exists O. split; [lia|done]. }
  generalize GameConfig.SHIPS. intros entries. revert w Hset Hfleet Hbody Hinner.
  induction entries as [|entry entries IH]; intros w Hset Hfleet Hbody Hinner; simpl.
  - intros [= <- <-]. split; [done|]. apply fleetGrown_refl.
  - unfold bind at 1.
    destruct (foldM _ (seq 0 (GameConfig.entry_count entry)) tt w)
      as [[[]|e] w1] eqn:Hrun;
      apply Hinner in Hrun as [Hset1 Hres1]; try done.
    + rewrite length_seq in Hres1.
      assert (Hg1 : game w1 = game w) by (by destruct Hres1 as (-> & _)).
      intros Hrec. apply IH in Hrec as [Hset2 Hres2]; try done.
      * split; [done|]. destruct o as [[]|e].
        -- by eapply fleetGrown_trans.
        -- destruct Hres2 as (-> & sizes & Hlt & Hgrown). split; [done|].
           eexists. split; [|by eapply fleetGrown_trans].
           rewrite !length_app. lia.
      * by rewrite Hg1.
      * intros size w2 w3 o3 Hs2 Hg2. apply Hbody; [done|congruence].
      * intros size l w2 w3 o3 Hs2 Hg2. apply Hinner; [done|congruence].
    + intros [= <- <-]. destruct Hres1 as (-> & k & Hk & Hgrown).
      rewrite length_seq in Hk. split_and!; try done.
      eexists. split; [|done]. rewrite length_app, !length_replicate. lia.
Qed.

(** ** Play keeps the game settled *)

(** What a step may do to a settled game: new objects, new arrays, other
    guesses, and hits on ships that are not the player's. *)
Lemma settled_step (w w' : World) :
  settled w → wellFormed w' →
  (nextRef w ≤ nextRef w')%nat →
  arrays w `prefix_of` arrays w' →
  playerShips (game w') = playerShips (game w) →
  cpuShips (game w') = cpuShips (game w) →
  initialized (game w') = initialized (game w) →
  gameAI (game w') = gameAI (game w) →
  (∀ i sh', ships w' !! i = Some sh' →
     ∃ sh, ships w !! i = Some sh ∧
           Ship.size sh' = Ship.size sh ∧
           Ship.locations sh' = Ship.locations sh ∧
           (i ∈ arrayAt w (playerShips (game w)) → Ship.hits sh' = Ship.hits sh)) →
  settled w'.
Proof.
  intros (Hwf & Hbelow & Hpp & Hpc & Hunhit & Hai & Hinit) Hwf' Hn Ha Hp Hc Hi Hg Hs.
  destruct Hwf as ((Hap & Hac & _) & _).
  assert (Harr : ∀ a, (a < length (arrays w))%nat → arrayAt w' a = arrayAt w a).
  { intros a Hlt. by apply arrayAt_prefix. }
  split_and!; try done.
  - intros sh' l Hsh' Hl. apply list_elem_of_lookup in Hsh' as [i Hsh'].
    destruct (Hs i sh' Hsh') as (sh & Hsh & _ & Hloc & _).
    rewrite Hloc in Hl.
    assert (Hin : sh ∈ ships w) by (by eapply list_elem_of_lookup_2).
    specialize (Hbelow sh l Hin Hl). lia.
  - intros s sh' Hin Hsh'. rewrite Hp, Harr in Hin by done.
    destruct (Hs s sh' Hsh') as (sh & Hsh & Hsz & Hloc & _).
    destruct (Hpp s sh Hin Hsh) as [Hsize Hline].
    unfold placed. by rewrite Hsz, Hloc.
  - intros s sh' Hin Hsh'. rewrite Hc, Harr in Hin by done.
    destruct (Hs s sh' Hsh') as (sh & Hsh & Hsz & Hloc & _).
    destruct (Hpc s sh Hin Hsh) as [Hsize Hline].
    unfold placed. by rewrite Hsz, Hloc.
  - intros s sh' Hin Hsh'. rewrite Hp, Harr in Hin by done.
    destruct (Hs s sh' Hsh') as (sh & Hsh & _ & _ & Hh).
    rewrite Hh by done. by eapply Hunhit.
  - by rewrite Hg, Hi.
  - rewrite Hi, Hp, Hc, !Harr by done. exact Hinit.
Qed.

(** Steps that leave the ships alone. *)
Lemma settled_sameShips (w w' : World) :
  settled w → wellFormed w' →
  (nextRef w ≤ nextRef w')%nat →
  arrays w `prefix_of` arrays w' →
  ships w' = ships w →
  playerShips (game w') = playerShips (game w) →
  cpuShips (game w') = cpuShips (game w) →
  initialized (game w') = initialized (game w) →
  gameAI (game w') = gameAI (game w) →
  settled w'.
Proof.
  intros Hset Hwf' Hn Ha Hs Hp Hc Hi Hg.
  apply (settled_step w); try done.
  intros i sh' Hsh'. exists sh'. rewrite <- Hs. by split_and!.
Qed.

Lemma newGameState_settled : settled newGameState.
Proof.
  split_and!; try done; try apply newGameState_wellFormed.
  all: intros ? ? H; by apply elem_of_nil in H.
Qed.

Lemma manifest_nonempty : manifest ≠ [].
Proof. done. Qed.

Lemma fleetGrown_nonempty (fleet : nat) (w w' : World) :
  fleetGrown fleet manifest w w' → arrayAt w' fleet ≠ [].
Proof.
  intros (_ & _ & _ & _ & news & -> & Hn). intros [_ ->]%app_eq_nil.
  apply Forall2_length in Hn. done.
Qed.

(** [initialize], in full. *)
Lemma initialize_settled (rand : nat → nat) (w w' : World) (o : Outcome unit) :
  settled w → initialize rand w = (o, w') →
  settled w' ∧
  match o with
  | Ok _ =>
      initialized (game w) = false ∧
      ∃ w1 w2,
        fleetGrown (playerShips (game w)) manifest w w1 ∧
        fleetGrown (cpuShips (game w)) manifest w1 w2 ∧
        w' = with_game (set_initialized true)
               (with_game (set_gameAI (Some GameAI.new)) w2)
  | Throw e =>
      if initialized (game w) then e = AlreadyInitialized ∧ w' = w
      else
        game w' = game w ∧
        (e = PlacementExhausted ∧
         (∃ sizes, (length sizes < length manifest)%nat ∧
                   fleetGrown (playerShips (game w)) sizes w w')
         ∨
         e = PlacementExhaustedCPU ∧
         (∃ w1 sizes, fleetGrown (playerShips (game w)) manifest w w1 ∧
                      (length sizes < length manifest)%nat ∧
                      fleetGrown (cpuShips (game w)) sizes w1 w'))
  end.
Proof.
  intros Hset Hrun.
  assert (Hwf' : wellFormed w').
  { destruct Hset as (Hwf & _).
    pose proof (initialize_wellFormed rand w Hwf) as H. by rewrite Hrun in H. }
  revert Hrun. unfold initialize.
  unfold bind at 1, get at 1.
  destruct (initialized (game w)) eqn:Hinit; [by intros [= <- <-]|].
  unfold bind at 1, placeShips, placeShipsForPlayer, placeShipsForCPU.
  unfold bind at 1. unfold bind at 1, get at 1.
  destruct (placeFleet rand (playerShips (game w)) PlacementExhausted w)
    as [[[]|e] w1] eqn:Hrun1;
    apply placeFleet_fleetGrown in Hrun1 as [Hset1 Hres1]; try done; try by left.
  2:{ intros [= <- <-]. split; [done|]. destruct Hres1 as (-> & sizes & Hlt & Hgr).
      split; [by destruct Hgr as (-> & _)|]. left. split; [done|]. by exists sizes. }
  assert (Hg1 : game w1 = game w) by (by destruct Hres1 as (-> & _)).
  unfold bind at 1, get at 1.
  destruct (placeFleet rand (cpuShips (game w1)) PlacementExhaustedCPU w1)
    as [[[]|e] w2] eqn:Hrun2;
    apply placeFleet_fleetGrown in Hrun2 as [Hset2 Hres2]; try done; try by right.
  2:{ intros [= <- <-]. split; [done|]. destruct Hres2 as (-> & sizes & Hlt & Hgr).
      split; [destruct Hgr as (-> & _); done|]. right. split; [done|].
      exists w1, sizes. rewrite <- Hg1 at 2. by split_and!. }
  assert (Hg2 : game w2 = game w1) by (by destruct Hres2 as (-> & _)).
  unfold bind, modify. simpl. intros [= <- <-].
  split.
  - destruct Hset2 as (Hwf2 & Hbelow2 & Hpp2 & Hpc2 & Hunhit2 & Hai2 & Hinit2).
    split_and!; try done. simpl. intros _.
    change (arrayAt w2 (playerShips (game w2)) ≠ [] ∧
            arrayAt w2 (cpuShips (game w2)) ≠ []).
    rewrite Hg2. split.
    + destruct Hres2 as (_ & _ & _ & Hoth & _). rewrite Hoth.
      * rewrite Hg1. by eapply fleetGrown_nonempty.
      * rewrite Hg1. by destruct Hset as (((_ & _ & Hne') & _) & _).
    + by eapply fleetGrown_nonempty.
  - split; [done|]. exists w1, w2. rewrite <- Hg1 at 2. by split_and!.
Qed.

(** ** The cells the AI may guess *)

Lemma isCellGuessed_cellOf (g : GameFields) (c : Coord) :
  isCellGuessed g c = cellGuessed g (cellOf c).
Proof. done. Qed.

Lemma allocated_0 (w : World) : allocated 0 0 w = w.
Proof. by destruct w. Qed.

Lemma allocated_allocated (n k n' k' : nat) (w : World) :
  allocated n' k' (allocated n k w) = allocated (n' + n) (k' + k) w.
Proof. unfold allocated. simpl. f_equal; lia. Qed.

Lemma availableCells_row (g : GameFields) (r : Z) (cols : list Z)
    (cells0 : list Coord) (w : World) :
  game w = g →
  ∃ news,
    foldM (λ cells col,
             guess ← newCoord r col;
             w ← get;
             ret (if isCellGuessed (game w) guess then cells else cells ++ [guess]))
          cols cells0 w
      = (Ok (cells0 ++ news), allocated (length cols) 0 w) ∧
    cellOf <$> news = filter (λ rc, cellGuessed g rc = false) ((λ c, (r, c)) <$> cols) ∧
    ∀ c, c ∈ news → (nextRef w ≤ ref c < length cols + nextRef w)%nat.
Proof.
  revert cells0 w. induction cols as [|col cols IH]; intros cells0 w Hg; simpl.
  - exists []. rewrite app_nil_r, allocated_0. split_and!; try done.
    intros c Hc. by apply elem_of_nil in Hc.
  - unfold bind at 1, bind at 1, newCoord at 1, bind at 1, get at 1, ret at 1.
    set (w1 := mkWorld _ _ (S (nextRef w)) _ _).
    set (guess := mkCoord (nextRef w) r col).
    change (game w1) with (game w). rewrite Hg.
    rewrite (isCellGuessed_cellOf g guess).
    change (cellOf guess) with (r, col).
    rewrite filter_cons.
    destruct (cellGuessed g (r, col)) eqn:Hguessed.
    + destruct (IH cells0 w1 Hg) as (news & Hrun & Hcells & Hrefs).
      exists news. rewrite Hrun. split_and!.
      * f_equal. unfold allocated, w1. simpl. f_equal; lia.
      * rewrite decide_False by done. exact Hcells.
      * intros c Hc. specialize (Hrefs c Hc). simpl in Hrefs. lia.
    + destruct (IH (cells0 ++ [guess]) w1 Hg) as (news & Hrun & Hcells & Hrefs).
      exists (guess :: news). rewrite Hrun. split_and!.
      * f_equal; [by rewrite <- app_assoc|].
        unfold allocated, w1. simpl. f_equal; lia.
      * rewrite decide_True by done. rewrite fmap_cons. by rewrite Hcells.
      * intros c Hc. apply elem_of_cons in Hc as [->|Hc]; [simpl; lia|].
        specialize (Hrefs c Hc). simpl in Hrefs. lia.
Qed.

Lemma availableCells_rows (g : GameFields) (rows : list Z) (cells0 : list Coord)
    (w : World) :
  game w = g →
  ∃ news,
    foldM (λ cells row,
      foldM (λ cells col,
               guess ← newCoord row col;
               w ← get;
               ret (if isCellGuessed (game w) guess then cells else cells ++ [guess]))
            (seqZ 0 GameConfig.BOARD_SIZE) cells)
          rows cells0 w
      = (Ok (cells0 ++ news),
         allocated (length rows * Z.to_nat GameConfig.BOARD_SIZE) 0 w) ∧
    cellOf <$> news
      = filter (λ rc, cellGuessed g rc = false)
          (row ← rows; (λ col, (row, col)) <$> seqZ 0 GameConfig.BOARD_SIZE)%stdpp ∧
    ∀ c, c ∈ news →
      (nextRef w ≤ ref c
       < length rows * Z.to_nat GameConfig.BOARD_SIZE + nextRef w)%nat.
Proof.
  revert cells0 w. induction rows as [|r rows IH]; intros cells0 w Hg.
  - exists []. simpl. rewrite app_nil_r, allocated_0. split_and!; try done.
    intros c Hc. by apply elem_of_nil in Hc.
  - cbn [foldM]. unfold bind at 1.
    destruct (availableCells_row g r (seqZ 0 GameConfig.BOARD_SIZE) cells0 w Hg)
      as (news1 & Hrun1 & Hcells1 & Hrefs1).
    rewrite Hrun1. rewrite length_seqZ in *.
    change (Z.to_nat GameConfig.BOARD_SIZE) with 10%nat in *.
    set (w1 := allocated _ 0 w) in *.
    destruct (IH (cells0 ++ news1) w1) as (news2 & Hrun2 & Hcells2 & Hrefs2);
      [done|].
    exists (news1 ++ news2). rewrite Hrun2. split_and!.
    + f_equal; [by rewrite <- app_assoc|].
      unfold w1. rewrite allocated_allocated. f_equal. simpl. lia.
    + rewrite fmap_app, Hcells1, Hcells2. cbn [mbind list_bind].
      by rewrite filter_app.
    + intros c Hc. simpl length.
      apply elem_of_app in Hc as [Hc|Hc].
      * specialize (Hrefs1 c Hc). lia.
      * specialize (Hrefs2 c Hc). unfold w1 in Hrefs2. simpl in Hrefs2. lia.
Qed.

(** [#getAvailableCells] makes an object for every cell of the board and
    returns, in the order of the board, those of the cells that the player
    has not guessed. *)
Lemma getAvailableCells_spec (w : World) :
  ∃ cells,
    GameAI.getAvailableCells w = (Ok cells, allocated 100 0 w) ∧
    cellOf <$> cells = unguessedCells (game w) ∧
    ∀ c, c ∈ cells → (nextRef w ≤ ref c < 100 + nextRef w)%nat.
Proof.
  destruct (availableCells_rows (game w) (seqZ 0 GameConfig.BOARD_SIZE) [] w eq_refl)
    as (cells & Hrun & Hcells & Hrefs).
  rewrite length_seqZ in Hrun, Hrefs.
  change (Z.to_nat GameConfig.BOARD_SIZE * Z.to_nat GameConfig.BOARD_SIZE)%nat
    with 100%nat in Hrun, Hrefs.
  exists cells. split_and!; [exact Hrun|exact Hcells|exact Hrefs].
Qed.

Lemma getRandomGuess_spec (rand : nat → nat) (w : World) :
  ∃ cells,
    GameAI.getRandomGuess rand w
      = (Ok (cells !! (match length cells with
                       | O => O
                       | S _ => rand (draws w) mod length cells
                       end)%nat),
         allocated 100 1 w) ∧
    cellOf <$> cells = unguessedCells (game w) ∧
    ∀ c, c ∈ cells → (nextRef w ≤ ref c < 100 + nextRef w)%nat.
Proof.
  destruct (getAvailableCells_spec w) as (cells & Hrun & Hcells & Hrefs).
  exists cells. split_and!; [|exact Hcells|exact Hrefs].
  unfold GameAI.getRandomGuess. unfold bind at 1. rewrite Hrun.
  unfold bind, randomBelow, ret. reflexivity.
Qed.

(** ** [makeGuess], in full *)

Lemma getGuessInDirection_spec (this : AIFields) (h : Coord) (d : Direction)
    (w : World) :
  lastHit this = Some h →
  ∃ g, GameAI.getGuessInDirection this (Some d) w = (Ok (Some g), allocated 1 0 w) ∧
       cellOf g = neighbour (cellOf h) d ∧ ref g = nextRef w.
Proof.
  intros Hh. unfold GameAI.getGuessInDirection. rewrite Hh.
  destruct d; eexists; (split; [reflexivity|done]).
Qed.

Lemma isValidGuess_validCell (g : Coord) (w : World) :
  GameAI.isValidGuess (Some g) w = (Ok (validCell (game w) (cellOf g)), w).
Proof. by rewrite isValidGuess_spec. Qed.

Lemma tryDirections_spec (this : AIFields) (h : Coord) (dirs : list Direction)
    (w : World) :
  lastHit this = Some h →
  match List.find (λ d, validCell (game w) (neighbour (cellOf h) d)) dirs with
  | Some d =>
      ∃ g n, GameAI.tryDirections this dirs w
               = (Ok (Some (d, Some g)), allocated n 0 w) ∧
             cellOf g = neighbour (cellOf h) d ∧ (nextRef w ≤ ref g)%nat
  | None =>
      GameAI.tryDirections this dirs w = (Ok None, allocated (length dirs) 0 w)
  end.
Proof.
  intros Hh. revert w. induction dirs as [|d dirs IH]; intros w.
  - simpl. by rewrite allocated_0.
  - destruct (getGuessInDirection_spec this h d w Hh) as (g & Hrun & Hcell & Href).
    assert (Hstep : GameAI.tryDirections this (d :: dirs) w =
              if validCell (game w) (neighbour (cellOf h) d)
              then (Ok (Some (d, Some g)), allocated 1 0 w)
              else GameAI.tryDirections this dirs (allocated 1 0 w)).
    { cbn [GameAI.tryDirections]. unfold bind at 1. rewrite Hrun.
      unfold bind at 1. rewrite isValidGuess_validCell.
      change (game (allocated 1 0 w)) with (game w). rewrite Hcell.
      by destruct (validCell _ _). }
    rewrite Hstep. cbn [List.find].
    destruct (validCell (game w) (neighbour (cellOf h) d)); cbv beta iota.
    + exists g, 1%nat. split_and!; [done|done|lia].
    + specialize (IH (allocated 1 0 w)).
      change (game (allocated 1 0 w)) with (game w) in IH.
      destruct (List.find _ dirs) as [d'|].
      * destruct IH as (g' & n & Hrun' & Hcell' & Href').
        exists g', (n + 1)%nat. rewrite Hrun', allocated_allocated.
        split_and!; [done|done|]. simpl in Href'. lia.
      * rewrite IH, allocated_allocated. do 2 f_equal. simpl. lia.
Qed.

Lemma inBounds_spec (r c : Z) :
  inBounds r c = true ↔ 0 ≤ r < GameConfig.BOARD_SIZE ∧ 0 ≤ c < GameConfig.BOARD_SIZE.
Proof.
  unfold inBounds.
  destruct (Z.leb_spec 0 r), (Z.ltb_spec r GameConfig.BOARD_SIZE),
    (Z.leb_spec 0 c), (Z.ltb_spec c GameConfig.BOARD_SIZE);
    cbn [andb]; split; try done; lia.
Qed.

Lemma boardCells_spec (rc : Z * Z) :
  rc ∈ boardCells ↔ inBounds rc.1 rc.2 = true.
Proof.
  unfold boardCells. rewrite list_elem_of_bind, inBounds_spec. split.
  - intros (r & Hc & Hr). apply list_elem_of_fmap in Hc as (c & -> & Hc).
    apply elem_of_seqZ in Hr, Hc. cbn [fst snd]. lia.
  - intros [Hr Hc]. destruct rc as [r c]. cbn [fst snd] in *. exists r. split.
    + apply list_elem_of_fmap. exists c. split; [done|]. apply elem_of_seqZ. lia.
    + apply elem_of_seqZ. lia.
Qed.

Lemma unguessedCells_spec (g : GameFields) (rc : Z * Z) :
  rc ∈ unguessedCells g ↔ validCell g rc = true.
Proof.
  unfold unguessedCells, validCell.
  rewrite list_elem_of_filter, boardCells_spec, andb_true_iff, negb_true_iff.
  tauto.
Qed.

(** A random guess is one of the unguessed cells, as a new object; there
    is none exactly when the player has guessed the whole board. *)
Lemma getRandomGuess_total (rand : nat → nat) (w : World) :
  ∃ guess,
    GameAI.getRandomGuess rand w = (Ok guess, allocated 100 1 w) ∧
    (guess = None ↔ unguessedCells (game w) = []) ∧
    ∀ g, guess = Some g →
      validCell (game w) (cellOf g) = true ∧ (nextRef w ≤ ref g)%nat.
Proof.
  destruct (getRandomGuess_spec rand w) as (cells & Hrun & Hcells & Hrefs).
  eexists. split; [exact Hrun|]. clear Hrun. split.
  - rewrite <- Hcells. destruct cells as [|c cells]; [done|].
    split; [|done]. intros Hnone. apply lookup_ge_None in Hnone.
    pose proof (Nat.mod_upper_bound (rand (draws w)) (length (c :: cells))) as Hlt.
    cbn [length] in *. lia.
  - intros g Hg. apply list_elem_of_lookup_2 in Hg. split.
    + apply unguessedCells_spec. rewrite <- Hcells. by apply list_elem_of_fmap_2.
    + specialize (Hrefs g Hg). lia.
Qed.

Lemma find_validCell_unguessed (g : GameFields) (h : Z * Z) (dirs : list Direction)
    (d : Direction) :
  List.find (λ d, validCell g (neighbour h d)) dirs = Some d →
  unguessedCells g ≠ [].
Proof.
  intros Hfind. apply find_some in Hfind as [_ Hv].
  apply unguessedCells_spec in Hv. intros E. rewrite E in Hv.
  by apply elem_of_nil in Hv.
Qed.

Lemma searchDirections_spec (rand : nat → nat) (this : AIFields) (h : Coord)
    (w : World) :
  lastHit this = Some h →
  match List.find (λ d, validCell (game w) (neighbour (cellOf h) d))
                  (possibleDirections this) with
  | Some d =>
      ∃ g n, GameAI.searchDirections rand this w
               = (Ok (set_currentDirection (Some d) this, Some g), allocated n 0 w) ∧
             cellOf g = neighbour (cellOf h) d ∧ (nextRef w ≤ ref g)%nat
  | None =>
      ∃ guess n,
        GameAI.searchDirections rand this w
          = (Ok (GameAI.resetHunt this, guess), allocated n 1 w) ∧
        (guess = None ↔ unguessedCells (game w) = []) ∧
        ∀ g, guess = Some g →
          validCell (game w) (cellOf g) = true ∧ (nextRef w ≤ ref g)%nat
  end.
Proof.
  intros Hh.
  pose proof (tryDirections_spec this h (possibleDirections this) w Hh) as Htry.
  destruct (List.find _ _) as [d|].
  - destruct Htry as (g & n & Hrun & Hcell & Href). exists g, n.
    unfold GameAI.searchDirections. unfold bind at 1. by rewrite Hrun.
  - destruct (getRandomGuess_total rand (allocated (length (possibleDirections this)) 0 w))
      as (guess & Hrun & Hnone & Hsome).
    exists guess. eexists.
    unfold GameAI.searchDirections. unfold bind at 1. rewrite Htry.
    unfold bind at 1. rewrite Hrun, allocated_allocated. split; [reflexivity|].
    split; [done|]. intros g Hg. destruct (Hsome g Hg) as [Hv Hr].
    split; [done|]. simpl in Hr. lia.
Qed.

(** [makeGuess], in full: in hunt mode a random unguessed cell; in target
    mode the first candidate direction with a valid neighbour of the last
    hit, and back to hunt mode when there is none. *)
Lemma makeGuess_spec (rand : nat → nat) (this : AIFields) (w : World) :
  match lastHit this with
  | None =>
      ∃ guess,
        GameAI.makeGuess rand this w = (Ok (this, guess), allocated 100 1 w) ∧
        (guess = None ↔ unguessedCells (game w) = []) ∧
        ∀ g, guess = Some g →
          validCell (game w) (cellOf g) = true ∧ (nextRef w ≤ ref g)%nat
  | Some h =>
      match List.find (λ d, validCell (game w) (neighbour (cellOf h) d))
                      (candidates this) with
      | Some d =>
          ∃ g n, GameAI.makeGuess rand this w
                   = (Ok (set_currentDirection (Some d) this, Some g),
                      allocated n 0 w) ∧
                 cellOf g = neighbour (cellOf h) d ∧ (nextRef w ≤ ref g)%nat
      | None =>
          ∃ guess n,
            GameAI.makeGuess rand this w
              = (Ok (GameAI.resetHunt this, guess), allocated n 1 w) ∧
            (guess = None ↔ unguessedCells (game w) = []) ∧
            ∀ g, guess = Some g →
              validCell (game w) (cellOf g) = true ∧ (nextRef w ≤ ref g)%nat
      end
  end.
Proof.
  unfold GameAI.makeGuess, GameAI.getHuntGuess, candidates.
  destruct (lastHit this) as [h|] eqn:Hh.
  - destruct (currentDirection this) as [d0|] eqn:Hd.
    + destruct (getGuessInDirection_spec this h d0 w Hh) as (g & Hrun & Hcell & Href).
      assert (Hstep :
        (nextGuess ← GameAI.getNextGuessInDirection this;
         valid ← GameAI.isValidGuess nextGuess;
         if valid then ret (this, nextGuess)
         else GameAI.searchDirections rand (GameAI.switchDirection this)) w
        = if validCell (game w) (neighbour (cellOf h) d0)
          then (Ok (this, Some g), allocated 1 0 w)
          else GameAI.searchDirections rand (set_currentDirection None this)
                 (allocated 1 0 w)).
      { unfold GameAI.getNextGuessInDirection. rewrite Hd.
        unfold bind at 1. rewrite Hrun.
        unfold bind at 1. rewrite isValidGuess_validCell.
        change (game (allocated 1 0 w)) with (game w). rewrite Hcell.
        rewrite switchDirection_spec. by destruct (validCell _ _). }
      rewrite Hstep.
      change (option_list (Some d0) ++ possibleDirections this)
        with (d0 :: possibleDirections this).
      cbn [List.find].
      destruct (validCell (game w) (neighbour (cellOf h) d0)); cbv beta iota.
      * exists g, 1%nat. split_and!; [|exact Hcell|lia].
        assert (set_currentDirection (Some d0) this = this) as ->; [|reflexivity].
        clear -Hd. destruct this; simpl in *; by subst.
      * pose proof (searchDirections_spec rand (set_currentDirection None this) h
                      (allocated 1 0 w) Hh) as Hs.
        change (game (allocated 1 0 w)) with (game w) in Hs.
        change (possibleDirections (set_currentDirection None this))
          with (possibleDirections this) in Hs.
        destruct (List.find _ _) as [d|].
        -- destruct Hs as (g' & n & Hrun' & Hcell' & Href').
           exists g', (n + 1)%nat. rewrite Hrun', allocated_allocated.
           split_and!; [reflexivity|exact Hcell'|].
           cbn [nextRef allocated] in Href'. lia.
        -- destruct Hs as (guess & n & Hrun' & Hnone & Hsome).
           exists guess, (n + 1)%nat. rewrite Hrun', allocated_allocated.
           split_and!; [reflexivity|exact Hnone|].
           intros g' Hg'. destruct (Hsome g' Hg') as [Hv Hr].
           split; [exact Hv|]. cbn [nextRef allocated] in Hr. lia.
    + change (option_list None ++ possibleDirections this)
        with (possibleDirections this).
      pose proof (searchDirections_spec rand this h w Hh) as Hs.
      destruct (List.find _ _) as [d|]; exact Hs.
  - destruct (getRandomGuess_total rand w) as (guess & Hrun & Hnone & Hsome).
    exists guess. unfold bind at 1. rewrite Hrun. split; [reflexivity|].
    split; [exact Hnone|exact Hsome].
Qed.

(** ** What a guess of the player does *)

Lemma processPlayerGuess_effect (w w' : World) (guess : JsValue)
    (result : GuessResult) :
  processPlayerGuess guess w = (Ok result, w') →
  guess = objectOf (coordinates result) ∧
  specifiedError w guess = None ∧
  arrays w' = arrays w ∧ nextRef w' = nextRef w ∧ draws w' = draws w ∧
  game w' = set_playerGuesses
              (StrSet_add (playerGuesses (game w)) (getGuessKey (coordinates result)))
              (game w) ∧
  match findShipAtLocation w (cpuShips (game w)) (coordinates result) with
  | Some s =>
      type result = "hit" ∧
      ∃ sh sh', shipAt w s = Some sh ∧
                Ship.hit sh (coordinates result) = Ok sh' ∧
                ships w' = <[s := sh']> (ships w)
  | None => type result = "miss" ∧ ships w' = ships w
  end.
Proof.
  intros Hrun.
  destruct (specifiedError w guess) as [e|] eqn:Hspec.
  { by rewrite (processPlayerGuess_rejected _ _ _ Hspec) in Hrun. }
  destruct (processPlayerGuess_accepted _ _ Hspec) as (c & -> & Hb & Hkey & Heq).
  rewrite Heq in Hrun. clear Heq. cbv zeta in Hrun.
  change (findShipAtLocation (recordPlayerGuess c w)
            (cpuShips (game (recordPlayerGuess c w))) c)
    with (findShipAtLocation w (cpuShips (game w)) c) in Hrun.
  destruct (findShipAtLocation w (cpuShips (game w)) c) as [s|] eqn:Hfind.
  - unfold callShip in Hrun.
    change (shipAt (recordPlayerGuess c w) s) with (shipAt w s) in Hrun.
    destruct (shipAt w s) as [sh|] eqn:Hsh; [|done].
    destruct (Ship.hit sh c) as [sh'|e] eqn:Hhit; [|done].
    injection Hrun as <- <-. cbn [coordinates type]. rewrite Hfind.
    split_and!; try reflexivity; try exact Hspec. by exists sh, sh'.
  - injection Hrun as <- <-. cbn [coordinates type]. rewrite Hfind.
    by split_and!.
Qed.

Lemma hit_Ok (sh sh' : Ship.t) (c : Coord) :
  Ship.hit sh c = Ok sh' →
  Ship.size sh' = Ship.size sh ∧ Ship.locations sh' = Ship.locations sh ∧
  Ship.hits sh' = ObjSet_add (Ship.hits sh) c ∧
  inBounds (row c) (col c) = true ∧
  Ship.isAtLocation sh c = true ∧ Ship.isSunk sh = false.
Proof.
  unfold Ship.hit. rewrite isValidLocation_inBounds.
  destruct (inBounds (row c) (col c)); [|done].
  destruct (Ship.isAtLocation sh c); [|done].
  destruct (Ship.isSunk sh); [done|]. by intros [= <-].
Qed.

Lemma processPlayerGuess_settled (w w' : World) (guess : JsValue)
    (o : Outcome GuessResult) :
  settled w → respectsIdentity w guess →
  processPlayerGuess guess w = (o, w') → settled w'.
Proof.
  intros Hset Hid Hrun.
  assert (Hwf : wellFormed w) by (by destruct Hset).
  destruct (specifiedError w guess) as [e|] eqn:Hspec.
  { rewrite (processPlayerGuess_rejected _ _ _ Hspec) in Hrun.
    by injection Hrun as _ <-. }
  destruct (processPlayerGuess_succeeds w guess Hwf Hid Hspec)
    as (result & w1 & Hrun1 & _ & _ & Hwf1).
  rewrite Hrun1 in Hrun. injection Hrun as _ <-.
  apply processPlayerGuess_effect in Hrun1
    as (_ & _ & Harr & Hn & _ & Hg & Hships).
  apply (settled_step w); try done.
  - lia.
  - by rewrite Harr.
  - by rewrite Hg.
  - by rewrite Hg.
  - by rewrite Hg.
  - by rewrite Hg.
  - intros i sh1 Hi.
    destruct (findShipAtLocation w _ _) as [s|] eqn:Hfind.
    + destruct Hships as (_ & sh & sh' & Hsh & Hhit & Hs1). rewrite Hs1 in Hi.
      apply findShipAtLocation_Some in Hfind as (Hs & _).
      destruct (decide (i = s)) as [->|Hne].
      * rewrite list_lookup_insert_eq in Hi by (by eapply lookup_lt_Some).
        injection Hi as <-. exists sh.
        apply hit_Ok in Hhit as (Hsz & Hloc & _).
        split_and!; try done. intros Hpl.
        destruct Hwf as (_ & _ & Hplayer). by destruct (Hplayer s Hpl).
      * rewrite list_lookup_insert_ne in Hi by done. by exists sh1.
    + destruct Hships as [_ Hs1]. rewrite Hs1 in Hi. by exists sh1.
Qed.

(** ** What a turn of the CPU does in a settled game *)

Lemma with_game_set_gameAI_id (ai : AIFields) (w : World) :
  gameAI (game w) = Some ai → with_game (set_gameAI (Some ai)) w = w.
Proof.
  intros Hai. destruct w as [ss arrs n d g]. destruct g. simpl in *. by subst.
Qed.

Lemma cellGuessed_key (g : GameFields) (c : Coord) :
  cellGuessed g (cellOf c) = false ↔ getGuessKey c ∉ playerGuesses g.
Proof.
  rewrite <- isCellGuessed_cellOf. unfold isCellGuessed. apply StrSet_has_false.
Qed.

Lemma validCell_spec (g : GameFields) (c : Coord) :
  validCell g (cellOf c) = true ↔
  inBounds (row c) (col c) = true ∧ getGuessKey c ∉ playerGuesses g.
Proof.
  unfold validCell. rewrite andb_true_iff, negb_true_iff, cellGuessed_key. done.
Qed.

(** One activation of [processCPUGuess] in a game whose AI is in hunt mode
    and whose ships are made of objects older than the next one: the guess
    is a new object, so it is no location of a ship, and the AI stays as it
    is. *)
Lemma cpuTurn_idle (rand : nat → nat) (w : World) :
  refsBelow w →
  initialized (game w) = true → isGameOver w = false →
  gameAI (game w) = Some GameAI.new →
  ∃ guess,
    (guess = None ↔ unguessedCells (game w) = []) ∧
    (∀ g, guess = Some g →
       validCell (game w) (cellOf g) = true ∧ (nextRef w ≤ ref g)%nat) ∧
    cpuTurn rand w =
      match guess with
      | None => (Throw TypeError, allocated 100 1 w)
      | Some g =>
          if StrSet_has (cpuGuesses (game w)) (getGuessKey g)
          then (Ok None, allocated 100 1 w)
          else (Ok (Some {| type := "miss"; coordinates := g |}),
                with_game (λ gm, set_cpuGuesses
                                   (StrSet_add (cpuGuesses gm) (getGuessKey g)) gm)
                          (allocated 100 1 w))
      end.
Proof.
  intros Hbelow Hinit Hover Hai.
  pose proof (makeGuess_spec rand GameAI.new w) as Hmake.
  cbn [lastHit GameAI.new] in Hmake.
  destruct Hmake as (guess & Hrun & Hnone & Hsome).
  exists guess. split; [exact Hnone|]. split; [exact Hsome|].
  unfold cpuTurn. unfold bind at 1.
  assert (Hv : validateGameState w = (Ok tt, w)).
  { unfold validateGameState, bind, get, ret. by rewrite Hinit, Hover. }
  rewrite Hv. unfold bind at 1, get at 1. rewrite Hai.
  unfold bind at 1. rewrite Hrun. clear Hrun.
  unfold bind at 1, modify at 1.
  set (w1 := allocated 100 1 w).
  assert (Hai1 : gameAI (game w1) = Some GameAI.new) by exact Hai.
  rewrite (with_game_set_gameAI_id _ w1 Hai1).
  destruct guess as [g|]; [|reflexivity].
  unfold bind at 1, get at 1.
  change (cpuGuesses (game w1)) with (cpuGuesses (game w)).
  destruct (StrSet_has (cpuGuesses (game w)) (getGuessKey g)); [reflexivity|].
  unfold bind at 1, modify at 1.
  set (w2 := with_game _ w1).
  unfold bind at 1, get at 1.
  destruct (Hsome g eq_refl) as [_ Hfresh].
  rewrite (findShipAtLocation_fresh w2 _ g (nextRef w)); [|exact Hbelow|exact Hfresh].
  unfold bind at 1, aiUpdateState at 1. unfold bind at 1, get at 1.
  change (gameAI (game w2)) with (gameAI (game w)). rewrite Hai.
  unfold bind at 1. rewrite updateState_not_hit by done.
  change (set_currentDirection None GameAI.new) with GameAI.new.
  unfold modify at 1.
  rewrite (with_game_set_gameAI_id _ w2) by exact Hai.
  reflexivity.
Qed.

Lemma settled_unsunk (w : World) :
  settled w → initialized (game w) = true →
  areAllShipsSunk w (playerShips (game w)) = false.
Proof.
  intros (_ & _ & Hpp & _ & Hunhit & _ & Hinit) Hi.
  destruct (Hinit Hi) as [Hne _].
  destruct (arrayAt w (playerShips (game w))) as [|s fleet] eqn:Hfleet; [done|].
  unfold areAllShipsSunk. rewrite Hfleet. cbn [forallb].
  destruct (shipAt w s) as [sh|] eqn:Hsh; [|done].
  assert (Hin : s ∈ arrayAt w (playerShips (game w))) by (rewrite Hfleet; left).
  pose proof (Hunhit s sh Hin Hsh) as Hh.
  destruct (Hpp s sh Hin Hsh) as [Hsize _].
  unfold Ship.isSunk. rewrite Hh. cbn [length].
  destruct (Z.eqb_spec (Z.of_nat 0) (Ship.size sh)) as [E|_]; [lia|done].
Qed.

(** In a settled game only the CPU's fleet can be sunk. *)
Lemma settled_isGameOver (w : World) :
  settled w →
  isGameOver w = initialized (game w) && areAllShipsSunk w (cpuShips (game w)).
Proof.
  intros Hset. unfold isGameOver.
  destruct (initialized (game w)) eqn:Hi; [|done]. cbn [negb andb].
  by rewrite settled_unsunk.
Qed.

Lemma cpuTurn_settled (rand : nat → nat) (w w' : World)
    (o : Outcome (option GuessResult)) :
  settled w → cpuTurn rand w = (o, w') →
  settled w' ∧
  ships w' = ships w ∧ arrays w' = arrays w ∧ (nextRef w ≤ nextRef w')%nat ∧
  set_cpuGuesses (cpuGuesses (game w)) (game w') = game w ∧
  match o with
  | Ok (Some result) =>
      type result = "miss" ∧
      validCell (game w) (cellOf (coordinates result)) = true ∧
      (nextRef w ≤ ref (coordinates result))%nat ∧
      (getGuessKey (coordinates result) ∉ cpuGuesses (game w)) ∧
      cpuGuesses (game w')
        = StrSet_add (cpuGuesses (game w)) (getGuessKey (coordinates result))
  | Ok None => game w' = game w
  | Throw e =>
      game w' = game w ∧
      (e = NotInitialized ∧ initialized (game w) = false ∨
       e = GameOver ∧ isGameOver w = true ∨
       e = TypeError ∧ unguessedCells (game w) = [])
  end.
Proof.
  intros Hset Hrun.
  assert (Hwf' : wellFormed w').
  { destruct Hset as (Hwf & _).
    pose proof (cpuTurn_wellFormed rand w Hwf) as H. by rewrite Hrun in H. }
  assert (Hgame : ∀ g : GameFields, set_cpuGuesses (cpuGuesses g) g = g)
    by (by intros []).
  destruct (initialized (game w)) eqn:Hinit; cycle 1.
  { revert Hrun. unfold cpuTurn. unfold bind at 1.
    unfold validateGameState, bind, get, throw. rewrite Hinit. cbn [negb].
    intros [= <- <-]. split_and!; try done. by left. }
  destruct (isGameOver w) eqn:Hover.
  { revert Hrun. unfold cpuTurn. unfold bind at 1.
    unfold validateGameState, bind, get, throw. rewrite Hinit, Hover. cbn [negb].
    intros [= <- <-]. split_and!; try done. right. by left. }
  assert (Hai : gameAI (game w) = Some GameAI.new).
  { destruct Hset as (_ & _ & _ & _ & _ & Hai & _). by rewrite Hinit in Hai. }
  assert (Hbelow : refsBelow w) by (by destruct Hset as (_ & ? & _)).
  destruct (cpuTurn_idle rand w Hbelow Hinit Hover Hai)
    as (guess & Hnone & Hsome & Heq).
  rewrite Heq in Hrun. clear Heq.
  assert (Hset1 : ∀ w1, wellFormed w1 → ships w1 = ships w → arrays w1 = arrays w →
            (nextRef w ≤ nextRef w1)%nat →
            set_cpuGuesses (cpuGuesses (game w)) (game w1) = game w → settled w1).
  { intros w1 Hwf1 Hs1 Ha1 Hn1 Hg1.
    apply (settled_sameShips w); try done; try by rewrite <- Hg1.
    by rewrite Ha1. }
  destruct guess as [g|].
  - destruct (Hsome g eq_refl) as [Hvalid Hfresh].
    destruct (StrSet_has (cpuGuesses (game w)) (getGuessKey g)) eqn:Hhas;
      injection Hrun as <- <-.
    + split_and!; try done; try (cbn [nextRef allocated]; lia).
      apply Hset1; try done. cbn [nextRef allocated]. lia.
    + apply StrSet_has_false in Hhas.
      assert (Hg' : set_cpuGuesses (cpuGuesses (game w))
                (game (with_game
                   (λ gm, set_cpuGuesses (StrSet_add (cpuGuesses gm) (getGuessKey g)) gm)
                   (allocated 100 1 w))) = game w).
      { cbn. by destruct (game w). }
      assert (Hn' : (nextRef w ≤ nextRef (with_game
                   (λ gm, set_cpuGuesses (StrSet_add (cpuGuesses gm) (getGuessKey g)) gm)
                   (allocated 100 1 w)))%nat) by (cbn; lia).
      split_and!; try done. by apply Hset1.
  - injection Hrun as <- <-.
    split_and!; try done; try (cbn [nextRef allocated]; lia).
    + apply Hset1; try done. cbn [nextRef allocated]. lia.
    + right. right. split; [done|]. by apply Hnone.
Qed.

Lemma processCPUGuess_settled (rand : nat → nat) (fuel : nat) (w w' : World)
    (o : Outcome GuessResult) :
  settled w → processCPUGuess rand fuel w = Some (o, w') →
  settled w' ∧
  ships w' = ships w ∧ arrays w' = arrays w ∧ (nextRef w ≤ nextRef w')%nat ∧
  set_cpuGuesses (cpuGuesses (game w)) (game w') = game w ∧
  match o with
  | Ok result =>
      type result = "miss" ∧
      validCell (game w) (cellOf (coordinates result)) = true ∧
      (nextRef w ≤ ref (coordinates result))%nat ∧
      (getGuessKey (coordinates result) ∉ cpuGuesses (game w)) ∧
      cpuGuesses (game w')
        = StrSet_add (cpuGuesses (game w)) (getGuessKey (coordinates result))
  | Throw e =>
      game w' = game w ∧
      (e = NotInitialized ∧ initialized (game w) = false ∨
       e = GameOver ∧ isGameOver w = true ∨
       e = TypeError ∧ unguessedCells (game w) = [])
  end.
Proof.
  revert w. induction fuel as [|fuel IH]; intros w Hset; [done|].
  cbn [processCPUGuess].
  destruct (cpuTurn rand w) as [[[result|]|e] w1] eqn:Hturn;
    apply cpuTurn_settled in Hturn as (Hset1 & Hs1 & Ha1 & Hn1 & Hg1 & Hres);
    try done.
  - by intros [= <- <-].
  - intros Hrec. apply IH in Hrec as (Hset2 & Hs2 & Ha2 & Hn2 & Hg2 & Hres2);
      [|done].
    rewrite Hres in Hg2, Hres2.
    assert (Hover : isGameOver w1 = isGameOver w).
    { unfold isGameOver, areAllShipsSunk, shipAt, arrayAt.
      by rewrite Hs1, Ha1, Hres. }
    rewrite Hover in Hres2.
    split_and!; try done; try congruence; try lia.
    destruct o as [result|e]; [|done].
    destruct Hres2 as (? & ? & ? & ? & ?). split_and!; try done. lia.
  - by intros [= <- <-].
Qed.

Lemma copyArray_settled (a : nat) (w : World) :
  settled w → settled (copyArray a w).2.
Proof.
  intros Hset. apply (settled_sameShips w); try done.
  - eapply wellFormed_sameGame; [apply sameGame_copyArray|]. by destruct Hset.
  - cbn. by apply prefix_app_r.
Qed.

(** Every call of the interface keeps the game settled. *)
Lemma apiStep_settled (rand : nat → nat) (w w' : World) :
  settled w → apiStep rand w w' → settled w'.
Proof.
  intros Hset Hstep.
  destruct Hstep as [w o w' H | guess w o w' Hid H | fuel w o w' H
                    | w a w' H | w a w' H].
  - by destruct (initialize_settled rand w w' o Hset H).
  - by eapply processPlayerGuess_settled.
  - by destruct (processCPUGuess_settled rand fuel w w' o Hset H).
  - unfold getPlayerShips, bind, get in H.
    pose proof (copyArray_settled (playerShips (game w)) w Hset) as Hs.
    by rewrite H in Hs.
  - unfold getCPUShips, bind, get in H.
    pose proof (copyArray_settled (cpuShips (game w)) w Hset) as Hs.
    by rewrite H in Hs.
Qed.

Lemma reachable_settled (rand : nat → nat) (w : World) :
  reachable rand w → settled w.
Proof.
  intros Hreach.
  eapply (rtc_ind_r (λ w0, settled w0) newGameState); [| |exact Hreach].
  - apply newGameState_settled.
  - intros w1 w2 _ Hstep IH. by eapply apiStep_settled.
Qed.

(** ** Guesses of the player *)

Lemma StrSet_add_spec (s : StrSet) (k k' : string) :
  k' ∈ StrSet_add s k ↔ k' = k ∨ k' ∈ s.
Proof.
  unfold StrSet_add. destruct (StrSet_has s k) eqn:Hhas.
  - apply StrSet_has_true in Hhas. split; [by right|]. by intros [->|?].
  - rewrite elem_of_app, list_elem_of_singleton. tauto.
Qed.

Lemma getGuessKey_sameCell (a b : Coord) :
  getGuessKey a = getGuessKey b ↔ sameCell a b.
Proof.
  split.
  - unfold getGuessKey. intros E.
    apply app_comma_inj in E as [Er Ec]; [|apply pretty_Z_comma..].
    split; by apply (inj pretty).
  - intros Hs. symmetry. by apply sameCell_key.
Qed.

(** X5.  The key of a guess in the guess sets, [`${row},${col}`], tells
    the cells apart: two guesses have the same key exactly when they have
    the same row and the same column, whatever objects they are. *)
Theorem getGuessKey_inj (a b : Coord) :
  getGuessKey a = getGuessKey b ↔ sameCell a b.
Proof. apply getGuessKey_sameCell. Qed.

(** X6.  After a guess of the player that was processed, [isCellGuessed]
    answers true for the cell of the guess, whatever object asks, and for
    the cells it answered true for before; for no other cell. *)
Theorem isCellGuessed_after_guess (w w' : World) (guess : JsValue)
    (result : GuessResult) (c : Coord) :
  processPlayerGuess guess w = (Ok result, w') →
  isCellGuessed (game w') c = true ↔
  sameCell (coordinates result) c ∨ isCellGuessed (game w) c = true.
Proof.
  intros Hrun.
  apply processPlayerGuess_effect in Hrun as (_ & _ & _ & _ & _ & Hg & _).
  unfold isCellGuessed. rewrite Hg. cbn [playerGuesses set_playerGuesses].
  rewrite !StrSet_has_true, StrSet_add_spec, getGuessKey_sameCell.
  split; (intros [Hs|Hin]; [left|by right]); destruct Hs; by split.
Qed.

Lemma isCellGuessed_after_guess_witness :
  let guess := objectOf (mkCoord 1000 5 5) in
  let result := {| type := "miss"; coordinates := mkCoord 1000 5 5 |} in
  let w' := (processPlayerGuess guess initialGame).2 in
  processPlayerGuess guess initialGame = (Ok result, w') ∧
  (isCellGuessed (game w') (mkCoord 7 5 5) = true ↔
   sameCell (coordinates result) (mkCoord 7 5 5) ∨
   isCellGuessed (game initialGame) (mkCoord 7 5 5) = true).
Proof.
  intros guess result w'.
  assert (H : processPlayerGuess guess initialGame = (Ok result, w'))
    by (vm_compute; reflexivity).
  split; [exact H|]. exact (isCellGuessed_after_guess _ _ _ _ _ H).
Defined.

(** X7.  A guess of the player that was processed leaves the arrays, the
    CPU's guesses and the AI as they were.  It is reported as a hit exactly
    when the guess object is a location object of a ship of the CPU's
    fleet; that ship was not sunk, has the object among its hits
    afterwards, and is the only ship that changed.  A miss changes no
    ship. *)
Theorem processPlayerGuess_changes_one_ship (w w' : World) (guess : JsValue)
    (result : GuessResult) :
  processPlayerGuess guess w = (Ok result, w') →
  arrays w' = arrays w ∧
  cpuGuesses (game w') = cpuGuesses (game w) ∧
  gameAI (game w') = gameAI (game w) ∧
  match findShipAtLocation w (cpuShips (game w)) (coordinates result) with
  | Some s =>
      type result = "hit" ∧ s ∈ arrayAt w (cpuShips (game w)) ∧
      ∃ sh sh',
        shipAt w s = Some sh ∧ shipAt w' s = Some sh' ∧
        Ship.isAtLocation sh (coordinates result) = true ∧
        Ship.isSunk sh = false ∧
        Ship.isHit sh' (coordinates result) = true ∧
        Ship.locations sh' = Ship.locations sh ∧
        ∀ s', s' ≠ s → shipAt w' s' = shipAt w s'
  | None => type result = "miss" ∧ ships w' = ships w
  end.
Proof.
  intros Hrun.
  apply processPlayerGuess_effect in Hrun as (_ & _ & Ha & _ & _ & Hg & Hs).
  rewrite Hg. split_and!; try done.
  destruct (findShipAtLocation w _ _) as [s|] eqn:Hfind; [|done].
  destruct Hs as (Ht & sh & sh' & Hsh & Hhit & Hs').
  apply findShipAtLocation_Some in Hfind as [Hin _].
  apply hit_Ok in Hhit as (_ & Hloc & Hhits & _ & Hat & Hsunk).
  split_and!; try done. exists sh, sh'. unfold shipAt. rewrite Hs'.
  split_and!; try done.
  - apply list_lookup_insert_eq. by eapply lookup_lt_Some.
  - unfold Ship.isHit. rewrite Hhits. apply ObjSet_has_true, ObjSet_add_refs.
    by left.
  - intros s' Hne. by rewrite list_lookup_insert_ne.
Qed.

Lemma processPlayerGuess_changes_one_ship_witness :
  let c := mkCoord 13 0 0 in
  let result := {| type := "hit"; coordinates := c |} in
  let w' := (processPlayerGuess (objectOf c) initialGame).2 in
  processPlayerGuess (objectOf c) initialGame = (Ok result, w') ∧
  arrays w' = arrays initialGame ∧
  cpuGuesses (game w') = cpuGuesses (game initialGame) ∧
  gameAI (game w') = gameAI (game initialGame) ∧
  match findShipAtLocation initialGame (cpuShips (game initialGame))
          (coordinates result) with
  | Some s =>
      type result = "hit" ∧ s ∈ arrayAt initialGame (cpuShips (game initialGame)) ∧
      ∃ sh sh',
        shipAt initialGame s = Some sh ∧ shipAt w' s = Some sh' ∧
        Ship.isAtLocation sh (coordinates result) = true ∧
        Ship.isSunk sh = false ∧
        Ship.isHit sh' (coordinates result) = true ∧
        Ship.locations sh' = Ship.locations sh ∧
        ∀ s', s' ≠ s → shipAt w' s' = shipAt initialGame s'
  | None => type result = "miss" ∧ ships w' = ships initialGame
  end.
Proof.
  intros c result w'.
  assert (H : processPlayerGuess (objectOf c) initialGame = (Ok result, w'))
    by (vm_compute; reflexivity).
  split; [exact H|]. exact (processPlayerGuess_changes_one_ship _ _ _ _ H).
Defined.

(** ** Games reached through the interface *)

Lemma freshFleet_unsunk (w : World) (fleet : nat) (sizes : list Z) :
  freshFleet w fleet sizes → sizes ≠ [] → areAllShipsSunk w fleet = false.
Proof.
  unfold freshFleet, areAllShipsSunk. intros HF Hne.
  destruct HF as [|s size fleet' sizes' (sh & Hsh & _ & Hh & [Hsz _]) _]; [done|].
  cbn [forallb]. rewrite Hsh. unfold Ship.isSunk. rewrite Hh. cbn [length].
  destruct (Z.eqb_spec (Z.of_nat 0) (Ship.size sh)) as [E|_]; [lia|done].
Qed.

Lemma fleetGrown_freshFleet (fleet : nat) (sizes : list Z) (w w' : World) :
  arrayAt w fleet = [] → fleetGrown fleet sizes w w' → freshFleet w' fleet sizes.
Proof.
  intros He (_ & _ & _ & _ & news & Hf & Hn). unfold freshFleet.
  by rewrite Hf, He.
Qed.

Lemma freshFleet_ext (w w' : World) (fleet : nat) (sizes : list Z) :
  arrayAt w' fleet = arrayAt w fleet →
  (∀ s, s ∈ arrayAt w fleet → shipAt w' s = shipAt w s) →
  freshFleet w fleet sizes → freshFleet w' fleet sizes.
Proof.
  unfold freshFleet. intros -> Hs HF.
  induction HF as [|s size fleet' sizes' (sh & Hsh & Hrest) HF IH]; [constructor|].
  constructor.
  - exists sh. split; [|done]. rewrite Hs; [done|left].
  - apply IH. intros s' Hs'. apply Hs. by right.
Qed.

Lemma initialize_new_game (rand : nat → nat) (w' : World) :
  initialize rand newGameState = (Ok tt, w') →
  isInitialized w' = true ∧ isGameOver w' = false ∧
  playerGuesses (game w') = [] ∧ cpuGuesses (game w') = [] ∧
  freshFleet w' (playerShips (game w')) manifest ∧
  freshFleet w' (cpuShips (game w')) manifest.
Proof.
  intros Hrun.
  destruct (initialize_settled rand _ _ _ newGameState_settled Hrun)
    as (Hset & _ & w1 & w2 & Hgr1 & Hgr2 & ->).
  assert (Hg1 : game w1 = game newGameState) by (by destruct Hgr1).
  assert (Hg2 : game w2 = game w1) by (by destruct Hgr2).
  assert (Hp : freshFleet w2 (playerShips (game newGameState)) manifest).
  { apply (freshFleet_ext w1).
    - destruct Hgr2 as (_ & _ & _ & Hoth & _). by apply Hoth.
    - intros s Hs. destruct Hgr2 as (_ & _ & Hold & _). apply Hold.
      destruct Hgr1 as (_ & _ & _ & _ & news & Hf & Hn).
      rewrite Hf in Hs. cbn in Hs.
      apply list_elem_of_lookup in Hs as [i Hi].
      destruct (Forall2_lookup_l _ _ _ _ _ Hn Hi) as (size & _ & sh & Hsh & _).
      by eapply lookup_lt_Some.
    - by apply (fleetGrown_freshFleet _ _ newGameState). }
  assert (Hc : freshFleet w2 (cpuShips (game newGameState)) manifest).
  { apply (fleetGrown_freshFleet _ _ w1); [|done].
    destruct Hgr1 as (_ & _ & _ & Hoth & _). by rewrite Hoth. }
  split_and!.
  - done.
  - unfold isGameOver. cbn [game with_game set_initialized set_gameAI initialized negb
      playerShips cpuShips].
    rewrite Hg2, Hg1.
    change (areAllShipsSunk w2 (playerShips (game newGameState)) ||
            areAllShipsSunk w2 (cpuShips (game newGameState)) = false).
    by rewrite (freshFleet_unsunk _ _ _ Hp), (freshFleet_unsunk _ _ _ Hc).
  - cbn. by rewrite Hg2, Hg1.
  - cbn. by rewrite Hg2, Hg1.
  - cbn [game with_game set_initialized set_gameAI playerShips].
    rewrite Hg2, Hg1. exact Hp.
  - cbn [game with_game set_initialized set_gameAI cpuShips].
    rewrite Hg2, Hg1. exact Hc.
Qed.


(** X8.  [initialize()] on a new game, when it returns: the game is
    initialized and not over, no cell is guessed, and each fleet holds one
    ship for every entry of the manifest, in its order, of the size of the
    entry, without a hit, on as many cells as its size, in a straight line
    on the board. *)
Theorem initialize_places_the_manifest (rand : nat → nat) (w' : World) :
  initialize rand newGameState = (Ok tt, w') →
  isInitialized w' = true ∧ isGameOver w' = false ∧
  playerGuesses (game w') = [] ∧ cpuGuesses (game w') = [] ∧
  freshFleet w' (playerShips (game w')) manifest ∧
  freshFleet w' (cpuShips (game w')) manifest.
Proof. apply initialize_new_game. Qed.

Lemma initialize_places_the_manifest_witness :
  initialize rowsOracle newGameState = (Ok tt, initialGame) ∧
  isInitialized initialGame = true ∧ isGameOver initialGame = false ∧
  playerGuesses (game initialGame) = [] ∧ cpuGuesses (game initialGame) = [] ∧
  freshFleet initialGame (playerShips (game initialGame)) manifest ∧
  freshFleet initialGame (cpuShips (game initialGame)) manifest.
Proof.
  assert (H : initialize rowsOracle newGameState = (Ok tt, initialGame))
    by (vm_compute; reflexivity).
  split; [exact H|]. exact (initialize_places_the_manifest _ _ H).
Defined.

Lemma fleetGrown_length (fleet : nat) (sizes : list Z) (w w' : World) :
  fleetGrown fleet sizes w w' →
  length (arrayAt w' fleet) = (length (arrayAt w fleet) + length sizes)%nat.
Proof.
  intros (_ & _ & _ & _ & news & -> & Hn). rewrite length_app.
  by rewrite (Forall2_length _ _ _ Hn).
Qed.

(** X9.  [initialize()] that throws, in a game reached through the
    interface.  On an initialized game the error is AlreadyInitialized and
    nothing changes.  Otherwise the error is that of the fleet whose
    placement ran out of attempts; the fields of the game are as they were,
    so the game is still not initialized, but the ships placed before the
    failure stay in their fleets: fewer than the manifest in the fleet that
    failed, and the whole manifest in the player's fleet when it was the
    CPU's that failed. *)
Theorem initialize_failure_keeps_ships (rand0 rand : nat → nat) (w w' : World)
    (e : Error) :
  reachable rand0 w →
  initialize rand w = (Throw e, w') →
  if isInitialized w then e = AlreadyInitialized ∧ w' = w
  else
    game w' = game w ∧
    let player := playerShips (game w) in
    let cpu := cpuShips (game w) in
    (e = PlacementExhausted ∧
     (length (arrayAt w player) ≤ length (arrayAt w' player)
      < length (arrayAt w player) + length manifest)%nat ∧
     arrayAt w' cpu = arrayAt w cpu
     ∨
     e = PlacementExhaustedCPU ∧
     length (arrayAt w' player)
       = (length (arrayAt w player) + length manifest)%nat ∧
     (length (arrayAt w cpu) ≤ length (arrayAt w' cpu)
      < length (arrayAt w cpu) + length manifest)%nat).
Proof.
  intros Hreach Hrun.
  pose proof (reachable_settled rand0 w Hreach) as Hset.
  assert (Hne : playerShips (game w) ≠ cpuShips (game w)).
  { by destruct Hset as (((_ & _ & ?) & _) & _). }
  destruct (initialize_settled rand w w' _ Hset Hrun) as [_ Hres].
  unfold isInitialized. destruct (initialized (game w)); [done|].
  destruct Hres as [Hg Hres]. split; [done|]. cbv zeta.
  destruct Hres as [(-> & sizes & Hlt & Hgr) | (-> & w1 & sizes & Hgr1 & Hlt & Hgr2)].
  - left. split; [done|].
    rewrite (fleetGrown_length _ _ _ _ Hgr).
    destruct Hgr as (_ & _ & _ & Hoth & _).
    split; [lia|]. apply Hoth. done.
  - right. split; [done|].
    rewrite (fleetGrown_length _ _ _ _ Hgr2).
    assert (Hp : arrayAt w' (playerShips (game w)) = arrayAt w1 (playerShips (game w))).
    { destruct Hgr2 as (_ & _ & _ & Hoth & _). by apply Hoth. }
    assert (Hc : arrayAt w1 (cpuShips (game w)) = arrayAt w (cpuShips (game w))).
    { destruct Hgr1 as (_ & _ & _ & Hoth & _). apply Hoth. done. }
    rewrite Hp, Hc, (fleetGrown_length _ _ _ _ Hgr1). lia.
Qed.

Lemma initialize_failure_keeps_ships_witness :
  let w' := (initialize offBoardOracle newGameState).2 in
  reachable rowsOracle newGameState ∧
  initialize offBoardOracle newGameState = (Throw PlacementExhausted, w') ∧
  game w' = game newGameState ∧
  (PlacementExhausted = PlacementExhausted ∧
   (length (arrayAt newGameState 0) ≤ length (arrayAt w' 0)
    < length (arrayAt newGameState 0) + length manifest)%nat ∧
   arrayAt w' 1 = arrayAt newGameState 1
   ∨
   PlacementExhausted = PlacementExhaustedCPU ∧
   length (arrayAt w' 0)
     = (length (arrayAt newGameState 0) + length manifest)%nat ∧
   (length (arrayAt newGameState 1) ≤ length (arrayAt w' 1)
    < length (arrayAt newGameState 1) + length manifest)%nat).
Proof.
  intros w'.
  assert (Hreach : reachable rowsOracle newGameState) by apply rtc_refl.
  assert (H : initialize offBoardOracle newGameState = (Throw PlacementExhausted, w'))
    by (vm_compute; reflexivity).
  split; [exact Hreach|]. split; [exact H|].
  exact (initialize_failure_keeps_ships rowsOracle offBoardOracle _ _ _ Hreach H).
Defined.

(** X10.  An attempt to place a ship in a game reached through the
    interface throws exactly when the line it draws leaves the board: the
    check for an overlap never rejects a placement, because the drawn
    locations are new objects and a ship knows its locations by
    identity. *)
Theorem placement_fails_only_off_board (rand0 rand : nat → nat) (size : Z)
    (fleet : nat) (w w' : World) (o : Outcome unit) :
  reachable rand0 w →
  fleet = playerShips (game w) ∨ fleet = cpuShips (game w) →
  1 ≤ size ≤ 4 →
  tryPlaceShip rand size fleet w = (o, w') →
  o = Ok tt ↔ onBoard (drawnLine rand size w).
Proof.
  intros Hreach Hfleet Hsize Hrun.
  pose proof (reachable_settled rand0 w Hreach) as Hset.
  destruct (tryPlaceShip_settled rand size fleet w w' o Hset Hfleet Hrun)
    as (_ & _ & _ & _ & _ & Hres).
  destruct o as [[]|e].
  - destruct Hres as (s & sh & _ & _ & Hsz & _ & (_ & rc & d & Hc & Hon) & Hline).
    split; [|done]. intros _. rewrite <- Hline, Hc. exact Hon.
  - destruct Hres as [_ Hoff]. split; [done|]. intros Hon. by destruct (Hoff Hsize).
Qed.

Lemma placement_fails_only_off_board_witness :
  let fleet := playerShips (game initialGame) in
  let w' := (tryPlaceShip stackedOracle 3 fleet initialGame).2 in
  reachable rowsOracle initialGame ∧
  (fleet = playerShips (game initialGame) ∨ fleet = cpuShips (game initialGame)) ∧
  1 ≤ 3 ≤ 4 ∧
  tryPlaceShip stackedOracle 3 fleet initialGame = (Ok tt, w') ∧
  (Ok tt = Ok tt ↔ onBoard (drawnLine stackedOracle 3 initialGame)).
Proof.
  intros fleet w'.
  pose proof initialGame_reachable as Hreach.
  assert (Hfleet : fleet = playerShips (game initialGame) ∨
                   fleet = cpuShips (game initialGame)) by (by left).
  assert (Hsize : 1 ≤ 3 ≤ 4) by lia.
  assert (H : tryPlaceShip stackedOracle 3 fleet initialGame = (Ok tt, w'))
    by (vm_compute; reflexivity).
  split; [exact Hreach|]. split; [exact Hfleet|]. split; [exact Hsize|].
  split; [exact H|].
  exact (placement_fails_only_off_board rowsOracle stackedOracle 3 fleet
           initialGame w' (Ok tt) Hreach Hfleet Hsize H).
Defined.

(** X11.  In a game reached through the interface every ship of a fleet
    lies on as many cells as its size, in a straight line on the board,
    and its hits are among its locations. *)
Theorem fleet_ships_are_lines (rand : nat → nat) (w : World) (fleet s : nat)
    (sh : Ship.t) :
  reachable rand w →
  fleet = playerShips (game w) ∨ fleet = cpuShips (game w) →
  s ∈ arrayAt w fleet → shipAt w s = Some sh →
  placed sh ∧
  Z.of_nat (length (Ship.locations sh)) = Ship.size sh ∧
  ∀ l, Ship.isHit sh l = true → Ship.isAtLocation sh l = true.
Proof.
  intros Hreach Hfleet Hs Hsh.
  destruct (reachable_settled rand w Hreach)
    as (Hwf & _ & Hpp & Hpc & Hunhit & _).
  assert (Hplaced : placed sh).
  { destruct Hfleet as [-> | ->]; [by eapply Hpp|by eapply Hpc]. }
  split; [done|]. split.
  - destruct Hplaced as (Hsz & rc & d & Hc & _).
    apply (f_equal length) in Hc. rewrite length_fmap in Hc. rewrite Hc.
    clear Hc. assert (Hlen : ∀ n rc, length (lineCells rc d n) = n).
    { intros n. induction n as [|n IH]; intros rc'; [done|]. cbn. by rewrite IH. }
    rewrite Hlen. lia.
  - intros l Hhit. destruct Hfleet as [-> | ->].
    + unfold Ship.isHit in Hhit. rewrite (Hunhit s sh Hs Hsh) in Hhit. done.
    + destruct Hwf as (_ & Hcpu & _).
      destruct (Hcpu s Hs) as (sh0 & Hsh0 & _ & _ & _ & Hin).
      assert (sh0 = sh) as -> by congruence.
      apply ObjSet_has_true in Hhit. apply ObjSet_has_true.
      apply list_elem_of_fmap in Hhit as (h & -> & Hh).
      apply list_elem_of_fmap_2. by destruct (Hin h Hh).
Qed.

Lemma fleet_ships_are_lines_witness :
  let sh := Ship.mk 3 [mkCoord 13 0 0; mkCoord 14 0 1; mkCoord 15 0 2] [] in
  reachable rowsOracle initialGame ∧
  (1%nat = playerShips (game initialGame) ∨ 1%nat = cpuShips (game initialGame)) ∧
  3%nat ∈ arrayAt initialGame 1 ∧ shipAt initialGame 3 = Some sh ∧
  placed sh ∧
  Z.of_nat (length (Ship.locations sh)) = Ship.size sh ∧
  ∀ l, Ship.isHit sh l = true → Ship.isAtLocation sh l = true.
Proof.
  intros sh.
  pose proof initialGame_reachable as Hreach.
  assert (Hfleet : 1%nat = playerShips (game initialGame) ∨
                   1%nat = cpuShips (game initialGame)) by (by right).
  assert (Hs : 3%nat ∈ arrayAt initialGame 1) by (vm_compute; left).
  assert (Hsh : shipAt initialGame 3 = Some sh) by (vm_compute; reflexivity).
  split; [exact Hreach|]. split; [exact Hfleet|]. split; [exact Hs|].
  split; [exact Hsh|].
  exact (fleet_ships_are_lines rowsOracle initialGame 1 3 sh Hreach Hfleet Hs Hsh).
Defined.

(** X12.  In a game reached through the interface, [processCPUGuess] that
    returns a result reports a miss, whatever lies on the cell: the guess
    is an object the AI has just made, and no ship has it as a location.
    The cell is on the board, was not guessed by the player and is new to
    the CPU's guesses; the call adds it to them and changes no ship, no
    fleet and no other field of the game. *)
Theorem processCPUGuess_always_misses (rand0 rand : nat → nat) (fuel : nat)
    (w w' : World) (result : GuessResult) :
  reachable rand0 w →
  processCPUGuess rand fuel w = Some (Ok result, w') →
  let key := getGuessKey (coordinates result) in
  type result = "miss" ∧
  inBounds (row (coordinates result)) (col (coordinates result)) = true ∧
  isCellGuessed (game w) (coordinates result) = false ∧
  (key ∉ cpuGuesses (game w)) ∧
  ships w' = ships w ∧ arrays w' = arrays w ∧
  game w' = set_cpuGuesses (StrSet_add (cpuGuesses (game w)) key) (game w).
Proof.
  intros Hreach Hrun.
  pose proof (reachable_settled rand0 w Hreach) as Hset.
  destruct (processCPUGuess_settled rand fuel w w' _ Hset Hrun)
    as (_ & Hs & Ha & _ & Hg & Ht & Hv & _ & Hnew & Hadd).
  apply validCell_spec in Hv as [Hb Hk]. cbv zeta.
  split_and!; try done.
  - by apply StrSet_has_false.
  - clear -Hg Hadd. destruct (game w'), (game w). cbn in *.
    injection Hg as -> -> -> -> -> ->. by rewrite Hadd.
Qed.

Lemma processCPUGuess_always_misses_witness :
  let result := {| type := "miss"; coordinates := mkCoord 24 0 0 |} in
  let key := getGuessKey (coordinates result) in
  reachable rowsOracle initialGame ∧
  processCPUGuess rowsOracle 1 initialGame = Some (Ok result, afterCpuGuess) ∧
  type result = "miss" ∧
  inBounds (row (coordinates result)) (col (coordinates result)) = true ∧
  isCellGuessed (game initialGame) (coordinates result) = false ∧
  (key ∉ cpuGuesses (game initialGame)) ∧
  ships afterCpuGuess = ships initialGame ∧
  arrays afterCpuGuess = arrays initialGame ∧
  game afterCpuGuess
    = set_cpuGuesses (StrSet_add (cpuGuesses (game initialGame)) key)
        (game initialGame).
Proof.
  intros result key.
  pose proof initialGame_reachable as Hreach.
  assert (H : processCPUGuess rowsOracle 1 initialGame
              = Some (Ok result, afterCpuGuess)) by (vm_compute; reflexivity).
  split; [exact Hreach|]. split; [exact H|].
  exact (processCPUGuess_always_misses rowsOracle rowsOracle 1 initialGame
           afterCpuGuess result Hreach H).
Defined.

(** X13.  In a game reached through the interface no ship of the player's
    fleet has a hit, so the player's fleet is never sunk: when the game is
    over, it is the CPU's fleet that is sunk. *)
Theorem only_the_cpu_fleet_is_sunk (rand : nat → nat) (w : World) :
  reachable rand w →
  (∀ s sh, s ∈ arrayAt w (playerShips (game w)) → shipAt w s = Some sh →
           Ship.hits sh = [] ∧ Ship.isSunk sh = false) ∧
  (isInitialized w = true → areAllShipsSunk w (playerShips (game w)) = false) ∧
  isGameOver w = isInitialized w && areAllShipsSunk w (cpuShips (game w)).
Proof.
  intros Hreach.
  pose proof (reachable_settled rand w Hreach) as Hset.
  split_and!.
  - intros s sh Hs Hsh. destruct Hset as (_ & _ & Hpp & _ & Hunhit & _).
    pose proof (Hunhit s sh Hs Hsh) as Hh. split; [done|].
    destruct (Hpp s sh Hs Hsh) as [Hsz _].
    unfold Ship.isSunk. rewrite Hh. cbn [length].
    destruct (Z.eqb_spec (Z.of_nat 0) (Ship.size sh)) as [E|_]; [lia|done].
  - by apply settled_unsunk.
  - by apply settled_isGameOver.
Qed.

Lemma only_the_cpu_fleet_is_sunk_witness :
  reachable rowsOracle afterCpuGuess ∧
  (∀ s sh, s ∈ arrayAt afterCpuGuess (playerShips (game afterCpuGuess)) →
           shipAt afterCpuGuess s = Some sh →
           Ship.hits sh = [] ∧ Ship.isSunk sh = false) ∧
  (isInitialized afterCpuGuess = true →
   areAllShipsSunk afterCpuGuess (playerShips (game afterCpuGuess)) = false) ∧
  isGameOver afterCpuGuess
    = isInitialized afterCpuGuess &&
      areAllShipsSunk afterCpuGuess (cpuShips (game afterCpuGuess)).
Proof.
  assert (Hreach : reachable rowsOracle afterCpuGuess).
  { eapply rtc_r; [apply initialGame_reachable|].
    apply (step_processCPUGuess rowsOracle 1 initialGame
             (Ok {| type := "miss"; coordinates := mkCoord 24 0 0 |})).
    vm_compute. reflexivity. }
  split; [exact Hreach|].
  exact (only_the_cpu_fleet_is_sunk rowsOracle afterCpuGuess Hreach).
Defined.

(** X14.  In a game reached through the interface the AI exists exactly
    when the game is initialized, and it is always as its constructor left
    it: no hit is ever reported to it, so it never leaves the hunt mode. *)
Theorem ai_never_leaves_hunt_mode (rand : nat → nat) (w : World) :
  reachable rand w →
  gameAI (game w) = if isInitialized w then Some GameAI.new else None.
Proof.
  intros Hreach.
  by destruct (reachable_settled rand w Hreach) as (_ & _ & _ & _ & _ & Hai & _).
Qed.

Lemma ai_never_leaves_hunt_mode_witness :
  reachable rowsOracle lastCellGame ∧
  gameAI (game lastCellGame)
    = if isInitialized lastCellGame then Some GameAI.new else None.
Proof.
  split; [exact lastCellGame_reachable|].
  exact (ai_never_leaves_hunt_mode rowsOracle lastCellGame lastCellGame_reachable).
Defined.

(** X15.  The first activation of [processCPUGuess] in a game reached
    through the interface.  It throws NotInitialized before
    [initialize()] and GameOver once the game is over, leaving the world
    as it was.  When the player has guessed every cell of the board the
    AI has no guess to give, and the call fails on the guess that is
    [undefined].  Otherwise, when every cell the CPU has guessed was also
    guessed by the player, the call returns a result at once. *)
Theorem processCPUGuess_first_activation (rand0 rand : nat → nat) (fuel : nat)
    (w : World) :
  reachable rand0 w →
  (isInitialized w = false →
   processCPUGuess rand (S fuel) w = Some (Throw NotInitialized, w)) ∧
  (isInitialized w = true → isGameOver w = true →
   processCPUGuess rand (S fuel) w = Some (Throw GameOver, w)) ∧
  (isInitialized w = true → isGameOver w = false →
   unguessedCells (game w) = [] →
   ∃ w', processCPUGuess rand (S fuel) w = Some (Throw TypeError, w') ∧
         game w' = game w) ∧
  (isInitialized w = true → isGameOver w = false →
   unguessedCells (game w) ≠ [] →
   cpuGuesses (game w) ⊆ playerGuesses (game w) →
   ∃ result w', processCPUGuess rand (S fuel) w = Some (Ok result, w')).
Proof.
  intros Hreach.
  pose proof (reachable_settled rand0 w Hreach) as Hset.
  unfold isInitialized. split_and!.
  - intros Hi. cbn [processCPUGuess]. unfold cpuTurn. unfold bind at 1.
    unfold validateGameState, bind, get, throw. by rewrite Hi.
  - intros Hi Hover. cbn [processCPUGuess]. unfold cpuTurn. unfold bind at 1.
    unfold validateGameState, bind, get, throw. by rewrite Hi, Hover.
  - intros Hi Hover Hfull.
    destruct Hset as (_ & Hbelow & _ & _ & _ & Hai & _). rewrite Hi in Hai.
    destruct (cpuTurn_idle rand w Hbelow Hi Hover Hai)
      as (guess & Hnone & _ & Heq).
    cbn [processCPUGuess]. rewrite Heq. clear Heq.
    apply Hnone in Hfull as ->. by eexists.
  - intros Hi Hover Hsome Hsub.
    destruct Hset as (_ & Hbelow & _ & _ & _ & Hai & _). rewrite Hi in Hai.
    destruct (cpuTurn_idle rand w Hbelow Hi Hover Hai)
      as (guess & Hnone & Hvalid & Heq).
    cbn [processCPUGuess]. rewrite Heq. clear Heq.
    destruct guess as [g|]; [|by destruct Hsome; apply Hnone].
    destruct (Hvalid g eq_refl) as [Hv _].
    apply validCell_spec in Hv as [_ Hk].
    assert (Hhas : StrSet_has (cpuGuesses (game w)) (getGuessKey g) = false).
    { apply StrSet_has_false. intros Hin. apply Hk. by apply Hsub. }
    rewrite Hhas. by eexists _, _.
Qed.

Lemma processCPUGuess_first_activation_witness :
  reachable rowsOracle fullBoardGame ∧
  (isInitialized fullBoardGame = false →
   processCPUGuess rowsOracle 1 fullBoardGame
     = Some (Throw NotInitialized, fullBoardGame)) ∧
  (isInitialized fullBoardGame = true → isGameOver fullBoardGame = true →
   processCPUGuess rowsOracle 1 fullBoardGame
     = Some (Throw GameOver, fullBoardGame)) ∧
  (isInitialized fullBoardGame = true → isGameOver fullBoardGame = false →
   unguessedCells (game fullBoardGame) = [] →
   ∃ w', processCPUGuess rowsOracle 1 fullBoardGame = Some (Throw TypeError, w') ∧
         game w' = game fullBoardGame) ∧
  (isInitialized fullBoardGame = true → isGameOver fullBoardGame = false →
   unguessedCells (game fullBoardGame) ≠ [] →
   cpuGuesses (game fullBoardGame) ⊆ playerGuesses (game fullBoardGame) →
   ∃ result w',
     processCPUGuess rowsOracle 1 fullBoardGame = Some (Ok result, w')).
Proof.
  split; [exact fullBoardGame_reachable|].
  exact (processCPUGuess_first_activation rowsOracle rowsOracle 0 fullBoardGame
           fullBoardGame_reachable).
Defined.

(** ** The guesses of the AI *)

(** X16.  [makeGuess], in whatever state the AI is and whatever the game,
    the coordinates of a last hit being integers as those of every object
    the engine makes: it never throws; it makes objects and draws random numbers, and leaves
    the ships, the arrays and the fields of the game alone; it returns
    [undefined] exactly when the player has guessed every cell of the
    board; a guess it returns is a new object, on the board, on a cell the
    player has not guessed. *)
Theorem makeGuess_total (rand : nat → nat) (this : AIFields) (w : World) :
  ∃ this' guess n k,
    GameAI.makeGuess rand this w = (Ok (this', guess), allocated n k w) ∧
    (guess = None ↔ unguessedCells (game w) = []) ∧
    ∀ g, guess = Some g →
      inBounds (row g) (col g) = true ∧
      isCellGuessed (game w) g = false ∧
      (nextRef w ≤ ref g)%nat.
Proof.
  assert (Hvalid : ∀ g, validCell (game w) (cellOf g) = true →
            inBounds (row g) (col g) = true ∧ isCellGuessed (game w) g = false).
  { intros g Hv. apply validCell_spec in Hv as [Hb Hk]. split; [done|].
    by apply StrSet_has_false. }
  pose proof (makeGuess_spec rand this w) as Hspec.
  destruct (lastHit this) as [h|].
  - destruct (List.find _ _) as [d|] eqn:Hfind.
    + destruct Hspec as (g & n & Hrun & Hcell & Href).
      exists (set_currentDirection (Some d) this), (Some g), n, 0%nat.
      split; [exact Hrun|]. clear Hrun. split.
      * split; [done|]. intros Hnil.
        by destruct (find_validCell_unguessed _ _ _ _ Hfind).
      * intros g' [= <-]. apply find_some in Hfind as [_ Hv].
        rewrite <- Hcell in Hv. destruct (Hvalid g Hv). by split_and!.
    + destruct Hspec as (guess & n & Hrun & Hnone & Hsome).
      exists (GameAI.resetHunt this), guess, n, 1%nat.
      split; [exact Hrun|]. clear Hrun. split; [exact Hnone|].
      intros g Hg. destruct (Hsome g Hg) as [Hv Hr].
      destruct (Hvalid g Hv). by split_and!.
  - destruct Hspec as (guess & Hrun & Hnone & Hsome).
    exists this, guess, 100%nat, 1%nat.
    split; [exact Hrun|]. clear Hrun. split; [exact Hnone|].
    intros g Hg. destruct (Hsome g Hg) as [Hv Hr].
    destruct (Hvalid g Hv). by split_and!.
Qed.

(** X17.  [makeGuess] in target mode, with a last hit.  The AI probes the
    current direction, if it has one, and then the possible directions in
    their order; the first of them whose neighbour of the last hit is on
    the board and not guessed by the player gives the guess and becomes the
    current direction.  When there is none the AI forgets the hit, takes
    all four directions back, and guesses at random. *)
Theorem makeGuess_target_mode (rand : nat → nat) (this : AIFields) (h : Coord)
    (w : World) :
  lastHit this = Some h →
  match List.find (λ d, validCell (game w) (neighbour (cellOf h) d))
                  (candidates this) with
  | Some d =>
      ∃ g n, GameAI.makeGuess rand this w
               = (Ok (set_currentDirection (Some d) this, Some g),
                  allocated n 0 w) ∧
             cellOf g = neighbour (cellOf h) d
  | None =>
      ∃ guess n, GameAI.makeGuess rand this w
                   = (Ok (GameAI.resetHunt this, guess), allocated n 1 w)
  end.
Proof.
  intros Hh. pose proof (makeGuess_spec rand this w) as Hspec.
  rewrite Hh in Hspec. destruct (List.find _ _) as [d|].
  - destruct Hspec as (g & n & Hrun & Hcell & _). by exists g, n.
  - destruct Hspec as (guess & n & Hrun & _). by exists guess, n.
Qed.

(** The AI has hit (0,0) and searches to the right; on [initialGame] the
    cell (0,1) is free, so it is the guess. *)
Lemma makeGuess_target_mode_witness :
  let h := mkCoord 24 0 0 in
  let this := set_currentDirection (Some right) (set_lastHit (Some h) GameAI.new) in
  lastHit this = Some h ∧
  match List.find (λ d, validCell (game initialGame) (neighbour (cellOf h) d))
                  (candidates this) with
  | Some d =>
      ∃ g n, GameAI.makeGuess rowsOracle this initialGame
               = (Ok (set_currentDirection (Some d) this, Some g),
                  allocated n 0 initialGame) ∧
             cellOf g = neighbour (cellOf h) d
  | None =>
      ∃ guess n, GameAI.makeGuess rowsOracle this initialGame
                   = (Ok (GameAI.resetHunt this, guess), allocated n 1 initialGame)
  end.
Proof.
  intros h this.
  assert (Hh : lastHit this = Some h) by reflexivity.
  split; [exact Hh|].
  exact (makeGuess_target_mode rowsOracle this h initialGame Hh).
Defined.

Lemma updateState_hit (this : AIFields) (g : Coord) (w : World) :
  ∃ sizes,
    GameAI.updateState this g "hit" w
      = (Ok (let this1 := set_possibleShipSizes sizes (set_lastHit (Some g) this) in
             match currentDirection this with
             | None => GameAI.resetDirections this1
             | Some _ => this1
             end),
         (copyArray (cpuShips (game w)) w).2).
Proof.
  unfold GameAI.updateState. rewrite decide_True by done.
  unfold bind at 1, GameAI.updatePossibleShipSizes at 1.
  unfold bind at 1, getCPUShips at 1, bind at 1, get at 1.
  unfold copyArray at 1. unfold bind at 1, get at 1, ret at 1, ret at 1.
  eexists. reflexivity.
Qed.

(** X18.  A hit reported to the AI and the guess that follows.
    [updateState(g, 'hit')] never throws, copies the array of the CPU's
    fleet and changes nothing else, and makes [g] the last hit.  The next
    [makeGuess] then probes the neighbours of [g]: towards the current
    direction first when the AI had one, and up, right, down and left
    otherwise. *)
Theorem next_guess_after_hit (rand : nat → nat) (this : AIFields) (g : Coord)
    (w : World) :
  ∃ this1 w1,
    GameAI.updateState this g "hit" w = (Ok this1, w1) ∧
    sameGame w w1 ∧ nextRef w1 = nextRef w ∧
    lastHit this1 = Some g ∧
    let dirs := match currentDirection this with
                | Some d => d :: possibleDirections this
                | None => [up; right; down; left]
                end in
    match List.find (λ d, validCell (game w) (neighbour (cellOf g) d)) dirs with
    | Some d =>
        ∃ g' n, GameAI.makeGuess rand this1 w1
                  = (Ok (set_currentDirection (Some d) this1, Some g'),
                     allocated n 0 w1) ∧
                cellOf g' = neighbour (cellOf g) d
    | None =>
        ∃ guess n, GameAI.makeGuess rand this1 w1
                     = (Ok (GameAI.resetHunt this1, guess), allocated n 1 w1)
    end.
Proof.
  destruct (updateState_hit this g w) as (sizes & Hupd).
  eexists _, _. split; [exact Hupd|]. clear Hupd. cbv zeta.
  split; [apply sameGame_copyArray|]. split; [reflexivity|].
  set (this1 := match currentDirection this with
                | Some _ => set_possibleShipSizes sizes (set_lastHit (Some g) this)
                | None => GameAI.resetDirections
                            (set_possibleShipSizes sizes (set_lastHit (Some g) this))
                end).
  assert (Hh : lastHit this1 = Some g).
  { subst this1. by destruct (currentDirection this). }
  split; [exact Hh|]. cbv zeta.
  assert (Hc : candidates this1 = match currentDirection this with
                                  | Some d => d :: possibleDirections this
                                  | None => [up; right; down; left]
                                  end).
  { subst this1. unfold candidates.
    destruct (currentDirection this) eqn:Hd;
      cbn [currentDirection possibleDirections set_possibleShipSizes set_lastHit
           GameAI.resetDirections set_currentDirection set_possibleDirections];
      [by rewrite Hd|done]. }
  rewrite <- Hc.
  pose proof (makeGuess_spec rand this1 (copyArray (cpuShips (game w)) w).2) as Hspec.
  rewrite Hh in Hspec.
  change (game (copyArray (cpuShips (game w)) w).2) with (game w) in Hspec.
  destruct (List.find _ _) as [d|].
  - destruct Hspec as (g' & n & Hrun & Hcell & _). by exists g', n.
  - destruct Hspec as (guess & n & Hrun & _). by exists guess, n.
Qed.

Lemma tryDirections_sizes (sizes : list Z) (this : AIFields)
    (dirs : list Direction) (w : World) :
  GameAI.tryDirections (set_possibleShipSizes sizes this) dirs w
    = GameAI.tryDirections this dirs w.
Proof.
  revert w. induction dirs as [|d dirs IH]; intros w; [done|].
  cbn [GameAI.tryDirections]. unfold bind at 1 3.
  change (GameAI.getGuessInDirection (set_possibleShipSizes sizes this) (Some d) w)
    with (GameAI.getGuessInDirection this (Some d) w).
  destruct (GameAI.getGuessInDirection this (Some d) w) as [[guess|e] w1]; [|done].
  unfold bind at 1 2.
  destruct (GameAI.isValidGuess guess w1) as [[[]|e] w2]; [done|apply IH|done].
Qed.

(** The result of a method of the AI, with [possibleShipSizes] replaced. *)
Lemma searchDirections_sizes (rand : nat → nat) (sizes : list Z)
    (this : AIFields) (w : World) :
  GameAI.searchDirections rand (set_possibleShipSizes sizes this) w
    = match GameAI.searchDirections rand this w with
      | (Ok (this', guess), w') => (Ok (set_possibleShipSizes sizes this', guess), w')
      | (Throw e, w') => (Throw e, w')
      end.
Proof.
  unfold GameAI.searchDirections. unfold bind at 1 3.
  change (possibleDirections (set_possibleShipSizes sizes this))
    with (possibleDirections this).
  rewrite tryDirections_sizes.
  destruct (GameAI.tryDirections this (possibleDirections this) w)
    as [[[[d guess]|]|e] w1]; [done| |done].
  unfold bind. by destruct (GameAI.getRandomGuess rand w1) as [[guess|e] w2].
Qed.

(** X19.  [possibleShipSizes] is written by [updateState] and read by
    nothing: the guess of [makeGuess], the world it leaves and the other
    fields of the AI are the same whatever the set holds. *)
Theorem makeGuess_ignores_ship_sizes (rand : nat → nat) (sizes : list Z)
    (this : AIFields) (w : World) :
  GameAI.makeGuess rand (set_possibleShipSizes sizes this) w
    = match GameAI.makeGuess rand this w with
      | (Ok (this', guess), w') => (Ok (set_possibleShipSizes sizes this', guess), w')
      | (Throw e, w') => (Throw e, w')
      end.
Proof.
  unfold GameAI.makeGuess, GameAI.getHuntGuess, GameAI.getNextGuessInDirection.
  change (lastHit (set_possibleShipSizes sizes this)) with (lastHit this).
  change (currentDirection (set_possibleShipSizes sizes this))
    with (currentDirection this).
  destruct (lastHit this) as [h|] eqn:Hh.
  - destruct (currentDirection this) as [d|] eqn:Hd.
    + unfold bind at 1 3.
      change (GameAI.getGuessInDirection (set_possibleShipSizes sizes this) (Some d) w)
        with (GameAI.getGuessInDirection this (Some d) w).
      destruct (GameAI.getGuessInDirection this (Some d) w) as [[guess|e] w1];
        [|done].
      unfold bind at 1 2.
      destruct (GameAI.isValidGuess guess w1) as [[[]|e] w2]; [done| |done].
      rewrite !switchDirection_spec.
      change (set_currentDirection None (set_possibleShipSizes sizes this))
        with (set_possibleShipSizes sizes (set_currentDirection None this)).
      apply searchDirections_sizes.
    + apply searchDirections_sizes.
  - unfold bind. by destruct (GameAI.getRandomGuess rand w) as [[guess|e] w1].
Qed.

(** ** The view: reading and printing a guess *)

Lemma pretty_digit (r : Z) :
  0 ≤ r < 10 →
  pretty r = String (ascii_of_nat (Z.to_nat (48 + r))) EmptyString.
Proof.
  intros Hr.
  assert (Hcases : r = 0 ∨ r = 1 ∨ r = 2 ∨ r = 3 ∨ r = 4 ∨
                   r = 5 ∨ r = 6 ∨ r = 7 ∨ r = 8 ∨ r = 9) by lia.
  destruct Hcases as [->|[->|[->|[->|[->|[->|[->|[->|[->| ->]]]]]]]]];
    vm_compute; reflexivity.
Qed.

Lemma formatCoordinates_inBounds (c : Coord) :
  inBounds (row c) (col c) = true →
  ∃ a b : nat,
    (a < 10)%nat ∧ (b < 10)%nat ∧
    col c = Z.of_nat a ∧ row c = Z.of_nat b ∧
    GameView.formatCoordinates c
      = String (ascii_of_nat (65 + a)) (String (ascii_of_nat (48 + b)) EmptyString).
Proof.
  intros Hb. apply inBounds_spec in Hb as [Hr Hc].
  change GameConfig.BOARD_SIZE with 10 in *.
  exists (Z.to_nat (col c)), (Z.to_nat (row c)).
  split_and!; try lia.
  unfold GameView.formatCoordinates. rewrite pretty_digit by done.
  do 2 f_equal; f_equal; lia.
Qed.

Lemma parseGuess_letter_digit (a b : nat) (w : World) :
  (a < 10)%nat → (b < 10)%nat →
  GameView.parseGuess
    (String (ascii_of_nat (65 + a)) (String (ascii_of_nat (48 + b)) EmptyString)) w
  = (Ok (Some (mkCoord (nextRef w) (Z.of_nat b) (Z.of_nat a))), allocated 1 0 w).
Proof.
  intros Ha Hb.
  do 10 (destruct a as [|a]; [
    do 10 (destruct b as [|b]; [vm_compute; reflexivity|]); lia |]).
  lia.
Qed.

(** X20.  What the view prints for a cell of the board, it reads back as
    that cell: [#parseGuess] of [#formatCoordinates] of a coordinate on the
    board is a new object with the same row and column. *)
Theorem parseGuess_formatCoordinates (c : Coord) (w : World) :
  inBounds (row c) (col c) = true →
  ∃ g, GameView.parseGuess (GameView.formatCoordinates c) w
         = (Ok (Some g), allocated 1 0 w) ∧
       sameCell g c ∧ ref g = nextRef w.
Proof.
  intros Hb.
  destruct (formatCoordinates_inBounds c Hb) as (a & b & Ha & Hb' & Hc & Hr & ->).
  rewrite parseGuess_letter_digit by done.
  eexists. split; [reflexivity|]. by split.
Qed.

Lemma parseGuess_formatCoordinates_witness :
  let c := mkCoord 0 5 0 in
  inBounds (row c) (col c) = true ∧
  GameView.formatCoordinates c = "A5" ∧
  ∃ g, GameView.parseGuess (GameView.formatCoordinates c) newGameState
         = (Ok (Some g), allocated 1 0 newGameState) ∧
       sameCell g c ∧ ref g = nextRef newGameState.
Proof.
  intros c.
  assert (Hb : inBounds (row c) (col c) = true) by reflexivity.
  split; [exact Hb|]. split; [vm_compute; reflexivity|].
  exact (parseGuess_formatCoordinates c newGameState Hb).
Defined.

Lemma parseGuess_Some (input : string) (w w' : World) (g : Coord) :
  GameView.parseGuess input w = (Ok (Some g), w') →
  ∃ col row : ascii,
    GameView.toUpperCase (GameView.trim input) = String col (String row EmptyString) ∧
    (65 ≤ nat_of_ascii col ≤ 74)%nat ∧ (48 ≤ nat_of_ascii row ≤ 57)%nat ∧
    g = mkCoord (nextRef w) (Z.of_nat (nat_of_ascii row) - 48)
                (Z.of_nat (nat_of_ascii col) - 65) ∧
    w' = allocated 1 0 w.
Proof.
  unfold GameView.parseGuess.
  destruct (GameView.toUpperCase (GameView.trim input)) as [|col [|row [|? ?]]];
    try done.
  destruct (Nat.leb_spec 65 (nat_of_ascii col)),
           (Nat.leb_spec (nat_of_ascii col) 74),
           (Nat.leb_spec 48 (nat_of_ascii row)),
           (Nat.leb_spec (nat_of_ascii row) 57); cbn [andb]; try done.
  unfold bind, newCoord, ret. intros [= <- <-].
  exists col, row. split_and!; try done; lia.
Qed.

(** X21.  A guess that [#parseGuess] reads from an ASCII input is a new
    object on the board: [#validateGuess] never rejects it.  What
    [#formatCoordinates] prints for it is the input, trimmed and in upper
    case. *)
Theorem parsed_guess_is_on_the_board (input : string) (w w' : World) (g : Coord) :
  isASCII input →
  GameView.parseGuess input w = (Ok (Some g), w') →
  w' = allocated 1 0 w ∧ ref g = nextRef w ∧
  inBounds (row g) (col g) = true ∧
  validateGuess (objectOf g) w' = (Ok g, w') ∧
  GameView.formatCoordinates g = GameView.toUpperCase (GameView.trim input).
Proof.
  intros _ Hrun.
  apply parseGuess_Some in Hrun as (c & r & Hin & Hc & Hr & -> & ->).
  assert (Hb : inBounds (Z.of_nat (nat_of_ascii r) - 48)
                        (Z.of_nat (nat_of_ascii c) - 65) = true).
  { apply inBounds_spec. change GameConfig.BOARD_SIZE with 10. lia. }
  split_and!; try done.
  - unfold validateGuess, objectOf. cbn [ref row col].
    apply inBounds_spec in Hb. change GameConfig.BOARD_SIZE with 10 in *.
    destruct (Z.ltb_spec (Z.of_nat (nat_of_ascii r) - 48) 0),
             (Z.geb_spec (Z.of_nat (nat_of_ascii r) - 48) 10),
             (Z.ltb_spec (Z.of_nat (nat_of_ascii c) - 65) 0),
             (Z.geb_spec (Z.of_nat (nat_of_ascii c) - 65) 10);
      cbn [orb]; try lia. done.
  - rewrite Hin. unfold GameView.formatCoordinates. cbn [row col].
    rewrite pretty_digit by lia.
    replace (Z.to_nat (65 + (Z.of_nat (nat_of_ascii c) - 65))) with (nat_of_ascii c)
      by lia.
    replace (Z.to_nat (48 + (Z.of_nat (nat_of_ascii r) - 48))) with (nat_of_ascii r)
      by lia.
    by rewrite !ascii_nat_embedding.
Qed.

Lemma parsed_guess_is_on_the_board_witness :
  let g := mkCoord 0 7 2 in
  let w' := allocated 1 0 newGameState in
  isASCII "  c7 " ∧
  GameView.parseGuess "  c7 " newGameState = (Ok (Some g), w') ∧
  w' = allocated 1 0 newGameState ∧ ref g = nextRef newGameState ∧
  inBounds (row g) (col g) = true ∧
  validateGuess (objectOf g) w' = (Ok g, w') ∧
  GameView.formatCoordinates g = GameView.toUpperCase (GameView.trim "  c7 ").
Proof.
  intros g w'.
  assert (Ha : isASCII "  c7 ").
  { unfold isASCII. cbn. repeat constructor; cbn; lia. }
  assert (H : GameView.parseGuess "  c7 " newGameState = (Ok (Some g), w'))
    by (vm_compute; reflexivity).
  split; [exact Ha|]. split; [exact H|].
  exact (parsed_guess_is_on_the_board "  c7 " newGameState w' g Ha H).
Defined.

(** ** A game played through the controller *)

Lemma newCoord_settled (a b : Z) (w : World) :
  settled w → settled (newCoord a b w).2.
Proof.
  intros Hset. apply (settled_sameShips w); try done.
  - eapply wellFormed_sameGame; [apply sameGame_newCoord|]. by destruct Hset.
  - cbn. lia.
Qed.

Lemma settled_unhit_playing (w : World) :
  settled w → fleetUnhit w (cpuShips (game w)) → isGameOver w = false.
Proof.
  intros Hset Hun. rewrite (settled_isGameOver w Hset).
  destruct (initialized (game w)) eqn:Hi; [|done]. cbn [andb].
  destruct Hset as (_ & _ & _ & Hpc & _ & _ & Hinit).
  destruct (Hinit Hi) as [_ Hne].
  destruct (arrayAt w (cpuShips (game w))) as [|s fleet] eqn:Hfleet; [done|].
  unfold areAllShipsSunk. rewrite Hfleet. cbn [forallb].
  destruct (shipAt w s) as [sh|] eqn:Hsh; [|done].
  assert (Hin : s ∈ arrayAt w (cpuShips (game w))) by (rewrite Hfleet; left).
  destruct (Hpc s sh Hin Hsh) as [Hsize _].
  pose proof (Hun s sh Hin Hsh) as Hh.
  unfold Ship.isSunk. rewrite Hh. cbn [length].
  destruct (Z.eqb_spec (Z.of_nat 0) (Ship.size sh)) as [E|_]; [lia|done].
Qed.

Lemma fleetUnhit_ext (w w' : World) (fleet : nat) :
  ships w' = ships w → arrays w' = arrays w →
  fleetUnhit w fleet → fleetUnhit w' fleet.
Proof.
  intros Hs Ha Hun s sh. unfold arrayAt, shipAt. rewrite Hs, Ha. apply Hun.
Qed.

(** A guess with an object that is newer than the ships is a miss. *)
Lemma processPlayerGuess_fresh (g : Coord) (w w' : World) (o : Outcome GuessResult) :
  settled w → fleetUnhit w (cpuShips (game w)) →
  (∀ sh l, sh ∈ ships w → l ∈ Ship.locations sh → ref l ≠ ref g) →
  processPlayerGuess (objectOf g) w = (o, w') →
  settled w' ∧ fleetUnhit w' (cpuShips (game w')) ∧
  ∀ result, o = Ok result → type result = "miss".
Proof.
  intros Hset Hun Hfresh Hrun.
  assert (Hid : respectsIdentity w (objectOf g)).
  { intros r a b s sh l [= <- <- <-] Hsh Hl Hr. exfalso.
    apply (Hfresh sh l); [by eapply list_elem_of_lookup_2|done..]. }
  split; [by eapply processPlayerGuess_settled|].
  destruct o as [result|e].
  - apply processPlayerGuess_effect in Hrun as (Hg & _ & Ha & _ & _ & Hgame & Hs).
    apply objectOf_inj in Hg. subst g.
    destruct (findShipAtLocation w _ _) as [s|] eqn:Hfind.
    + exfalso. apply findShipAtLocation_Some in Hfind as (_ & sh & Hsh & Hat).
      apply ObjSet_has_true in Hat.
      apply list_elem_of_fmap in Hat as (l & Hr & Hl).
      apply (Hfresh sh l); [by eapply list_elem_of_lookup_2|done..].
    + destruct Hs as [Ht Hs]. split.
      * rewrite Hgame. by apply (fleetUnhit_ext w).
      * by intros ? [= <-].
  - destruct (specifiedError w (objectOf g)) as [e'|] eqn:Hspec.
    + rewrite (processPlayerGuess_rejected _ _ _ Hspec) in Hrun.
      injection Hrun as _ <-. by split.
    + destruct Hset as (Hwf & _).
      destruct (processPlayerGuess_succeeds w _ Hwf Hid Hspec)
        as (result & w1 & Hrun1 & _).
      by rewrite Hrun1 in Hrun.
Qed.

(** The turn of the player never throws, and its guess is a miss. *)
Lemma processPlayerTurn_unhit (answers : list string) (w w' : World)
    (o : Outcome (option (GuessResult * list string))) :
  settled w → fleetUnhit w (cpuShips (game w)) →
  GameController.processPlayerTurn answers w = (o, w') →
  settled w' ∧ fleetUnhit w' (cpuShips (game w')) ∧
  ∃ r, o = Ok r ∧ ∀ result rest, r = Some (result, rest) → type result = "miss".
Proof.
  revert w. induction answers as [|answer answers IH]; intros w Hset Hun.
  - intros [= <- <-]. split_and!; try done. by eexists.
  - cbn [GameController.processPlayerTurn]. unfold bind at 1.
    destruct (GameView.parseGuess answer w) as [[[g|]|e] w1] eqn:Hparse.
    + apply parseGuess_Some in Hparse as (c & r & _ & _ & _ & -> & ->).
      set (g := mkCoord _ _ _).
      assert (Hset1 : settled (allocated 1 0 w)).
      { apply (settled_sameShips w); try done; [|cbn; lia].
        destruct Hset as (Hwf & _). by eapply (wellFormed_ext w). }
      assert (Hnew : ∀ sh l, sh ∈ ships (allocated 1 0 w) →
                l ∈ Ship.locations sh → ref l ≠ ref g).
      { intros sh l Hsh Hl.
        destruct Hset as (_ & Hbelow & _). specialize (Hbelow sh l Hsh Hl).
        cbn. lia. }
      destruct (processPlayerGuess (objectOf g) (allocated 1 0 w))
        as [[result|e] w2] eqn:Hguess;
        apply processPlayerGuess_fresh in Hguess as (Hset2 & Hun2 & Hmiss);
        try done.
      * intros [= <- <-]. split_and!; try done. eexists. split; [done|].
        intros ? ? [= <- <-]. by apply Hmiss.
      * by apply IH.
    + assert (Hw1 : w1 = w).
      { revert Hparse. unfold GameView.parseGuess.
        destruct (GameView.toUpperCase _) as [|? [|? [|? ?]]];
          try (by intros [= <-]).
        destruct (_ && _)%bool; [done|by intros [= <-]]. }
      subst w1. by apply IH.
    + exfalso. revert Hparse. unfold GameView.parseGuess.
      destruct (GameView.toUpperCase _) as [|? [|? [|? ?]]]; try done.
      by destruct (_ && _)%bool.
Qed.

Lemma processCPUTurn_unhit (rand : nat → nat) (fuel : nat) (answers : list string)
    (w w' : World) (o : Outcome (option (GuessResult * list string))) :
  settled w → fleetUnhit w (cpuShips (game w)) →
  GameController.processCPUTurn rand fuel answers w = Some (o, w') →
  settled w' ∧ fleetUnhit w' (cpuShips (game w')).
Proof.
  intros Hset Hun. unfold GameController.processCPUTurn.
  destruct (processCPUGuess rand fuel w) as [[o1 w1]|] eqn:Hrun; [|done].
  apply processCPUGuess_settled in Hrun as (Hset1 & Hs1 & Ha1 & _ & Hg1 & _);
    [|done].
  assert (Hun1 : fleetUnhit w1 (cpuShips (game w1))).
  { replace (cpuShips (game w1)) with (cpuShips (game w)) by (by rewrite <- Hg1).
    by apply (fleetUnhit_ext w). }
  destruct o1; by intros [= <- <-].
Qed.

(** The loop never gets to [#showGameResult]. *)
Lemma gameLoop_unhit (rand : nat → nat) (fuel : nat)
    (answers : list string) (w : World) :
  settled w → fleetUnhit w (cpuShips (game w)) →
  let run := GameController.gameLoop rand fuel answers w in
  (∀ winner, run.1 ≠ GameController.Announced winner) ∧
  settled run.2 ∧ fleetUnhit run.2 (cpuShips (game run.2)).
Proof.
  revert answers w. induction fuel as [|fuel IH]; intros answers w Hset Hun;
    [done|].
  cbn [GameController.gameLoop].
  rewrite (settled_unhit_playing w Hset Hun).
  destruct (GameController.processPlayerTurn answers w) as [o w1] eqn:Hturn.
  apply processPlayerTurn_unhit in Hturn as (Hset1 & Hun1 & r & -> & _); try done.
  destruct r as [[result answers1]|]; [|done].
  rewrite (settled_unhit_playing w1 Hset1 Hun1).
  destruct (GameController.processCPUTurn rand fuel answers1 w1)
    as [[[[[result2 answers2]|]|e] w2]|] eqn:Hcpu; try done;
    apply processCPUTurn_unhit in Hcpu as [Hset2 Hun2]; try done.
  by apply IH.
Qed.

Lemma showGameResult_spec (w : World) :
  fleetsAllocated w →
  GameController.showGameResult w
    = (Ok (if areAllShipsSunk w (playerShips (game w)) then Some "cpu"
           else if areAllShipsSunk w (cpuShips (game w)) then Some "player"
           else None),
       (copyArray (cpuShips (game w)) (copyArray (playerShips (game w)) w).2).2).
Proof.
  intros (Hp & Hc & _).
  unfold GameController.showGameResult.
  unfold bind at 1, getPlayerShips at 1, bind at 1, get at 1.
  unfold bind at 1, getCPUShips at 1, bind at 1, get at 1.
  unfold bind at 1, get at 1.
  set (w1 := (copyArray (playerShips (game w)) w).2).
  set (w2 := (copyArray (cpuShips (game w1)) w1).2).
  assert (Hsp : areAllShipsSunk w2 (length (arrays w))
                = areAllShipsSunk w (playerShips (game w))).
  { unfold areAllShipsSunk. f_equal. unfold arrayAt at 1. cbn.
    rewrite <- app_assoc. rewrite lookup_app_r by done.
    by rewrite Nat.sub_diag. }
  assert (Hsc : areAllShipsSunk w2 (length (arrays w1))
                = areAllShipsSunk w (cpuShips (game w))).
  { unfold areAllShipsSunk. f_equal. unfold arrayAt at 1. cbn.
    rewrite lookup_app_r by done. rewrite Nat.sub_diag. cbn.
    unfold arrayAt. cbn. by rewrite lookup_app_l. }
  change (copyArray (playerShips (game w)) w) with (@Ok nat (length (arrays w)), w1).
  cbv beta iota.
  change (copyArray (cpuShips (game w1)) w1) with (@Ok nat (length (arrays w1)), w2).
  cbv beta iota. rewrite Hsp, Hsc.
  destruct (areAllShipsSunk w (playerShips (game w))); [done|].
  by destruct (areAllShipsSunk w (cpuShips (game w))).
Qed.

(** X22.  [#showGameResult] reads the fleets through the getters and
    changes nothing in the game.  It announces the CPU when the player's
    fleet is sunk, also when both fleets are; otherwise the player when the
    CPU's fleet is sunk; otherwise nobody.  So whenever the game is over a
    winner is announced. *)
Theorem showGameResult_names_the_winner (w : World) :
  fleetsAllocated w →
  ∃ winner w',
    GameController.showGameResult w = (Ok winner, w') ∧
    sameGame w w' ∧
    (winner = Some "cpu" ↔ areAllShipsSunk w (playerShips (game w)) = true) ∧
    (winner = Some "player" ↔
       areAllShipsSunk w (playerShips (game w)) = false ∧
       areAllShipsSunk w (cpuShips (game w)) = true) ∧
    (winner = None ↔
       areAllShipsSunk w (playerShips (game w)) = false ∧
       areAllShipsSunk w (cpuShips (game w)) = false) ∧
    (isGameOver w = true → winner ≠ None).
Proof.
  intros Halloc. eexists _, _. split; [by apply showGameResult_spec|].
  split.
  { etrans; apply sameGame_copyArray. }
  unfold isGameOver.
  destruct (areAllShipsSunk w (playerShips (game w))),
           (areAllShipsSunk w (cpuShips (game w)));
    split_and!; try done; try (split; [done|by intros []]).
  by destruct (negb _).
Qed.

(** The game in which every location of the CPU's fleet has been hit. *)
Lemma showGameResult_names_the_winner_witness :
  let w := (processPlayerGuess (objectOf (mkCoord 23 2 2)) lastShipGame).2 in
  fleetsAllocated w ∧
  isGameOver w = true ∧
  ∃ winner w',
    GameController.showGameResult w = (Ok winner, w') ∧
    sameGame w w' ∧
    (winner = Some "cpu" ↔ areAllShipsSunk w (playerShips (game w)) = true) ∧
    (winner = Some "player" ↔
       areAllShipsSunk w (playerShips (game w)) = false ∧
       areAllShipsSunk w (cpuShips (game w)) = true) ∧
    (winner = None ↔
       areAllShipsSunk w (playerShips (game w)) = false ∧
       areAllShipsSunk w (cpuShips (game w)) = false) ∧
    (isGameOver w = true → winner ≠ None).
Proof.
  intros w.
  assert (Halloc : fleetsAllocated w) by (vm_compute; lia).
  split; [exact Halloc|]. split; [vm_compute; reflexivity|].
  exact (showGameResult_names_the_winner w Halloc).
Defined.

(** X23.  A game played through [GameController.start()], whatever the
    player types and whatever the random numbers are.  The guesses of the
    player are objects that [#parseGuess] has just made and those of the
    CPU objects that the AI has just made, and a ship knows its locations
    by identity: every guess is a miss, no ship of either fleet is ever
    hit, [isGameOver()] stays false, and the loop never gets to
    [#showGameResult].  The run ends waiting for a line, with an error, or
    not at all. *)
Theorem game_through_controller_never_ends (rand : nat → nat) (fuel : nat)
    (answers : list string) :
  let run := GameController.start rand fuel answers in
  (∀ winner, run.1 ≠ GameController.Announced winner) ∧
  isGameOver run.2 = false ∧
  fleetUnhit run.2 (playerShips (game run.2)) ∧
  fleetUnhit run.2 (cpuShips (game run.2)).
Proof.
  unfold GameController.start.
  destruct (initialize rand newGameState) as [[[]|e] w] eqn:Hinit.
  - pose proof (initialize_new_game rand w Hinit) as (_ & _ & _ & _ & _ & Hc).
    destruct (initialize_settled rand _ _ _ newGameState_settled Hinit)
      as (Hset & _).
    assert (Hun : fleetUnhit w (cpuShips (game w))).
    { intros s sh Hs Hsh. unfold freshFleet in Hc.
      apply list_elem_of_lookup in Hs as [i Hi].
      destruct (Forall2_lookup_l _ _ _ _ _ Hc Hi) as (size & _ & sh' & Hsh' & _ & Hh & _).
      congruence. }
    destruct (gameLoop_unhit rand fuel answers w Hset Hun) as (Hrun & Hset' & Hun').
    cbv zeta. split_and!; try done.
    + by apply settled_unhit_playing.
    + by destruct Hset' as (_ & _ & _ & _ & ? & _).
  - destruct (initialize_settled rand _ _ _ newGameState_settled Hinit)
      as (Hset & Hres).
    cbn [initialized game newGameState] in Hres. destruct Hres as [Hg Hres].
    cbv zeta. cbn [fst snd]. split_and!; try done.
    + unfold isGameOver. by rewrite Hg.
    + by destruct Hset as (_ & _ & _ & _ & ? & _).
    + rewrite Hg. cbn [cpuShips].
      assert (Hgrown : ∃ w1 sizes, arrayAt w1 1 = [] ∧ fleetGrown 1 sizes w1 w).
      { destruct Hres as [(_ & sizes & _ & Hgr) | (_ & w1 & sizes & Hgr1 & _ & Hgr2)].
        - exists w, []. split; [|apply fleetGrown_refl].
          destruct Hgr as (_ & _ & _ & Hoth & _). by rewrite Hoth.
        - exists w1, sizes. split; [|done].
          destruct Hgr1 as (_ & _ & _ & Hoth & _). by rewrite Hoth. }
      destruct Hgrown as (w1 & sizes & He & Hgr).
      pose proof (fleetGrown_freshFleet _ _ _ _ He Hgr) as Hfresh.
      intros s sh Hs Hsh. unfold freshFleet in Hfresh.
      apply list_elem_of_lookup in Hs as [i Hi].
      destruct (Forall2_lookup_l _ _ _ _ _ Hfresh Hi)
        as (size & _ & sh' & Hsh' & _ & Hh & _).
      congruence.
Qed.

(** A run: the player guesses A0 and the CPU answers; after a line that
    does not parse the player guesses J9, and the CPU then draws the cell
    of its first guess again until the fuel is spent. *)
Lemma start_example :
  let run := GameController.start rowsOracle 3 ["A0"; ""; "zz"; "j9"] in
  run.1 = GameController.OutOfFuel ∧
  playerGuesses (game run.2) = ["0,0"; "9,9"] ∧
  cpuGuesses (game run.2) = ["0,1"].
Proof. vm_compute. by split_and!. Qed.

(** ** What no call of the interface takes back, in full *)

Global Instance keeps_preorder : PreOrder keeps.
Proof.
  split.
  - intros w. split_and!; try done. intros s sh Hsh. by exists sh.
  - intros w1 w2 w3 (Hi1 & Hp1 & Hc1 & Hps1 & Hcs1 & Hap1 & Hac1 & Hs1)
                    (Hi2 & Hp2 & Hc2 & Hps2 & Hcs2 & Hap2 & Hac2 & Hs2).
    rewrite Hps1 in Hap2. rewrite Hcs1 in Hac2.
    split_and!; try (by etrans); try congruence; [auto|].
    intros s sh Hsh. destruct (Hs1 s sh Hsh) as (sh2 & Hsh2 & Hz2 & Hl2 & Hh2).
    destruct (Hs2 s sh2 Hsh2) as (sh3 & Hsh3 & Hz3 & Hl3 & Hh3).
    exists sh3. split_and!; try congruence. by etrans.
Qed.

Lemma keeps_sameShips (w w' : World) :
  fleetsAllocated w →
  ships w' = ships w → arrays w `prefix_of` arrays w' →
  (initialized (game w) = true → initialized (game w') = true) →
  playerGuesses (game w) ⊆ playerGuesses (game w') →
  cpuGuesses (game w) ⊆ cpuGuesses (game w') →
  playerShips (game w') = playerShips (game w) →
  cpuShips (game w') = cpuShips (game w) →
  keeps w w'.
Proof.
  intros (Hp & Hc & _) Hs Ha Hi Hpg Hcg Hps Hcs.
  split_and!; try done.
  - by rewrite (arrayAt_prefix w w').
  - by rewrite (arrayAt_prefix w w').
  - intros s sh Hsh. exists sh. unfold shipAt in *. by rewrite Hs.
Qed.

Lemma keeps_fleetGrown (fleet : nat) (sizes : list Z) (w w' : World) :
  fleetGrown fleet sizes w w' → keeps w w'.
Proof.
  intros (Hg & Hlen & Hold & Hoth & news & Hf & _).
  assert (Harr : ∀ a, arrayAt w a `prefix_of` arrayAt w' a).
  { intros a. destruct (decide (a = fleet)) as [->|Hne].
    - rewrite Hf. by apply prefix_app_r.
    - by rewrite Hoth. }
  unfold keeps. rewrite Hg. split_and!; try done.
  intros s sh Hsh. exists sh. split_and!; try done.
  rewrite Hold; [done|]. by eapply lookup_lt_Some.
Qed.

Lemma ObjSet_add_subseteq (s : ObjSet) (x : Coord) : s ⊆ ObjSet_add s x.
Proof.
  unfold ObjSet_add. destruct (ObjSet_has s x); [done|].
  intros y Hy. apply elem_of_app. by left.
Qed.

Lemma StrSet_add_subseteq (s : StrSet) (k : string) : s ⊆ StrSet_add s k.
Proof. intros k' Hk'. by apply StrSet_add_mono. Qed.

Lemma apiStep_keeps (rand : nat → nat) (w w' : World) :
  settled w → apiStep rand w w' → keeps w w'.
Proof.
  intros Hset Hstep.
  assert (Hwf : wellFormed w) by (by destruct Hset).
  assert (Halloc : fleetsAllocated w) by (by destruct Hwf).
  destruct Hstep as [w o w' H | guess w o w' Hid H | fuel w o w' H
                    | w a w' H | w a w' H].
  - destruct (initialize_settled rand w w' o Hset H) as [_ Hres].
    destruct o as [[]|e].
    + destruct Hres as (Hi & w1 & w2 & Hgr1 & Hgr2 & ->).
      assert (Hg1 : game w1 = game w) by (by destruct Hgr1).
      rewrite <- Hg1 in Hgr2.
      etrans; [by eapply keeps_fleetGrown|].
      etrans; [by eapply keeps_fleetGrown|].
      assert (Hwf2 : fleetsAllocated w2).
      { destruct Hgr2 as (Hg2 & _). 
        pose proof (initialize_wellFormed rand w Hwf) as Hwf'.
        rewrite H in Hwf'. by destruct Hwf'. }
      by apply keeps_sameShips.
    + destruct (initialized (game w)); [by destruct Hres as [_ ->]|].
      destruct Hres as [Hg [(_ & sizes & _ & Hgr) | (_ & w1 & sizes & Hgr1 & _ & Hgr2)]].
      * by eapply keeps_fleetGrown.
      * assert (Hg1 : game w1 = game w) by (by destruct Hgr1).
        rewrite <- Hg1 in Hgr2.
        etrans; by eapply keeps_fleetGrown.
  - destruct (specifiedError w guess) as [e|] eqn:Hspec.
    { rewrite (processPlayerGuess_rejected _ _ _ Hspec) in H.
      by injection H as _ <-. }
    destruct (processPlayerGuess_succeeds w guess Hwf Hid Hspec)
      as (result & w1 & Hrun1 & _).
    rewrite Hrun1 in H. injection H as _ <-.
    apply processPlayerGuess_effect in Hrun1
      as (_ & _ & Harr & _ & _ & Hg & Hships).
    assert (Ha : ∀ a, arrayAt w1 a = arrayAt w a).
    { intros a. unfold arrayAt. by rewrite Harr. }
    unfold keeps. rewrite Hg.
    cbn [initialized playerGuesses cpuGuesses playerShips cpuShips
         set_playerGuesses].
    split_and!; try done; try (by rewrite Ha).
    + apply StrSet_add_subseteq.
    + intros s sh Hsh.
      destruct (findShipAtLocation w _ _) as [s0|] eqn:Hfind.
      * destruct Hships as (_ & sh0 & sh0' & Hsh0 & Hhit & Hs1).
        unfold shipAt. rewrite Hs1.
        destruct (decide (s = s0)) as [->|Hne].
        -- assert (sh0 = sh) as -> by congruence.
           exists sh0'. apply hit_Ok in Hhit as (Hsz & Hloc & Hh & _).
           split_and!; try done.
           ++ apply list_lookup_insert_eq. by eapply lookup_lt_Some.
           ++ rewrite Hh. apply ObjSet_add_subseteq.
        -- exists sh. by rewrite list_lookup_insert_ne.
      * destruct Hships as [_ Hs1]. exists sh. unfold shipAt. by rewrite Hs1.
  - destruct (processCPUGuess_settled rand fuel w w' o Hset H)
      as (_ & Hs & Ha & _ & Hg & Hres).
    assert (Hfields : initialized (game w') = initialized (game w) ∧
                      playerGuesses (game w') = playerGuesses (game w) ∧
                      playerShips (game w') = playerShips (game w) ∧
                      cpuShips (game w') = cpuShips (game w)).
    { rewrite <- Hg. by destruct (game w'). }
    destruct Hfields as (Hi & Hpg & Hps & Hcs).
    apply keeps_sameShips; try done.
    + by rewrite Ha.
    + by rewrite Hi.
    + by rewrite Hpg.
    + destruct o as [result|e].
      * destruct Hres as (_ & _ & _ & _ & ->). apply StrSet_add_subseteq.
      * destruct Hres as [-> _]. done.
  - unfold getPlayerShips, bind, get in H.
    assert (w' = (copyArray (playerShips (game w)) w).2) as -> by (by rewrite H).
    apply keeps_sameShips; try done. cbn. by apply prefix_app_r.
  - unfold getCPUShips, bind, get in H.
    assert (w' = (copyArray (cpuShips (game w)) w).2) as -> by (by rewrite H).
    apply keeps_sameShips; try done. cbn. by apply prefix_app_r.
Qed.

Lemma later_keeps (rand : nat → nat) (w w' : World) :
  settled w → rtc (apiStep rand) w w' → keeps w w'.
Proof.
  intros Hset Hlater. induction Hlater as [|w1 w2 w3 Hstep _ IH]; [reflexivity|].
  etrans; [by eapply apiStep_keeps|]. apply IH. by eapply apiStep_settled.
Qed.

Lemma playerGuessesAll_later (rand : nat → nat) (guesses : list JsValue)
    (w : World) :
  respectAll guesses w = true →
  rtc (apiStep rand) w (playerGuessesAll guesses w).
Proof.
  revert w. induction guesses as [|g guesses IH]; intros w Hall;
    cbn [respectAll playerGuessesAll] in *.
  - reflexivity.
  - apply andb_prop in Hall as [Hg Hall].
    eapply rtc_l; [|by apply IH].
    eapply (step_processPlayerGuess rand g w (processPlayerGuess g w).1).
    + by apply respectsIdentityb_sound.
    + by destruct (processPlayerGuess g w).
Qed.

(** X24.  Between two games reached through the interface, the later one
    after any number of calls: an initialized game stays initialized; no
    guess of the player or of the CPU is forgotten; the fleets keep their
    ships and their order; a ship keeps its size and its locations, and no
    hit on it is undone. *)
Theorem interface_never_takes_back (rand : nat → nat) (w w' : World) :
  reachable rand w → rtc (apiStep rand) w w' → keeps w w'.
Proof.
  intros Hreach. apply later_keeps. by eapply reachable_settled.
Qed.

Lemma interface_never_takes_back_witness :
  reachable rowsOracle initialGame ∧
  rtc (apiStep rowsOracle) initialGame lastShipGame ∧
  keeps initialGame lastShipGame.
Proof.
  assert (Hlater : rtc (apiStep rowsOracle) initialGame lastShipGame).
  { apply playerGuessesAll_later. vm_compute. reflexivity. }
  split; [exact initialGame_reachable|]. split; [exact Hlater|].
  exact (interface_never_takes_back rowsOracle initialGame lastShipGame
           initialGame_reachable Hlater).
Defined.
